(** * cdf_2023: assembly graph, equilibrium validator and reachability scoring

    A shallow embedding of
    - [cdf_2023/assembly/assembly.py] (class [Assembly]),
    - [cdf_2023/robot/base_map.py] (class [BaseMap]) and
    - [cdf_2023/robot/reuleaux.py] (the reachability dataset),
    with the properties of the written specification stated over it.

    Conventions.
    - Python exceptions are values of [exn]; a call returns a [result].
    - Methods that mutate objects are functions from a store to a store
      and a [result]; when a call raises, the store it returns is the one
      reached at the raising statement.
    - A Python float is the rational it denotes ([Qc]); every float
      operation returns the rounding [fl] of its exact result, and a
      float literal is the rounding of its decimal. The development is
      parametric in the rounding ([Rounding]); [binary64] is the one of
      the interpreter, and concrete runs use it. Infinities and NaN are
      not values of the model, except the [inf] that a k-d tree reports
      when it has no sample.
    - A local variable that is assigned on some paths only is an [option];
      reading it while unbound raises [UnboundLocalError]. *)

From stdpp Require Import base option list gmap strings numbers fin_maps.
From Stdlib Require Import ZArith QArith Qcanon Qpower Lia Psatz Lqa.

Local Open Scope Z_scope.
Local Open Scope string_scope.

(** ** Exceptions and results *)

Inductive exn : Type :=
  | UnboundLocalError (name : string)
  | KeyError
  | IndexError
  | ZeroDivisionError
  | StatisticsError
  | AttributeError
  | TypeError
  | ValueError (msg : string).

Inductive result (A : Type) : Type :=
  | Ok (a : A)
  | Raise (e : exn).
Arguments Ok {A} a.
Arguments Raise {A} e.

#[global] Instance result_ret : MRet result := fun _ a => Ok a.
#[global] Instance result_bind : MBind result := fun _ _ f r =>
  match r with Ok a => f a | Raise e => Raise e end.

(** [d[k]] on an optional lookup. *)
Definition getitem {A} (o : option A) (e : exn) : result A :=
  match o with Some a => Ok a | None => Raise e end.

(** Reading a local variable. *)
Definition read_local {A} (name : string) (o : option A) : result A :=
  getitem o (UnboundLocalError name).

(** Exact rational literals. *)
Definition qc (n : Z) (d : positive) : Qc := Q2Qc (n # d).

Definition Qc_ltb (x y : Qc) : bool := bool_decide (x < y)%Qc.
Definition Qc_leb (x y : Qc) : bool := bool_decide (x <= y)%Qc.
Definition Qc_eqb (x y : Qc) : bool := bool_decide (x = y).

Definition Qc_sum (l : list Qc) : Qc := foldr Qcplus 0%Qc l.

(** ** Floating-point arithmetic *)

(** The floats of an interpreter: the rounding [fl] of an exact result to
    a float, and the builtin [sum] on a list of floats (additions from
    left to right in CPython before 3.12 and in IronPython, compensated
    summation since 3.12), which returns a single float as it is. *)
Class Rounding : Type := {
  fl : Qc -> Qc;
  fsum : list Qc -> Qc;
  fsum_one : forall x, fsum [x] = x
}.

(** The additions from left to right, starting from the integer 0, to
    which the first float is added exactly. *)
Definition left_sum (round : Qc -> Qc) (l : list Qc) : Qc :=
  match l with
  | [] => 0%Qc
  | x :: rest => foldl (fun a b => round (a + b)%Qc) x rest
  end.

Section Float.
Context `{Rd : Rounding}.

(** [x + y], [x - y], [x * y] and [x / y] on floats ([y] not zero). *)
Definition fadd (x y : Qc) : Qc := fl (x + y).
Definition fsub (x y : Qc) : Qc := fl (x - y).
Definition fmul (x y : Qc) : Qc := fl (x * y).
Definition fdiv (x y : Qc) : Qc := fl (x / y).

(** What the properties that compare two results need of the rounding:
    it keeps the order, it leaves a float as it is, and 0 is a float. *)
Record correctly_rounded : Prop := mkCorrectlyRounded {
  fl_monotone : forall x y, (x <= y)%Qc -> (fl x <= fl y)%Qc;
  fl_idempotent : forall x, fl (fl x) = fl x;
  fl_zero : fl 0%Qc = 0%Qc
}.

End Float.

(** [n / d] rounded to the nearest integer, ties to even, for [0 < d]. *)
Definition round_half_even (n d : Z) : Z :=
  let q := n / d in
  let r := n mod d in
  match (2 * r ?= d)%Z with
  | Lt => q
  | Gt => q + 1
  | Eq => if Z.even q then q else q + 1
  end.

(** The exponent [e] with [2^e <= n / d < 2^(e+1)], for [0 < n], [0 < d]. *)
Definition floor_log2 (n d : Z) : Z :=
  let e := Z.log2 n - Z.log2 d in
  if (0 <=? e)%Z then (if (d * 2 ^ e <=? n)%Z then e else e - 1)
  else (if (d <=? n * 2 ^ (- e))%Z then e else e - 1).

(** Round to nearest, ties to even, in binary64: 53 significant bits,
    and the fixed quantum [2^-1074] in the subnormal range. *)
Definition binary64_round (x : Qc) : Qc :=
  let n := Qnum (this x) in
  let d := Z.pos (Qden (this x)) in
  if (n =? 0)%Z then 0%Qc
  else
    let a := Z.abs n in
    let q := Z.max (floor_log2 a d - 52) (-1074) in
    let m := if (0 <=? q)%Z then round_half_even a (d * 2 ^ q)
             else round_half_even (a * 2 ^ (- q)) d in
    let s := Z.sgn n in
    if (0 <=? q)%Z then Q2Qc (inject_Z (s * m * 2 ^ q))
    else Q2Qc (s * m # Z.to_pos (2 ^ (- q))).

(** The floats of the interpreter, and the arithmetic without rounding,
    which agrees with them wherever every result is a float. *)
#[local] Instance binary64 : Rounding := {|
  fl := binary64_round;
  fsum := left_sum binary64_round;
  fsum_one := fun x => eq_refl
|}.
Definition exact : Rounding := {|
  fl := fun x => x;
  fsum := left_sum (fun x => x);
  fsum_one := fun x => eq_refl
|}.

(** The parts of [binary64_round] on a positive [a / d], named for the
    proofs of its laws: the exponent of the quantum, the significand in
    quanta, and the float they denote. [near x u m] says that [m * u] is
    a multiple of [u] nearest to [x], and the even one when two are
    equally near; [above e a d] is the test [2^e <= a / d] of
    [floor_log2]. *)
Module Binary64.

Definition ratio (a d : Z) : Q := (inject_Z a / inject_Z d)%Q.

Definition quantum (a d : Z) : Z := Z.max (floor_log2 a d - 52) (-1074).

Definition mantissa (a d : Z) : Z :=
  let q := quantum a d in
  if (0 <=? q)%Z then round_half_even a (d * 2 ^ q)
  else round_half_even (a * 2 ^ (- q)) d.

Definition magnitude (a d : Z) : Q :=
  (inject_Z (mantissa a d) * 2 ^ quantum a d)%Q.

Definition near (x u : Q) (m : Z) : Prop :=
  (inject_Z (2 * m - 1) * u <= 2 * x)%Q /\
  (2 * x <= inject_Z (2 * m + 1) * u)%Q /\
  ((2 * x == inject_Z (2 * m - 1) * u)%Q -> Z.even m = true) /\
  ((2 * x == inject_Z (2 * m + 1) * u)%Q -> Z.even m = true).

Definition above (e a d : Z) : bool :=
  if (0 <=? e)%Z then (d * 2 ^ e <=? a)%Z else (d <=? a * 2 ^ (- e))%Z.

End Binary64.

(** ** Static equilibrium validator ([Assembly.static_equilibrium_check]) *)

Module Equilibrium.

(** What the geometry kernel hands to the scan for one solid of
    [e = [support] + elements_breps]: [rs.SurfaceVolume(e[x])[0]] and the
    planar part of [rs.SurfaceVolumeCentroid(e[x])[0]]. *)
Record solid : Type := Solid { volume : Qc; cen_x : Qc; cen_y : Qc }.

(** The local variables of the function that the loop reads and writes. *)
Record locals : Type := Locals {
  s_glob : option bool;
  s_int : option Z;
  allow_temp_support : bool;
  res_pos_x : Qc;
  res_pos_y : Qc;
  static_equilibrium : bool;
  res : option Z
}.

(** [x != True] and [x != False] for [x] in [{True, False, None}]. *)
Definition ne_True (x : option bool) : bool :=
  match x with Some true => false | _ => true end.
Definition ne_False (x : option bool) : bool :=
  match x with Some false => false | _ => true end.

Section Scan.
Context `{Rd : Rounding}.

(** [rs.IsPointInSurface(sa, (x, y, 0))] for the footprint solid [sa] of
    the call, and [rs.AddLine((x, y, 0), (x, y, h))], which returns the
    identifier of the line it adds. *)
Variable IsPointInSurface : Qc -> Qc -> option bool.
Variable AddLine : Qc -> Qc -> Qc -> Z.

(** The locals before the loop; [s_glob] is assigned only under
    [if allow_temp_support == True]. *)
Definition init (allow : bool) : locals :=
  {| s_glob := if allow then Some true else None;
     s_int := None;
     allow_temp_support := allow;
     res_pos_x := 0%Qc;
     res_pos_y := 0%Qc;
     static_equilibrium := false;
     res := None |}.

(** The running resultant point after adding [e[i]]:
    [res_pos_x / sum(vol[:(i+1)])] and the like. *)
Definition resultant (e : list solid) (i : nat) (x y : Qc)
  : result (Qc * Qc * Qc) :=
  let total := fsum (volume <$> take (S i) e) in
  if Qc_eqb total 0%Qc then Raise ZeroDivisionError
  else Ok (fdiv x total, fdiv y total, total).

(** One iteration of [for i in range(len(e))]. *)
Definition body (e : list solid) (i : nat) (l : locals) : result locals :=
  s ← getitem (e !! i) IndexError;
  let m_x := fmul (cen_x s) (volume s) in
  let m_y := fmul (cen_y s) (volume s) in
  let x := fadd (res_pos_x l) m_x in
  let y := fadd (res_pos_y l) m_y in
  '(x_loc, y_loc, total) ← resultant e i x y;
  let res_loc := AddLine x_loc y_loc total in
  let se_loc := IsPointInSurface x_loc y_loc in
  g ← read_local "s_glob" (s_glob l);
  allow1 ←
    (if g && negb (allow_temp_support l) then
       k ← read_local "s_int" (s_int l);
       Ok (if bool_decide (k + 1 < Z.of_nat i) then true
           else allow_temp_support l)
     else Ok (allow_temp_support l));
  let eq1 := if ne_True se_loc then true else static_equilibrium l in
  let eq2 := if ne_False se_loc && negb allow1 then false else eq1 in
  let grant := ne_False se_loc && allow1 in
  Ok {| s_glob := s_glob l;
        s_int := if grant then Some (Z.of_nat i) else s_int l;
        allow_temp_support := if grant then false else allow1;
        res_pos_x := x;
        res_pos_y := y;
        static_equilibrium := if grant then true else eq2;
        res := Some res_loc |}.

Fixpoint loop (e : list solid) (idx : list nat) (l : locals) : result locals :=
  match idx with
  | [] => Ok l
  | i :: rest => l1 ← body e i l; loop e rest l1
  end.

(** The scan, with the locals it ends in. *)
Definition scan (e : list solid) (allow : bool) : result locals :=
  loop e (seq 0 (length e)) (init allow).

(** [static_equilibrium_check]: [e] is [[support] + elements_breps], the
    built elements followed by the option element. A line identifier
    never compares equal to [False], so [res] is returned as it is. *)
Definition static_equilibrium_check (e : list solid) (allow : bool)
  : result (bool * Z) :=
  l ← scan e allow;
  r ← read_local "res" (res l);
  Ok (static_equilibrium l, r).

(** The window is latched when a grant index has been recorded. *)
Definition latched (l : locals) : bool :=
  match s_int l with Some _ => true | None => false end.

End Scan.

(** A unit-square footprint and a line store that numbers lines by the
    height of the resultant, for concrete runs. *)
Definition unit_square (x y : Qc) : option bool :=
  Some (Qc_leb 0 x && Qc_leb x 1 && Qc_leb 0 y && Qc_leb y 1).
Definition line_id (x y h : Qc) : Z := Qnum (this h).

Definition centred : solid := Solid 1 (qc 1 2) (qc 1 2).

End Equilibrium.

(** ** Methods as store transformers

    A method of an object with store [S] maps the store before the call
    to the store after it and the value returned or exception raised. *)

Definition ST (S A : Type) : Type := S -> S * result A.

#[global] Instance ST_ret {S} : MRet (ST S) := fun _ a st => (st, Ok a).
#[global] Instance ST_bind {S} : MBind (ST S) := fun _ _ f m st =>
  match m st with
  | (st1, Ok a) => f a st1
  | (st1, Raise e) => (st1, Raise e)
  end.

Definition raise {S A} (e : exn) : ST S A := fun st => (st, Raise e).
Definition lift {S A} (r : result A) : ST S A := fun st => (st, r).
Definition get {S} : ST S S := fun st => (st, Ok st).
Definition modify {S} (f : S -> S) : ST S unit := fun st => (f st, Ok tt).
Definition when {S} (b : bool) (m : ST S unit) : ST S unit :=
  if b then m else mret tt.

(** [for x in xs: body(x)] *)
Fixpoint for_each {S A} (xs : list A) (body : A -> ST S unit) : ST S unit :=
  match xs with
  | [] => mret tt
  | x :: rest => _ ← body x; for_each rest body
  end.

(** ** The geometry kernel

    [compas.geometry] and the CAD host are external collaborators. Their
    types stay abstract and their operations are the fields of a class;
    nothing below depends on how an instance computes them. Angles are in
    degrees (the argument of [math.radians]). *)

(** A distance reported by a k-d tree query; [Infinity] is the
    [float('inf')] of a query that found no sample. *)
Inductive distance : Type :=
  | Finite (q : Qc)
  | Infinity.

(** [d < q] and [d > q] on floats. *)
Definition dist_ltb (d : distance) (q : Qc) : bool :=
  match d with Finite x => Qc_ltb x q | Infinity => false end.
Definition dist_gtb (d : distance) (q : Qc) : bool :=
  match d with Finite x => Qc_ltb q x | Infinity => true end.

(** One entry [(xyz, label, distance)] of a nearest-neighbour answer. *)
Record nnbr (P L : Type) : Type := Nnbr {
  nn_xyz : option P;
  nn_label : option L;
  nn_dist : distance
}.
Arguments Nnbr {P L} _ _ _.
Arguments nn_xyz {P L} _.
Arguments nn_label {P L} _.
Arguments nn_dist {P L} _.

Class Kernel : Type := {
  Point : Type;
  Vector : Type;
  Frame : Type;
  Transformation : Type;
  Frame_worldXY : Frame;
  frame_point : Frame -> Point;
  frame_xaxis : Frame -> Vector;
  frame_yaxis : Frame -> Vector;
  frame_zaxis : Frame -> Vector;
  point_xyz : Point -> Qc * Qc * Qc;
  vector_neg : Vector -> Vector;
  vector_scale : Vector -> Qc -> Vector;
  Rotation_from_axis_and_angle : Vector -> Qc -> Point -> Transformation;
  Translation_from_vector : Vector -> Transformation;
  Transformation_from_change_of_basis : Frame -> Frame -> Transformation;
  transformation_mul : Transformation -> Transformation -> Transformation;
  point_transformed : Point -> Transformation -> Point;
  frame_transformed : Frame -> Transformation -> Frame;
  distance_point_point : Point -> Point -> Qc;
  (** [Element.connector_frame_k] of an element whose pose is the frame. *)
  connector_frame : positive -> Frame -> Frame;
  (** [KDTree(objects).nearest_neighbor(point)] and
      [KDTree(objects).nearest_neighbors(point, number, distance_sort=True)]
      over labelled points. *)
  KDTree_nearest_neighbor :
    forall L : Type, list (Point * L) -> Point -> nnbr Point L;
  KDTree_nearest_neighbors :
    forall L : Type, list (Point * L) -> Point -> nat -> list (nnbr Point L)
}.
Arguments KDTree_nearest_neighbor {_ L} _ _.
Arguments KDTree_nearest_neighbors {_ L} _ _ _.

(** ** The assembly ([Assembly]) *)

Module Assembly.

Section WithKernel.
Context `{K : Kernel} `{Rd : Rounding}.

(** [Element] objects live in a heap and are named by reference: the
    nodes of the network, [current_elem], [previous_elem] and
    [my_new_elem] may name the same object. *)
Definition ref : Type := nat.

(** Attribute values of nodes and edges. *)
Inductive value : Type :=
  | VNone
  | VBool (b : bool)
  | VStr (s : string)
  | VNum (q : Qc)
  | VFrame (f : Frame)
  | VElem (r : ref).

(** Modelled from the spec: the class [Element] of [assembly/element.py],
    which is not among the sources. Following the data model, an element
    has a pose and two connectors, each open ([true]) or closed; its
    connector frames are derived from the pose; [copy] makes a new object
    with the same attributes and [transform] moves the pose. *)
Record Element : Type := mkElement {
  frame : Frame;
  connector_1_state : bool;
  connector_2_state : bool
}.

Definition connector_frame_1 (e : Element) : Frame :=
  connector_frame 1%positive (frame e).
Definition connector_frame_2 (e : Element) : Frame :=
  connector_frame 2%positive (frame e).

(** The store: the [compas] network of the assembly ([node] and, flattened
    to pairs, [edge[u][v]]; [_max_node]), the heap of elements, the dict
    object that is the default of [add_element]'s [attr_dict], and
    [self.globals]. The [adjacency] dict of the network, which no method
    below reads, is left out. *)
Record state : Type := mkState {
  node : gmap Z (gmap string value);
  edge : gmap (Z * Z) (gmap string value);
  max_node : Z;
  heap : gmap ref Element;
  attr_dict_default : gmap string value;
  globals : gmap string Qc
}.

Definition set_node (f : gmap Z (gmap string value) -> gmap Z (gmap string value))
  (st : state) : state :=
  mkState (f (node st)) (edge st) (max_node st) (heap st)
          (attr_dict_default st) (globals st).
Definition set_edge (f : gmap (Z * Z) (gmap string value) -> gmap (Z * Z) (gmap string value))
  (st : state) : state :=
  mkState (node st) (f (edge st)) (max_node st) (heap st)
          (attr_dict_default st) (globals st).
Definition set_max_node (m : Z) (st : state) : state :=
  mkState (node st) (edge st) m (heap st)
          (attr_dict_default st) (globals st).
Definition set_heap (f : gmap ref Element -> gmap ref Element)
  (st : state) : state :=
  mkState (node st) (edge st) (max_node st) (f (heap st))
          (attr_dict_default st) (globals st).
Definition set_attr_dict_default (d : gmap string value) (st : state) : state :=
  mkState (node st) (edge st) (max_node st) (heap st) d (globals st).

Abbreviation M := (ST state).

(** Attribute access on an element object. *)
Definition deref (r : ref) : M Element :=
  st ← get; lift (getitem (heap st !! r) AttributeError).
Definition set_connector_1_state (r : ref) (b : bool) : M unit :=
  modify (set_heap (alter (fun e =>
    mkElement (frame e) b (connector_2_state e)) r)).
Definition set_connector_2_state (r : ref) (b : bool) : M unit :=
  modify (set_heap (alter (fun e =>
    mkElement (frame e) (connector_1_state e) b) r)).

(** [Element.copy] and [Element.transform]. *)
Definition copy (r : ref) : M ref :=
  e ← deref r;
  st ← get;
  let r' := fresh (dom (heap st)) in
  _ ← modify (set_heap (insert r' e));
  mret r'.
Definition transform (r : ref) (T : Transformation) : M unit :=
  modify (set_heap (alter (fun e =>
    mkElement (frame_transformed (frame e) T)
              (connector_1_state e) (connector_2_state e)) r)).

(** *** The network ([compas.datastructures.Network]) *)

Definition number_of_nodes : M Z :=
  st ← get; mret (Z.of_nat (size (node st))).
Definition number_of_edges : M Z :=
  st ← get; mret (Z.of_nat (size (edge st))).

(** [Graph.add_node(key, attr_dict, **kwattr)]. The dict [attr] that is
    written to the node is [attr_dict] itself whenever [attr_dict] is not
    empty ([attr = attr_dict or {}]), so [attr.update(kwattr)] changes
    the caller's object; the content of [attr] is returned with the key
    for the caller to account for that. *)
Definition add_node (key : option Z) (attr_dict kwattr : gmap string value)
  : M (Z * gmap string value) :=
  st ← get;
  let k := match key with None => max_node st + 1 | Some k => k end in
  _ ← when (bool_decide (max_node st < k)) (modify (set_max_node k));
  _ ← when (bool_decide (node st !! k = None))
        (modify (set_node (insert k ∅)));
  let attr := kwattr ∪ attr_dict in
  _ ← modify (set_node (alter (fun old => attr ∪ old) k));
  mret (k, attr).

(** [Graph.add_edge(u, v, **kwattr)]. *)
Definition add_edge (u v : Z) (kwattr : gmap string value) : M (Z * Z) :=
  st ← get;
  _ ← when (bool_decide (node st !! u = None))
        (_ ← add_node (Some u) ∅ ∅; mret tt);
  st ← get;
  _ ← when (bool_decide (node st !! v = None))
        (_ ← add_node (Some v) ∅ ∅; mret tt);
  st ← get;
  let data := default ∅ (edge st !! (u, v)) in
  _ ← modify (set_edge (insert (u, v) (kwattr ∪ data)));
  mret (u, v).

(** [self.network.node[key]['element']] *)
Definition node_element (key : Z) : M ref :=
  st ← get;
  attrs ← lift (getitem (node st !! key) KeyError);
  v ← lift (getitem (attrs !! "element") KeyError);
  match v with
  | VElem r => mret r
  | _ => raise AttributeError
  end.

(** [self.globals[name]] *)
Definition global (name : string) : M Qc :=
  st ← get; lift (getitem (globals st !! name) KeyError).

(** *** [Assembly.add_element]

    [attr_dict = None] stands for a call that leaves the parameter to its
    default, the one dict object created when the method was defined. *)
Definition add_element (element : ref) (key : option Z)
    (attr_dict : option (gmap string value)) (kwattr : gmap string value)
  : M Z :=
  st ← get;
  let d := kwattr ∪ default (attr_dict_default st) attr_dict in
  _ ← when (bool_decide (attr_dict = None))
        (modify (set_attr_dict_default d));
  el ← deref element;
  let '(x, y, z) := point_xyz (frame_point (frame el)) in
  '(k, attr) ← add_node key d
     (<["x" := VNum x]> (<["y" := VNum y]> (<["z" := VNum z]>
        {["element" := VElem element]})));
  _ ← when (bool_decide (attr_dict = None) && negb (bool_decide (size d = 0%nat)))
        (modify (set_attr_dict_default attr));
  mret k.

(** [list(self.network.nodes_where({'element': elem}))]; elements compare
    by identity. *)
Definition is_element (r : ref) (attrs : gmap string value) : bool :=
  match attrs !! "element" with
  | Some (VElem r') => bool_decide (r' = r)
  | _ => false
  end.
Definition nodes_where_element (r : ref) : M (list Z) :=
  st ← get;
  mret (fst <$> filter (fun kv => is_element r (snd kv) = true)
                       (map_to_list (node st))).

(** *** [Assembly.update_connectors_states]

    [keys] is [[key_index[key] for key in nodes()]], the list
    [0 .. n-1] for [n] nodes, so [keys[-2]] is [n-2] and needs [n >= 2].
    The connector states are read from the objects at each [if], after
    the assignments of the statements before. *)
Definition update_connectors_states (current_key : Z) (flip : string)
    (my_new_elem : ref) (unit_index : Z) : M unit :=
  current_elem ← node_element current_key;
  n ← number_of_nodes;
  _ ← when (bool_decide (n < 2)) (raise IndexError);
  previous_elem ← node_element (n - 2);
  when (bool_decide (unit_index = 1))
    (ce ← deref current_elem;
     _ ← when (connector_2_state ce)
       (_ ← when (String.eqb flip "AA")
              (_ ← set_connector_2_state previous_elem false;
               set_connector_2_state my_new_elem false);
        _ ← when (String.eqb flip "AB")
              (_ ← set_connector_2_state previous_elem false;
               set_connector_1_state my_new_elem false);
        _ ← when (String.eqb flip "BA")
              (_ ← set_connector_1_state previous_elem false;
               set_connector_2_state my_new_elem false);
        when (String.eqb flip "BB")
              (_ ← set_connector_1_state previous_elem false;
               set_connector_1_state my_new_elem false));
     ce ← deref current_elem;
     when (connector_1_state ce)
       (_ ← when (String.eqb flip "AA")
              (_ ← set_connector_1_state previous_elem false;
               set_connector_1_state my_new_elem false);
        _ ← when (String.eqb flip "AB")
              (_ ← set_connector_1_state previous_elem false;
               set_connector_2_state my_new_elem false);
        _ ← when (String.eqb flip "BA")
              (_ ← set_connector_2_state previous_elem false;
               set_connector_1_state my_new_elem false);
        when (String.eqb flip "BB")
              (_ ← set_connector_2_state previous_elem false;
               set_connector_2_state my_new_elem false))).

(** *** [Assembly.add_rf_unit_element] *)

(** The four [if flip == ...] statements; [a] and [b] stay unbound when
    none applies. *)
Definition flip_signs (flip : string) (c : Z) : option Z * option Z :=
  let ab := (None, None) in
  let ab := if String.eqb flip "AA" then (Some 0, Some 0) else ab in
  let ab := if String.eqb flip "AB" then (Some 0, Some (1 * c)) else ab in
  let ab := if String.eqb flip "BA" then (Some (1 * c), Some 0) else ab in
  let ab := if String.eqb flip "BB" then (Some (1 * c), Some (1 * c)) else ab in
  ab.

Definition Qc_of_Z (z : Z) : Qc := Q2Qc (inject_Z z).

(** "Find the open connector of the current element": connector 1 when
    it is open, connector 2 in every other case, with the sign [c]. *)
Definition find_open_connector (ce : Element) : Frame * Z :=
  if connector_1_state ce then (connector_frame_1 ce, -1)
  else (connector_frame_2 ce, 1).

Definition add_rf_unit_element (current_key : Z) (flip : string)
    (angle shift_value : Qc) (placed_by : string) (on_ground : bool)
    (unit_index : Z) (frame_id frame_est : value) : M ref :=
  radius ← global "rod_radius";
  length ← global "rod_length";
  rf_unit_radius ← global "rf_unit_radius";
  rf_unit_offset ← global "rf_unit_offset";
  N ← number_of_nodes;
  current_elem ← node_element current_key;
  ce ← deref current_elem;
  let '(current_connector_frame, c) := find_open_connector ce in
  let '(a, b) := flip_signs flip c in
  new_elem ← copy current_elem;
  ne ← deref new_elem;
  let half :=
    fdiv (fadd (fsub length rf_unit_radius) rf_unit_offset) (qc 2 1) in
  '(R1, T1) ←
    (if String.eqb placed_by "robot" then
       a ← lift (read_local "a" a);
       mret (Rotation_from_axis_and_angle
               (frame_zaxis current_connector_frame) (qc 120 1)
               (frame_point current_connector_frame),
             Translation_from_vector
               (vector_scale
                  (vector_scale (vector_neg (frame_xaxis (frame ne)))
                                (Qc_of_Z a)) half))
     else
       b ← lift (read_local "b" b);
       mret (Rotation_from_axis_and_angle
               (frame_zaxis current_connector_frame) (qc 240 1)
               (frame_point current_connector_frame),
             Translation_from_vector
               (vector_scale
                  (vector_scale (vector_neg (frame_xaxis (frame ne)))
                                (Qc_of_Z b)) half)));
  _ ← transform new_elem (transformation_mul R1 T1);
  (* Define a desired rotation around the parent element *)
  ce ← deref current_elem;
  let T_point := Translation_from_vector (frame_xaxis (frame ce)) in
  let new_point := point_transformed (frame_point (frame ce)) T_point in
  let R2 := Rotation_from_axis_and_angle
              (frame_xaxis (frame ce)) angle new_point in
  (* Define a desired shift value along the parent element *)
  let T3 := Translation_from_vector
              (vector_scale (frame_xaxis (frame ce)) shift_value) in
  (* Transform the new element *)
  _ ← transform new_elem (transformation_mul R2 T3);
  _ ← add_element new_elem None None
        (<["placed_by" := VStr placed_by]>
           (<["on_ground" := VBool on_ground]>
              (<["frame_id" := frame_id]>
                 (<["frame_est" := frame_est]>
                    {["is_built" := VBool true]}))));
  (* Add edges *)
  _ ← (if bool_decide (unit_index = 0) then
         _ ← add_edge current_key N {["edge_to" := VStr "neighbour"]};
         mret tt
       else
         _ ← add_edge (N - 1) N {["edge_to" := VStr "parent"]};
         _ ← add_edge current_key N {["edge_to" := VStr "parent"]};
         mret tt);
  _ ← update_connectors_states current_key flip new_elem unit_index;
  _ ← when (bool_decide (unit_index = 1))
        (ce ← deref current_elem;
         if connector_1_state ce
         then set_connector_1_state current_elem false
         else set_connector_2_state current_elem false);
  mret new_elem.

(** *** [Assembly.close_rf_unit]

    The loop [for i in range(2)] unrolled; the result is
    [(keys_human, keys_robot)]. *)
Definition close_rf_unit (current_key : Z) (flip : string)
    (angle shift_value : Qc) (on_ground : bool)
    (added_frame_id frame_est : value) : M (list Z * list Z) :=
  my_new_elem ← add_rf_unit_element current_key flip angle shift_value
                   "robot" false 0 VNone VNone;
  keys_robot ← nodes_where_element my_new_elem;
  my_new_elem ← add_rf_unit_element current_key flip angle shift_value
                   "human" false 1 added_frame_id frame_est;
  keys_human ← nodes_where_element my_new_elem;
  mret (keys_human, keys_robot).

(** *** [Assembly.range_filter] *)

(** The literals [1.3] and [0.75]. *)
Definition ur_range_max : Qc := fl (qc 13 10).
Definition ur_range_min : Qc := fl (qc 3 4).

Definition out_of_range (d : Qc) : bool :=
  negb (Qc_leb ur_range_min d && Qc_leb d ur_range_max).

Definition range_filter_element (base_frame : Frame) (element : ref)
  : M unit :=
  e ← deref element;
  if connector_1_state e then
    let d := distance_point_point (frame_point (connector_frame_1 e))
                                  (frame_point base_frame) in
    when (out_of_range d) (set_connector_1_state element false)
  else if connector_2_state e then
    let d := distance_point_point (frame_point (connector_frame_2 e))
                                  (frame_point base_frame) in
    when (out_of_range d) (set_connector_2_state element false)
  else mret tt.

(** [elements()] is a generator: the element of a node is fetched when
    the loop reaches it. *)
Definition range_filter (base_frame : Frame) : M unit :=
  st ← get;
  for_each (fst <$> map_to_list (node st))
    (fun k => element ← node_element k;
              range_filter_element base_frame element).

(** *** Sessions *)

(** The operations on connectors that a session applies to an assembly. *)
Inductive op : Type :=
  | Op_add_rf_unit_element (current_key : Z) (flip : string)
      (angle shift_value : Qc) (placed_by : string) (on_ground : bool)
      (unit_index : Z) (frame_id frame_est : value)
  | Op_close_rf_unit (current_key : Z) (flip : string)
      (angle shift_value : Qc) (on_ground : bool)
      (added_frame_id frame_est : value)
  | Op_update_connectors_states (current_key : Z) (flip : string)
      (my_new_elem : ref) (unit_index : Z)
  | Op_range_filter (base_frame : Frame).

(** One operation; an exception is caught by the caller and the session
    goes on from the store the operation left. *)
Definition run_op (o : op) (st : state) : state :=
  match o with
  | Op_add_rf_unit_element k f a s p g u fi fe =>
      fst (add_rf_unit_element k f a s p g u fi fe st)
  | Op_close_rf_unit k f a s g fi fe =>
      fst (close_rf_unit k f a s g fi fe st)
  | Op_update_connectors_states k f r u =>
      fst (update_connectors_states k f r u st)
  | Op_range_filter b => fst (range_filter b st)
  end.

Definition run (ops : list op) (st : state) : state :=
  foldl (fun s o => run_op o s) st ops.

(** The empty assembly of [Assembly()] with the given [globals]. *)
Definition empty (g : gmap string Qc) : state :=
  mkState ∅ ∅ (-1) ∅ ∅ g.

End WithKernel.

End Assembly.

(** ** The base-pose map ([BaseMap]) and the reachability dataset *)

Module BaseMap.

Section WithKernel.
Context `{K : Kernel} `{Rd : Rounding}.

(** [WsSphere] and [ReuleauxReachability] of [robot/reuleaux.py]. *)
Record WsSphere : Type := mkWsSphere {
  point : Point;
  ri : Qc;
  poses : list Frame
}.

Record ReuleauxReachability : Type := mkReuleaux {
  spheres : list WsSphere;
  resolution : Qc
}.

(** The dict [reuleaux_data] that a query builds. *)
Record reuleaux_data : Type := mkData {
  goal_points : list Point;
  collision_points : option (list Point);
  reuleaux_points : list Point;
  goal_reuleaux_index : list Qc;
  collision_reuleaux_index : list Qc;
  reachable : list bool
}.

Inductive value : Type :=
  | VNum (q : Qc)
  | VFrame (f : Frame)
  | VPoint (p : Point)
  | VVector (v : Vector)
  | VData (d : reuleaux_data).

(** The network [self.base_map]: its node dict and [_max_node]. *)
Record state : Type := mkState {
  node : gmap Z (gmap string value);
  max_node : Z
}.

Abbreviation M := (ST state).

(** [data['frame']] of a node view: the node's own attribute or the
    default [Frame.worldXY()]. *)
Definition node_frame (attrs : gmap string value) : result Frame :=
  match attrs !! "frame" with
  | None => Ok Frame_worldXY
  | Some (VFrame f) => Ok f
  | Some _ => Raise AttributeError
  end.

(** The property [BaseMap.kdtree], as the objects that the tree it
    returns holds. The loop collects the labelled points of the nodes;
    then [kdtree = KDTree()] makes an empty tree, and
    [kdtree.build(objects)] returns the root of a tree of the objects,
    which the property drops: the tree returned holds no object. *)
Definition kdtree : M (list (Point * Z)) :=
  st ← get;
  objects ← lift (mapM (fun kv : Z * gmap string value =>
                    f ← node_frame (snd kv); Ok (frame_point f, fst kv))
                  (map_to_list (node st)));
  mret [].

(** [KDTree.nearest_neighbor] on a tree that holds the given objects: a
    tree without objects answers [(None, None, inf)]. *)
Definition nearest_neighbor {L : Type} (objects : list (Point * L))
    (point : Point) : nnbr Point L :=
  match objects with
  | [] => Nnbr None None Infinity
  | _ => KDTree_nearest_neighbor objects point
  end.

(** [Graph.add_node] with keyword attributes and a fresh key. *)
Definition add_node (kwattr : gmap string value) : M Z :=
  st ← get;
  let k := max_node st + 1 in
  _ ← modify (fun st =>
        mkState (<[k := kwattr ∪ default ∅ (node st !! k)]> (node st)) k);
  mret k.

(** [BaseMap.add_pose(pose, **kwargs)] *)
Definition add_pose (pose : Frame) (kwargs : gmap string value) : M Z :=
  add_node (<["frame" := VFrame pose]>
             (<["point" := VPoint (frame_point pose)]>
               (<["xaxis" := VVector (frame_xaxis pose)]>
                 (<["yaxis" := VVector (frame_yaxis pose)]> kwargs)))).

(** [Graph.node_attribute(key, name, value)] *)
Definition node_attribute (key : Z) (name : string) (v : value) : M unit :=
  st ← get;
  _ ← lift (getitem (node st !! key) KeyError);
  modify (fun st => mkState (alter (insert name v) key (node st)) (max_node st)).

(** [ReuleauxReachability.get_kdtree_transformed]: the transformed sample
    points, labelled by their position in [spheres]. *)
Definition get_kdtree_transformed (reuleaux : ReuleauxReachability)
    (T : Transformation) : list (Point * nat) * list Point :=
  let points := (fun s => point_transformed (point s) T) <$> spheres reuleaux in
  (zip points (seq 0 (length points)), points).

(** [statistics.mean]: the exact sum of the data divided by their
    number, converted to a float once. *)
Definition Qc_of_nat (n : nat) : Qc := Q2Qc (inject_Z (Z.of_nat n)).
Definition mean (l : list Qc) : result Qc :=
  match l with
  | [] => Raise StatisticsError
  | _ => Ok (fl (Qc_sum l / Qc_of_nat (length l))%Qc)
  end.

(** The radius [reuleaux.resolution*1.415] of the scoring rule: the
    float product of the resolution and the literal. *)
Definition radius (reuleaux : ReuleauxReachability) : Qc :=
  fmul (resolution reuleaux) (fl (qc 1415 1000)).

(** The test [d[0][2] < r and d[1][2] < r]; [d[1]] is read only when the
    first comparison holds. *)
Definition both_within (reuleaux : ReuleauxReachability)
    (d : list (nnbr Point nat)) : result bool :=
  d0 ← getitem (d !! 0%nat) IndexError;
  if dist_ltb (nn_dist d0) (radius reuleaux) then
    d1 ← getitem (d !! 1%nat) IndexError;
    Ok (dist_ltb (nn_dist d1) (radius reuleaux))
  else Ok false.

(** [reuleaux.spheres[d[0][1]].ri] *)
Definition nearest_ri (reuleaux : ReuleauxReachability)
    (d : list (nnbr Point nat)) : result Qc :=
  d0 ← getitem (d !! 0%nat) IndexError;
  label ← getitem (nn_label d0) TypeError;
  s ← getitem (spheres reuleaux !! label) IndexError;
  Ok (ri s).

(** The body of the loop over the goal points: the pair
    [(goal_reuleaux_index, reachable)] of [eval_data]. *)
Definition score_goal_point (reuleaux : ReuleauxReachability)
    (d : list (nnbr Point nat)) : result (Qc * bool) :=
  w ← both_within reuleaux d;
  if w : bool then (point_ri ← nearest_ri reuleaux d; Ok (point_ri, true))
  else Ok (0%Qc, false).

(** The body of the loop over the collision points. *)
Definition score_collision_point (reuleaux : ReuleauxReachability)
    (d : list (nnbr Point nat)) : result Qc :=
  w ← both_within reuleaux d;
  if w : bool then nearest_ri reuleaux d else Ok 0%Qc.

(** Lines 83-88: the aggregate [ri_mean] from the two index lists;
    [collision = None] when no collision point cloud was passed. *)
Definition ri_mean (goal : list Qc) (collision : option (list Qc))
  : result Qc :=
  goal_ri_mean ← mean goal;
  match collision with
  | Some coll =>
      collision_ri_mean ← mean coll;
      mean (replicate (length goal) goal_ri_mean ++
            replicate (length coll) (fmul collision_ri_mean (qc (-1) 1)))
  | None => Ok goal_ri_mean
  end.

(** The aggregate as the specification words it: every goal index and the
    negation of every collision index, averaged with equal weight per
    point. *)
Definition ri_mean_reference (goal coll : list Qc) : Qc :=
  ((Qc_sum goal - Qc_sum coll) / Qc_of_nat (length goal + length coll))%Qc.

Definition resolution_error : exn :=
  ValueError "ReuleauxReachability instance has resolution == 0.0".

(** *** [BaseMap.get_reuleaux_index_by_base_pose] *)
Definition get_reuleaux_index_by_base_pose (pose : Frame)
    (reuleaux : ReuleauxReachability) (goal_pointcloud : list Point)
    (collision_pointcloud : option (list Point))
  : M (Z * reuleaux_data) :=
  if Qc_eqb (resolution reuleaux) 0%Qc then raise resolution_error
  else
    objects ← kdtree;
    let nearest := nearest_neighbor objects (frame_point pose) in
    let id := nn_label nearest in
    let distance := nn_dist nearest in
    let T := Transformation_from_change_of_basis pose Frame_worldXY in
    let '(tree, reuleaux_points) := get_kdtree_transformed reuleaux T in
    let goal_data :=
      (fun pt => KDTree_nearest_neighbors tree pt 2) <$> goal_pointcloud in
    goal_scores ← lift (mapM (score_goal_point reuleaux) goal_data);
    collision_scores ← lift
      match collision_pointcloud with
      | Some pts =>
          mapM (score_collision_point reuleaux)
               ((fun pt => KDTree_nearest_neighbors tree pt 2) <$> pts)
      | None => Ok []
      end;
    let data := mkData goal_pointcloud collision_pointcloud reuleaux_points
                  (fst <$> goal_scores) collision_scores
                  (snd <$> goal_scores) in
    m ← lift (ri_mean (goal_reuleaux_index data)
                (match collision_pointcloud with
                 | Some _ => Some (collision_reuleaux_index data)
                 | None => None
                 end));
    if dist_gtb distance (fl (qc 1 100)) then
      id ← add_pose pose (<["mean_reuleaux_index" := VNum m]>
                            {["reuleaux_data" := VData data]});
      mret (id, data)
    else
      id ← lift (getitem id KeyError);
      _ ← node_attribute id "mean_reuleaux_index" (VNum m);
      _ ← node_attribute id "reuleaux_data" (VData data);
      mret (id, data).

End WithKernel.

End BaseMap.
(** ** The vocabulary of the properties *)

Module Contracts.
Import Assembly.

(** The four flip codes. *)
Definition valid_flip (flip : string) : bool :=
  String.eqb flip "AA" || String.eqb flip "AB"
  || String.eqb flip "BA" || String.eqb flip "BB".

Section WithKernel.
Context `{K : Kernel} `{Rd : Rounding}.

(** [closed_stay st st']: every element object of [st] is still there in
    [st'], and none of its connectors is open in [st'] unless it was open
    in [st]. *)
Definition closed_stay (st st' : state) : Prop :=
  forall r e, heap st !! r = Some e ->
    exists e', heap st' !! r = Some e'
      /\ (connector_1_state e' = true -> connector_1_state e = true)
      /\ (connector_2_state e' = true -> connector_2_state e = true).

(** A method keeps closed connectors closed, whether it returns or
    raises. *)
Definition keeps_closed {A} (m : ST state A) : Prop :=
  forall st, closed_stay st (fst (m st)).

(** A method that only reads returns the store it was given. *)
Definition reads {A} (m : ST state A) : Prop := forall st, fst (m st) = st.

(** The exceptions of a placement that stops before it touches the
    graph: a failed lookup, or an unbound [a] or [b]. *)
Definition early_exn (e : exn) : Prop :=
  e = KeyError \/ e = AttributeError
  \/ e = UnboundLocalError "a" \/ e = UnboundLocalError "b".

(** The outcome of a call that raised such an exception and left the
    nodes and the edges of [st] as they were. *)
Definition rejected (st : state) (out : state * result ref) : Prop :=
  (exists e, snd out = Raise e /\ early_exn e)
  /\ node (fst out) = node st /\ edge (fst out) = edge st.

(** [st'] differs from [st] in attributes of the element objects only. *)
Definition heap_update (st st' : state) : Prop :=
  node st' = node st /\ edge st' = edge st /\ max_node st' = max_node st
  /\ attr_dict_default st' = attr_dict_default st
  /\ globals st' = globals st
  /\ dom (heap st') = dom (heap st).

(** From a store with nodes [nd] and a live object [cur], the method
    returns a value that satisfies [Q] and has only updated element
    attributes. *)
Definition settles (nd : gmap Z (gmap string value)) (cur : ref) {A}
    (m : ST state A) (Q : A -> Prop) : Prop :=
  forall st, node st = nd -> is_Some (heap st !! cur) ->
    exists st' a, m st = (st', Ok a) /\ heap_update st st' /\ Q a.

(** An assembly as [add_element] with default keys builds it: the keys
    are [0 .. N-1] in build order, every node holds a live element, the
    edges join existing nodes, and the four globals of the rod unit are
    set. *)
Record wf (st : state) : Prop := mkWf {
  wf_keys : forall k, is_Some (node st !! k) <->
                      0 <= k < Z.of_nat (size (node st));
  wf_max : max_node st = Z.of_nat (size (node st)) - 1;
  wf_elements : forall k attrs, node st !! k = Some attrs ->
      exists r, attrs !! "element" = Some (VElem r) /\ is_Some (heap st !! r);
  wf_edges : forall u v, is_Some (edge st !! (u, v)) ->
      is_Some (node st !! u) /\ is_Some (node st !! v);
  wf_globals : forall n,
      n = "rod_radius" \/ n = "rod_length"
      \/ n = "rf_unit_radius" \/ n = "rf_unit_offset" ->
      is_Some (globals st !! n)
}.

(** The attributes that [add_element] sets itself on every node. *)
Definition own_attr (n : string) : bool :=
  String.eqb n "x" || String.eqb n "y" || String.eqb n "z"
  || String.eqb n "element".

(** The element of node [k], when the node exists and holds one. *)
Definition element_at (st : state) (k : Z) : option Element :=
  attrs ← node st !! k;
  v ← attrs !! "element";
  match v with VElem r => heap st !! r | _ => None end.

(** The element of node [k] has at least one open connector. *)
Definition has_open_connector (st : state) (k : Z) : bool :=
  match element_at st k with
  | Some e => connector_1_state e || connector_2_state e
  | None => false
  end.

End WithKernel.

End Contracts.

Module ScoringContracts.

(** [d <= r * sqrt 2] for a distance [d] and a radius [r >= 0], stated on
    the squares: [0 <= d] and [d^2 <= 2 r^2]. *)
Definition within_sqrt2 (d : distance) (r : Qc) : bool :=
  match d with
  | Finite x => Qc_leb 0 x && Qc_leb (x * x) (qc 2 1 * (r * r))
  | Infinity => false
  end.

(** [d > r * sqrt 2] for [r >= 0]. *)
Definition beyond_sqrt2 (d : distance) (r : Qc) : bool :=
  match d with
  | Finite x => Qc_leb 0 x && Qc_ltb (qc 2 1 * (r * r)) (x * x)
  | Infinity => true
  end.

End ScoringContracts.

(** A kernel in which every geometric object is trivial, for concrete
    runs of the graph and connector logic. *)
#[local] Instance unit_kernel : Kernel := {|
  Point := unit; Vector := unit; Frame := unit; Transformation := unit;
  Frame_worldXY := tt;
  frame_point := fun _ => tt;
  frame_xaxis := fun _ => tt;
  frame_yaxis := fun _ => tt;
  frame_zaxis := fun _ => tt;
  point_xyz := fun _ => (0%Qc, 0%Qc, 0%Qc);
  vector_neg := fun _ => tt;
  vector_scale := fun _ _ => tt;
  Rotation_from_axis_and_angle := fun _ _ _ => tt;
  Translation_from_vector := fun _ => tt;
  Transformation_from_change_of_basis := fun _ _ => tt;
  transformation_mul := fun _ _ => tt;
  point_transformed := fun _ _ => tt;
  frame_transformed := fun _ _ => tt;
  distance_point_point := fun _ _ => 0%Qc;
  connector_frame := fun _ _ => tt;
  KDTree_nearest_neighbor := fun L objs _ =>
    match objs with
    | [] => Nnbr None None Infinity
    | (p, l) :: _ => Nnbr (Some p) (Some l) (Finite 0%Qc)
    end;
  KDTree_nearest_neighbors := fun L objs _ n =>
    (fun '(p, l) => Nnbr (Some p) (Some l) (Finite 0%Qc)) <$> take n objs
|}.

(** Concrete assemblies over the trivial kernel: the globals of a rod
    unit, and the assembly that [add_element] makes of one element with
    the given connector states. *)
Definition example_globals : gmap string Qc :=
  <["rod_radius" := qc 1 100]> (<["rod_length" := qc 1 1]>
    (<["rf_unit_radius" := qc 1 10]> {["rf_unit_offset" := qc 1 50]})).

Definition unit_element (c1 c2 : bool) : @Assembly.Element unit_kernel :=
  @Assembly.mkElement unit_kernel tt c1 c2.

(** [Assembly()] next to element objects that are in no node yet. *)
Definition loose_elements (h : gmap Assembly.ref (@Assembly.Element unit_kernel))
  : @Assembly.state unit_kernel :=
  Assembly.mkState ∅ ∅ (-1) h ∅ example_globals.

Definition one_element (c1 c2 : bool) : @Assembly.state unit_kernel :=
  fst (Assembly.add_element 0%nat None None ∅
         (loose_elements {[0%nat := unit_element c1 c2]})).

(** An assembly whose only node was added under the explicit key 5. *)
Definition sparse_keys : @Assembly.state unit_kernel :=
  fst (Assembly.add_element 0%nat (Some 5) None ∅
         (loose_elements {[0%nat := unit_element true true]})).

(** A dataset of two samples with resolution 1. *)
Definition two_spheres : @BaseMap.ReuleauxReachability unit_kernel :=
  BaseMap.mkReuleaux
    [BaseMap.mkWsSphere tt (qc 7 1) []; BaseMap.mkWsSphere tt (qc 3 1) []]
    (qc 1 1).


(** ** The running resultant of the scan, in closed form *)

Module EquilibriumSpec.
Import Equilibrium.

Section WithRounding.
Context `{Rd : Rounding}.

(** [sum(vol[:(i+1)])] *)
Definition total_volume (e : list solid) (i : nat) : Qc :=
  fsum (volume <$> take (S i) e).

(** The moments accumulated over the first [n] solids, each product and
    each addition rounded as the loop does: the value of [res_pos_x] and
    [res_pos_y] when the loop reaches the index [n]. *)
Definition moment_x (e : list solid) (n : nat) : Qc :=
  foldl (fun acc s => fadd acc (fmul (cen_x s) (volume s))) 0%Qc (take n e).
Definition moment_y (e : list solid) (n : nat) : Qc :=
  foldl (fun acc s => fadd acc (fmul (cen_y s) (volume s))) 0%Qc (take n e).

(** The point [(res_pos_x_loc, res_pos_y_loc)] of step [i], as the loop
    computes it. *)
Definition resultant_x (e : list solid) (i : nat) : Qc :=
  fdiv (moment_x e (S i)) (total_volume e i).
Definition resultant_y (e : list solid) (i : nat) : Qc :=
  fdiv (moment_y e (S i)) (total_volume e i).

(** No prefix of the solids has total volume 0. *)
Definition nonzero_volumes (e : list solid) : Prop :=
  forall i, (i < length e)%nat -> total_volume e i <> 0%Qc.

(** The answer of the footprint test at every step of the scan. *)
Definition footprint_always (IsPointInSurface : Qc -> Qc -> option bool)
    (e : list solid) (answer : bool) : Prop :=
  forall i, (i < length e)%nat ->
    IsPointInSurface (resultant_x e i) (resultant_y e i) = Some answer.

(** The line drawn at the last step. *)
Definition last_line (AddLine : Qc -> Qc -> Qc -> Z) (e : list solid) : Z :=
  let i := (length e - 1)%nat in
  AddLine (resultant_x e i) (resultant_y e i) (total_volume e i).

(** What holds of the locals when the loop of a call with
    [allow_temp_support=True] reaches the index [i]: [s_glob] is bound,
    [s_int] is bound whenever the permission is off, the moments are the
    sums so far, and [res] is the line of the step before. *)
Definition reached (AddLine : Qc -> Qc -> Qc -> Z) (e : list solid)
    (i : nat) (l : locals) : Prop :=
  s_glob l = Some true
  /\ (allow_temp_support l = false -> is_Some (s_int l))
  /\ res_pos_x l = moment_x e i
  /\ res_pos_y l = moment_y e i
  /\ res l = match i with
             | O => None
             | S j => Some (AddLine (resultant_x e j) (resultant_y e j)
                                    (total_volume e j))
             end.

(** The permission after the first [if] of the loop body: it is given
    back once the index is more than one past the grant index. *)
Definition reopened (i : nat) (l : locals) : bool :=
  allow_temp_support l
  || match s_int l with
     | Some k => bool_decide (k + 1 < Z.of_nat i)
     | None => false
     end.

End WithRounding.

End EquilibriumSpec.
(** ** More of the assembly: the constructor and the collision validator *)

Module AssemblyMore.
Import Assembly.

Section WithKernel.
Context `{K : Kernel} `{Rd : Rounding}.

(** The store of [Assembly()]: an empty network next to the element
    objects [h] that exist, the shared default dict of [add_element] as
    earlier calls (on any assembly) left it, and the globals. *)
Definition new_assembly (h : gmap ref Element) (d : gmap string value)
    (g : gmap string Qc) : state :=
  mkState ∅ ∅ (-1) h d g.

(** The loop of [Assembly.__init__]:
    [for element in elements: self.add_element(element)]. *)
Definition init_elements (elements : list ref) : ST state unit :=
  for_each elements (fun element =>
    _ ← add_element element None None ∅; mret tt).

(** [Assembly.element(key)] *)
Definition element (key : Z) : ST state ref := node_element key.

(** The keys of the nodes are [0 .. n-1], and [_max_node] is the last. *)
Definition dense (st : state) : Prop :=
  (forall k, is_Some (node st !! k) <-> 0 <= k < Z.of_nat (size (node st)))
  /\ max_node st = Z.of_nat (size (node st)) - 1.

(** *** [Assembly.collision_check] *)

Section Collision.

(** The distance that [gh.CurveProximity] reports for the centre lines of
    two elements. *)
Variable CurveProximity : Element -> Element -> Qc.

(** [distance < self.globals['rod_radius']*2. + tolerance] *)
Definition too_close (radius tolerance : Qc) (a b : Element) : bool :=
  Qc_ltb (CurveProximity a b) (fadd (fmul radius (qc 2 1)) tolerance).

(** The inner loop: one flag per option element is appended to
    [results]. *)
Fixpoint collision_options (elem : Element) (option_elems : list Element)
    (tolerance : Qc) (results : list bool) : ST state (list bool) :=
  match option_elems with
  | [] => mret results
  | option_elem :: rest =>
      radius ← global "rod_radius";
      collision_options elem rest tolerance
        (results ++ [too_close radius tolerance elem option_elem])
  end.

(** The outer loop over [self.elements()]; [collision] is recomputed
    from all the flags so far at the end of every iteration. *)
Fixpoint collision_elements (keys : list Z) (option_elems : list Element)
    (tolerance : Qc) (collision : bool) (results : list bool)
  : ST state (bool * list bool) :=
  match keys with
  | [] => mret (collision, results)
  | key :: rest =>
      r ← node_element key;
      elem ← deref r;
      results ← collision_options elem option_elems tolerance results;
      collision_elements rest option_elems tolerance
        (existsb id results) results
  end.

Definition collision_check (option_elems : list Element) (tolerance : Qc)
  : ST state bool :=
  st ← get;
  '(collision, _) ← collision_elements (fst <$> map_to_list (node st))
                      option_elems tolerance false [];
  mret collision.

(** Some placed element and some option element are too close. *)
Definition some_pair_too_close (st : state) (option_elems : list Element)
    (radius tolerance : Qc) : Prop :=
  exists k elem option_elem,
    Contracts.element_at st k = Some elem
    /\ option_elem ∈ option_elems
    /\ too_close radius tolerance elem option_elem = true.

End Collision.

End WithKernel.

End AssemblyMore.

(** Two rods whose centre lines are 0.015 apart, whatever their poses. *)
Definition example_proximity
    (a b : @Assembly.Element unit_kernel) : Qc := qc 15 1000.

(** ** The range filter, element by element *)

Module RangeSpec.
Import Assembly.

Section WithKernel.
Context `{K : Kernel} `{Rd : Rounding}.

(** The connector frame is within the reach [0.75 .. 1.3] of the base. *)
Definition in_reach (base_frame f : Frame) : bool :=
  negb (out_of_range
          (distance_point_point (frame_point f) (frame_point base_frame))).

(** What one visit of [range_filter] makes of an element: the [if] /
    [elif] looks at connector 1 when it is open, and at connector 2 only
    when connector 1 is closed. *)
Definition filtered (base_frame : Frame) (e : Element) : Element :=
  if connector_1_state e then
    if in_reach base_frame (connector_frame_1 e) then e
    else mkElement (frame e) false (connector_2_state e)
  else if connector_2_state e then
    if in_reach base_frame (connector_frame_2 e) then e
    else mkElement (frame e) (connector_1_state e) false
  else e.

(** What holds of an element after at least one visit, relative to the
    element [e0] before: the pose is the same, connector 1 is open only
    if within reach, and so is connector 2 when connector 1 was closed
    from the start. *)
Definition visited (base_frame : Frame) (e0 e : Element) : Prop :=
  frame e = frame e0
  /\ (connector_1_state e = true ->
      in_reach base_frame (connector_frame_1 e0) = true)
  /\ (connector_1_state e0 = false -> connector_1_state e = false)
  /\ (connector_1_state e0 = false -> connector_2_state e = true ->
      in_reach base_frame (connector_frame_2 e0) = true).

(** Every node holds a live element. *)
Definition holds_elements (st : state) : Prop :=
  forall k, is_Some (node st !! k) -> is_Some (Contracts.element_at st k).

(** The reference that node [k] holds. *)
Definition element_ref (st : state) (k : Z) : option ref :=
  attrs ← node st !! k;
  v ← attrs !! "element";
  match v with VElem r => Some r | _ => None end.

End WithKernel.

End RangeSpec.

(** A kernel with points on a line, for concrete distances: a frame is
    its abscissa, a connector lies one unit (connector 1) or two units
    (connector 2) further, and the distance of two points is the absolute
    difference. *)
Definition Qc_abs (x : Qc) : Qc := if Qc_leb 0 x then x else (- x)%Qc.

Definition line_kernel : Kernel := {|
  Point := Qc; Vector := unit; Frame := Qc; Transformation := unit;
  Frame_worldXY := 0%Qc;
  frame_point := fun f => f;
  frame_xaxis := fun _ => tt;
  frame_yaxis := fun _ => tt;
  frame_zaxis := fun _ => tt;
  point_xyz := fun p => (p, 0%Qc, 0%Qc);
  vector_neg := fun _ => tt;
  vector_scale := fun _ _ => tt;
  Rotation_from_axis_and_angle := fun _ _ _ => tt;
  Translation_from_vector := fun _ => tt;
  Transformation_from_change_of_basis := fun _ _ => tt;
  transformation_mul := fun _ _ => tt;
  point_transformed := fun p _ => p;
  frame_transformed := fun f _ => f;
  distance_point_point := fun p q => Qc_abs (p - q);
  connector_frame := fun k f =>
    match k with 1%positive => (f + 1)%Qc | _ => (f + qc 2 1)%Qc end;
  KDTree_nearest_neighbor := fun L objs _ =>
    match objs with
    | [] => Nnbr None None Infinity
    | (p, l) :: _ => Nnbr (Some p) (Some l) (Finite 0%Qc)
    end;
  KDTree_nearest_neighbors := fun L objs _ n =>
    (fun '(p, l) => Nnbr (Some p) (Some l) (Finite 0%Qc)) <$> take n objs
|}.

(** One rod at the origin, both connectors open, in a one-node assembly;
    seen from a base at the origin, connector 1 (at distance 1) is within
    reach and connector 2 (at distance 2) is not. *)
Definition rod_at_origin : @Assembly.state line_kernel :=
  fst (@Assembly.add_element line_kernel 0%nat None None ∅
         (@Assembly.mkState line_kernel ∅ ∅ (-1)
            {[0%nat := @Assembly.mkElement line_kernel 0%Qc true true]}
            ∅ example_globals)).

(** ** The connector transition in closed form *)

Module TransitionSpec.
Import Assembly.

Definition flip_in (flip a b : string) : bool :=
  String.eqb flip a || String.eqb flip b.

(** Whether the transition assigns [False] to connector 1 / 2 of the
    previous element and of the new element, given the flip code and the
    connector states [c1], [c2] of the current element. Both blocks of
    the method contribute: the one under [connector_2_state] and the one
    under [connector_1_state]. *)
Definition closes_previous_1 (flip : string) (c1 c2 : bool) : bool :=
  (c2 && flip_in flip "BA" "BB") || (c1 && flip_in flip "AA" "AB").
Definition closes_previous_2 (flip : string) (c1 c2 : bool) : bool :=
  (c2 && flip_in flip "AA" "AB") || (c1 && flip_in flip "BA" "BB").
Definition closes_new_1 (flip : string) (c1 c2 : bool) : bool :=
  (c2 && flip_in flip "AB" "BB") || (c1 && flip_in flip "AA" "BA").
Definition closes_new_2 (flip : string) (c1 c2 : bool) : bool :=
  (c2 && flip_in flip "AA" "BA") || (c1 && flip_in flip "AB" "BB").

Section WithKernel.
Context `{K : Kernel} `{Rd : Rounding}.

(** An element after [False] was assigned to the connectors chosen. *)
Definition close_connectors (k1 k2 : bool) (e : Element) : Element :=
  mkElement (frame e) (connector_1_state e && negb k1)
            (connector_2_state e && negb k2).

Definition transition_previous (flip : string) (ce pe : Element) : Element :=
  close_connectors
    (closes_previous_1 flip (connector_1_state ce) (connector_2_state ce))
    (closes_previous_2 flip (connector_1_state ce) (connector_2_state ce)) pe.
Definition transition_new (flip : string) (ce ne : Element) : Element :=
  close_connectors
    (closes_new_1 flip (connector_1_state ce) (connector_2_state ce))
    (closes_new_2 flip (connector_1_state ce) (connector_2_state ce)) ne.

(** The terminal guard of [add_rf_unit_element]: the connector that was
    used on the current element is closed. *)
Definition use_connector (e : Element) : Element :=
  if connector_1_state e
  then mkElement (frame e) false (connector_2_state e)
  else mkElement (frame e) (connector_1_state e) false.

(** The part of [add_rf_unit_element] after the edges are added: the
    transition, the terminal guard on the current element [rcur], and the
    return of the new element [r]. *)
Definition placement_suffix (current_key : Z) (flip : string) (r rcur : ref)
    (unit_index : Z) : ST state ref :=
  _ ← update_connectors_states current_key flip r unit_index;
  _ ← when (bool_decide (unit_index = 1))
        (ce ← deref rcur;
         if connector_1_state ce
         then set_connector_1_state rcur false
         else set_connector_2_state rcur false);
  mret r.

(** The edges after a placement on [current_key] with [N] nodes. *)
Definition placement_edges (current_key N unit_index : Z)
    (e : gmap (Z * Z) (gmap string value)) : gmap (Z * Z) (gmap string value) :=
  if bool_decide (unit_index = 0)
  then <[(current_key, N) := {["edge_to" := VStr "neighbour"]}]> e
  else <[(current_key, N) := {["edge_to" := VStr "parent"]}]>
         (<[(N - 1, N) := {["edge_to" := VStr "parent"]}]> e).

(** The mirror of a flip code: AA and BB, AB and BA change places. *)
Definition mirror (flip : string) : string :=
  if String.eqb flip "AA" then "BB"
  else if String.eqb flip "BB" then "AA"
  else if String.eqb flip "AB" then "BA"
  else if String.eqb flip "BA" then "AB"
  else flip.

End WithKernel.

End TransitionSpec.

(** Three rods with open connectors, in the nodes 0, 1 and 2. *)
Definition three_rods : @Assembly.state unit_kernel :=
  fst (AssemblyMore.init_elements [0%nat; 1%nat; 2%nat]
         (AssemblyMore.new_assembly
            {[0%nat := unit_element true true;
              1%nat := unit_element true true;
              2%nat := unit_element true true]} ∅ example_globals)).

(** ** The outcome of a reachability query *)

Module QuerySpec.
Import BaseMap.

Section WithKernel.
Context `{K : Kernel} `{Rd : Rounding}.

(** The index lists that the arguments of [ri_mean] are read from. *)
Definition collision_indices (data : reuleaux_data) : option (list Qc) :=
  match collision_points data with
  | Some _ => Some (collision_reuleaux_index data)
  | None => None
  end.

(** The record of one query is consistent with its point clouds: the
    clouds are stored as passed, there is one index and one flag per goal
    point and one index per collision point, one transformed point per
    sample of the dataset, and a goal point flagged unreachable has
    index 0. *)
Record consistent (reuleaux : ReuleauxReachability)
    (goal_pointcloud : list Point) (collision_pointcloud : option (list Point))
    (data : reuleaux_data) : Prop := mkConsistent {
  c_goal_points : goal_points data = goal_pointcloud;
  c_collision_points : collision_points data = collision_pointcloud;
  c_goal_length :
    length (goal_reuleaux_index data) = length goal_pointcloud;
  c_reachable_length : length (reachable data) = length goal_pointcloud;
  c_collision_length :
    length (collision_reuleaux_index data)
    = length (default [] collision_pointcloud);
  c_reuleaux_length :
    length (reuleaux_points data) = length (spheres reuleaux);
  c_unreachable : forall i,
    reachable data !! i = Some false ->
    goal_reuleaux_index data !! i = Some 0%Qc;
  c_reachable : forall i,
    reachable data !! i = Some true ->
    exists s, s ∈ spheres reuleaux
              /\ goal_reuleaux_index data !! i = Some (ri s)
}.

(** What a successful query leaves in the map: the entry [id] holds the
    record and its aggregate, and no other entry differs. *)
Definition recorded (st st' : state) (id : Z) (data : reuleaux_data)
    (m : Qc) : Prop :=
  (exists attrs, node st' !! id = Some attrs
     /\ attrs !! "reuleaux_data" = Some (VData data)
     /\ attrs !! "mean_reuleaux_index" = Some (VNum m))
  /\ (forall k, k <> id -> node st' !! k = node st !! k).


(** The tree of the samples that a query at [pose] scores with: the
    sample points moved by the change of basis from the pose to the world
    frame, labelled by their position in the dataset. *)
Definition sample_tree (pose : Frame) (reuleaux : ReuleauxReachability)
  : list (Point * nat) :=
  fst (get_kdtree_transformed reuleaux
         (Transformation_from_change_of_basis pose Frame_worldXY)).

End WithKernel.

End QuerySpec.

(** A query on the empty map: one goal point, no collision cloud. *)
Definition example_query
  : @BaseMap.state unit_kernel
    * result (Z * @BaseMap.reuleaux_data unit_kernel) :=
  BaseMap.get_reuleaux_index_by_base_pose (K := unit_kernel) tt two_spheres
    [tt] None (BaseMap.mkState ∅ (-1)).

Definition example_query_data : @BaseMap.reuleaux_data unit_kernel :=
  match snd example_query with
  | Ok (_, data) => data
  | Raise _ => BaseMap.mkData [] None [] [] [] []
  end.

(** A map that holds one pose. *)
Definition known_pose_map : @BaseMap.state unit_kernel :=
  BaseMap.mkState {[0 := {["frame" := @BaseMap.VFrame unit_kernel tt]}]} 0.

(** A second query, at the same pose and with a collision cloud, on the
    map that the first one left. *)
Definition example_requery
  : @BaseMap.state unit_kernel
    * result (Z * @BaseMap.reuleaux_data unit_kernel) :=
  BaseMap.get_reuleaux_index_by_base_pose (K := unit_kernel) tt two_spheres
    [tt] (Some [tt]) (fst example_query).

Definition example_requery_data : @BaseMap.reuleaux_data unit_kernel :=
  match snd example_requery with
  | Ok (_, data) => data
  | Raise _ => BaseMap.mkData [] None [] [] [] []
  end.

(** A kernel as the trivial one, except that the tree of the samples
    reports every sample at the float distance 1.4145 from every point;
    and a dataset of two samples with resolution 1 over it. *)
Definition near_miss_kernel : Kernel := {|
  Point := unit; Vector := unit; Frame := unit; Transformation := unit;
  Frame_worldXY := tt;
  frame_point := fun _ => tt;
  frame_xaxis := fun _ => tt;
  frame_yaxis := fun _ => tt;
  frame_zaxis := fun _ => tt;
  point_xyz := fun _ => (0%Qc, 0%Qc, 0%Qc);
  vector_neg := fun _ => tt;
  vector_scale := fun _ _ => tt;
  Rotation_from_axis_and_angle := fun _ _ _ => tt;
  Translation_from_vector := fun _ => tt;
  Transformation_from_change_of_basis := fun _ _ => tt;
  transformation_mul := fun _ _ => tt;
  point_transformed := fun _ _ => tt;
  frame_transformed := fun _ _ => tt;
  distance_point_point := fun _ _ => 0%Qc;
  connector_frame := fun _ _ => tt;
  KDTree_nearest_neighbor := fun L objs _ =>
    match objs with
    | [] => Nnbr None None Infinity
    | (p, l) :: _ => Nnbr (Some p) (Some l) (Finite 0%Qc)
    end;
  KDTree_nearest_neighbors := fun L objs _ n =>
    (fun '(p, l) =>
       Nnbr (Some p) (Some l) (Finite (binary64_round (qc 14145 10000))))
    <$> take n objs
|}.

Definition near_miss_spheres : @BaseMap.ReuleauxReachability near_miss_kernel :=
  @BaseMap.mkReuleaux near_miss_kernel
    [@BaseMap.mkWsSphere near_miss_kernel tt (qc 7 1) [];
     @BaseMap.mkWsSphere near_miss_kernel tt (qc 3 1) []]
    (qc 1 1).

(** A kernel whose points are flags: the tree of the samples reports
    every sample at distance 0 from the point [true] and at no finite
    distance from the point [false]; and a dataset of two samples of
    index 1 with resolution 1 over it. *)
Definition flag_kernel : Kernel := {|
  Point := bool; Vector := unit; Frame := unit; Transformation := unit;
  Frame_worldXY := tt;
  frame_point := fun _ => true;
  frame_xaxis := fun _ => tt;
  frame_yaxis := fun _ => tt;
  frame_zaxis := fun _ => tt;
  point_xyz := fun _ => (0%Qc, 0%Qc, 0%Qc);
  vector_neg := fun _ => tt;
  vector_scale := fun _ _ => tt;
  Rotation_from_axis_and_angle := fun _ _ _ => tt;
  Translation_from_vector := fun _ => tt;
  Transformation_from_change_of_basis := fun _ _ => tt;
  transformation_mul := fun _ _ => tt;
  point_transformed := fun p _ => p;
  frame_transformed := fun _ _ => tt;
  distance_point_point := fun _ _ => 0%Qc;
  connector_frame := fun _ _ => tt;
  KDTree_nearest_neighbor := fun L objs _ =>
    match objs with
    | [] => Nnbr None None Infinity
    | (p, l) :: _ => Nnbr (Some p) (Some l) (Finite 0%Qc)
    end;
  KDTree_nearest_neighbors := fun L objs (pt : bool) n =>
    (fun '(p, l) =>
       Nnbr (Some p) (Some l) (if pt then Finite 0%Qc else Infinity))
    <$> take n objs
|}.

Definition flag_spheres : @BaseMap.ReuleauxReachability flag_kernel :=
  @BaseMap.mkReuleaux flag_kernel
    [@BaseMap.mkWsSphere flag_kernel true (qc 1 1) [];
     @BaseMap.mkWsSphere flag_kernel true (qc 1 1) []]
    (qc 1 1).

(** Three goal points, of which the first is near the samples, and one
    collision point near the samples: the indices are 1, 0, 0 and 1. *)
Definition flag_query
  : @BaseMap.state flag_kernel
    * result (Z * @BaseMap.reuleaux_data flag_kernel) :=
  BaseMap.get_reuleaux_index_by_base_pose (K := flag_kernel) tt flag_spheres
    [true; false; false] (Some [true]) (@BaseMap.mkState flag_kernel ∅ (-1)).

(** ** Reachability datasets from messages ([robot/reuleaux.py]) *)

(** A message as [roslibpy] delivers it, and the dicts of [data]: decoded
    JSON. A number is the rational it denotes. *)
Module Ros.

#[warnings="-register-all"]
Inductive msg : Type :=
  | MNone
  | MBool (b : bool)
  | MNum (q : Qc)
  | MStr (s : string)
  | MList (l : list msg)
  | MDict (d : gmap string msg).

(** [m[k]] with a string key: only a dict can be indexed that way. *)
Definition msg_getitem (m : msg) (k : string) : result msg :=
  match m with
  | MDict d => getitem (d !! k) KeyError
  | _ => Raise TypeError
  end.

(** [for x in m]: the items of a list, the keys of a dict, the
    characters of a string; nothing else is iterable. *)
Definition msg_iter (m : msg) : result (list msg) :=
  match m with
  | MList l => Ok l
  | MDict d => Ok ((fun kv : string * msg => MStr (fst kv)) <$> map_to_list d)
  | MStr s =>
      Ok ((fun c => MStr (String c EmptyString)) <$> String.list_ascii_of_string s)
  | _ => Raise TypeError
  end.

End Ros.

(** The constructors and serialisers of [compas.geometry] that the
    module calls on message values. They convert with [float] and may
    raise on what they are given. *)
Class Codec `{K : Kernel} : Type := {
  Quaternion : Type;
  Quaternion_new : Ros.msg -> Ros.msg -> Ros.msg -> Ros.msg -> result Quaternion;
  Point_new : Ros.msg -> Ros.msg -> Ros.msg -> result Point;
  Frame_from_quaternion : Quaternion -> Point -> result Frame;
  Point_data : Point -> Ros.msg;
  Point_from_data : Ros.msg -> result Point;
  Frame_data : Frame -> Ros.msg;
  Frame_from_data : Ros.msg -> result Frame
}.

(** *** [WsSphere] *)
Module Sphere.
Import Ros.

Section WithKernel.
Context `{C : Codec}.

(** A sphere object whose fields have been set, as [from_message] and
    [from_data] build it. [header] and [ri] are kept as they arrive. *)
Record WsSphere : Type := mkWsSphere {
  header : msg;
  point : Point;
  ri : msg;
  poses : list Frame
}.

(** The body of the loop over [message["poses"]]. *)
Definition pose_from_message (pose : msg) : result Frame :=
  pos ← msg_getitem pose "position";
  ori ← msg_getitem pose "orientation";
  w ← msg_getitem ori "w";
  x ← msg_getitem ori "x";
  y ← msg_getitem ori "y";
  z ← msg_getitem ori "z";
  qt ← Quaternion_new w x y z;
  px ← msg_getitem pos "x";
  py ← msg_getitem pos "y";
  pz ← msg_getitem pos "z";
  pt ← Point_new px py pz;
  Frame_from_quaternion qt pt.

(** [WsSphere.from_message] *)
Definition from_message (message : msg) : result WsSphere :=
  hdr ← msg_getitem message "header";
  pt ← msg_getitem message "point";
  x ← msg_getitem pt "x";
  y ← msg_getitem pt "y";
  z ← msg_getitem pt "z";
  point ← Point_new x y z;
  ri ← msg_getitem message "ri";
  items ← (m ← msg_getitem message "poses"; msg_iter m);
  poses ← mapM pose_from_message items;
  Ok (mkWsSphere hdr point ri poses).

(** The property [WsSphere.data] *)
Definition data (s : WsSphere) : msg :=
  MDict (<["header" := header s]>
           (<["point" := Point_data (point s)]>
              (<["ri" := ri s]>
                 {["poses" := MList (Frame_data <$> poses s)]}))).

(** [WsSphere.from_data]: [cls()] and then the setter of [data]. *)
Definition from_data (d : msg) : result WsSphere :=
  hdr ← msg_getitem d "header";
  p ← msg_getitem d "point";
  point ← Point_from_data p;
  ri ← msg_getitem d "ri";
  items ← (m ← msg_getitem d "poses"; msg_iter m);
  poses ← mapM Frame_from_data items;
  Ok (mkWsSphere hdr point ri poses).

End WithKernel.

End Sphere.

(** *** [ReuleauxReachability] *)
Module Reachability.
Import Ros.

Section WithKernel.
Context `{C : Codec}.

(** The object: [header] and [resolution] are [None] until they are
    set. *)
Record ReuleauxReachability : Type := mkReuleaux {
  header : msg;
  spheres : list Sphere.WsSphere;
  resolution : msg
}.

(** [ReuleauxReachability()] *)
Definition new : ReuleauxReachability := mkReuleaux MNone [] MNone.

(** [ReuleauxReachability.from_message] *)
Definition from_message (message : msg) : result ReuleauxReachability :=
  hdr ← msg_getitem message "header";
  items ← (m ← msg_getitem message "WsSpheres"; msg_iter m);
  spheres ← mapM Sphere.from_message items;
  res ← msg_getitem message "resolution";
  Ok (mkReuleaux hdr spheres res).

(** [ReuleauxReachability.update_from_message]: the fields of the
    object are assigned one after the other, and the spheres are
    appended to the new list one by one. *)
Definition update_from_message (message : msg)
  : ST ReuleauxReachability unit :=
  hdr ← lift (msg_getitem message "header");
  _ ← modify (fun self => mkReuleaux hdr (spheres self) (resolution self));
  _ ← modify (fun self => mkReuleaux (header self) [] (resolution self));
  items ← lift (m ← msg_getitem message "WsSpheres"; msg_iter m);
  _ ← for_each items (fun sphere =>
         s ← lift (Sphere.from_message sphere);
         modify (fun self =>
           mkReuleaux (header self) (spheres self ++ [s]) (resolution self)));
  res ← lift (msg_getitem message "resolution");
  modify (fun self => mkReuleaux (header self) (spheres self) res).

(** The property [ReuleauxReachability.data] *)
Definition data (r : ReuleauxReachability) : msg :=
  MDict (<["header" := header r]>
           (<["spheres" := MList (Sphere.data <$> spheres r)]>
              {["resolution" := resolution r]})).

(** [ReuleauxReachability.from_data] *)
Definition from_data (d : msg) : result ReuleauxReachability :=
  hdr ← msg_getitem d "header";
  items ← (m ← msg_getitem d "spheres"; msg_iter m);
  spheres ← mapM Sphere.from_data items;
  res ← msg_getitem d "resolution";
  Ok (mkReuleaux hdr spheres res).

(** The serialisers and the deserialisers of the geometry agree. *)
Definition codec_round_trip : Prop :=
  (forall p : Point, Point_from_data (Point_data p) = Ok p)
  /\ (forall f : Frame, Frame_from_data (Frame_data f) = Ok f).

End WithKernel.

End Reachability.

(** The codec of the trivial kernel, and a message of one sphere with
    one pose. *)
#[local] Instance unit_codec : @Codec unit_kernel := {|
  Quaternion := unit;
  Quaternion_new := fun _ _ _ _ => Ok tt;
  Point_new := fun _ _ _ => Ok tt;
  Frame_from_quaternion := fun _ _ => Ok tt;
  Point_data := fun _ => Ros.MList [];
  Point_from_data := fun _ => Ok tt;
  Frame_data := fun _ => Ros.MList [];
  Frame_from_data := fun _ => Ok tt
|}.

Definition xyz_message : Ros.msg :=
  Ros.MDict (<["x" := Ros.MNum 0%Qc]>
               (<["y" := Ros.MNum 0%Qc]> {["z" := Ros.MNum 0%Qc]})).

Definition pose_message : Ros.msg :=
  Ros.MDict (<["position" := xyz_message]>
               {["orientation" :=
                   Ros.MDict (<["w" := Ros.MNum 1%Qc]>
                                (<["x" := Ros.MNum 0%Qc]>
                                   (<["y" := Ros.MNum 0%Qc]>
                                      {["z" := Ros.MNum 0%Qc]})))]}).

Definition sphere_message : Ros.msg :=
  Ros.MDict (<["header" := Ros.MNone]>
               (<["point" := xyz_message]>
                  (<["ri" := Ros.MNum (qc 7 1)]>
                     {["poses" := Ros.MList [pose_message]]}))).

(** A message without [resolution]. *)
Definition truncated_message : Ros.msg :=
  Ros.MDict (<["header" := Ros.MStr "map"]>
               {["WsSpheres" := Ros.MList [sphere_message]]}).

Definition full_message : Ros.msg :=
  Ros.MDict (<["header" := Ros.MStr "map"]>
               (<["WsSpheres" := Ros.MList [sphere_message]]>
                  {["resolution" := Ros.MNum (qc 1 10)]})).

(** A dataset of one sphere with one pose. *)
Definition example_dataset
  : @Reachability.ReuleauxReachability unit_kernel :=
  @Reachability.mkReuleaux unit_kernel (Ros.MStr "map")
    [@Sphere.mkWsSphere unit_kernel Ros.MNone tt
       (Ros.MNum (qc 7 1)) [tt]]
    (Ros.MNum (qc 1 10)).

(** * Properties *)

(** ** Rounding to nearest in binary64 *)

Module Binary64Facts.
Import Binary64.

Local Open Scope Z_scope.

(** [round_half_even] returns a nearest integer, the even one on a tie. *)
Lemma round_half_even_nearest (n d : Z) :
  0 < d ->
  let m := round_half_even n d in
  (2 * m - 1) * d <= 2 * n <= (2 * m + 1) * d /\
  (2 * n = (2 * m - 1) * d -> Z.even m = true) /\
  (2 * n = (2 * m + 1) * d -> Z.even m = true).
Proof.
  intros Hd. unfold round_half_even.
  pose proof (Z.div_mod n d ltac:(lia)) as Hn.
  pose proof (Z.mod_pos_bound n d Hd) as Hr.
  set (q := n / d) in *. set (r := n mod d) in *.
  destruct (Z.compare_spec (2 * r) d) as [He | Hl | Hg].
  - destruct (Z.even q) eqn:Hq; cbn zeta.
    + repeat split; try nia. intros _. exact Hq.
    + repeat split; try nia. intros _.
      rewrite Z.add_1_r, Z.even_succ, <- Z.negb_even, Hq. reflexivity.
  - cbn zeta. repeat split; try nia.
  - cbn zeta. repeat split; try nia.
Qed.

Lemma inject_Z_le_cancel (a b : Z) (D : Q) :
  (0 < D)%Q -> (inject_Z a * D <= inject_Z b * D)%Q -> a <= b.
Proof.
  intros HD H. apply Qmult_le_r in H; [| assumption].
  rewrite Zle_Qle. exact H.
Qed.

(** A nearest multiple lies on the same side of every multiple as the
    number itself, and it grows with the number. *)
Lemma near_le_grid (x D : Q) (m k : Z) :
  (0 < D)%Q -> near x D m -> (x <= inject_Z k * D)%Q -> m <= k.
Proof.
  intros HD (H1 & _) Hx.
  assert (H : (inject_Z (2 * m - 1) * D <= inject_Z (2 * k) * D)%Q).
  { rewrite (inject_Z_mult 2 k). eapply Qle_trans; [exact H1|].
    change (inject_Z 2) with 2%Q. lra. }
  apply inject_Z_le_cancel in H; [lia | assumption].
Qed.

Lemma near_ge_grid (x D : Q) (m k : Z) :
  (0 < D)%Q -> near x D m -> (inject_Z k * D <= x)%Q -> k <= m.
Proof.
  intros HD (_ & H2 & _) Hx.
  assert (H : (inject_Z (2 * k) * D <= inject_Z (2 * m + 1) * D)%Q).
  { rewrite (inject_Z_mult 2 k). eapply Qle_trans; [|exact H2].
    change (inject_Z 2) with 2%Q. lra. }
  apply inject_Z_le_cancel in H; [lia | assumption].
Qed.

Lemma near_mono (x y D : Q) (m1 m2 : Z) :
  (0 < D)%Q -> near x D m1 -> near y D m2 -> (x <= y)%Q -> m1 <= m2.
Proof.
  intros HD (H1 & _ & T1 & _) (_ & H2 & _ & T2) Hxy.
  assert (H : (inject_Z (2 * m1 - 1) * D <= inject_Z (2 * m2 + 1) * D)%Q) by lra.
  pose proof (inject_Z_le_cancel _ _ _ HD H) as Hm.
  destruct (Z.eq_dec m1 (m2 + 1)) as [-> | Hne]; [| lia].
  exfalso.
  replace (2 * (m2 + 1) - 1) with (2 * m2 + 1) in * by lia.
  assert (E1 : Z.even (m2 + 1) = true) by (apply T1; lra).
  assert (E2 : Z.even m2 = true) by (apply T2; lra).
  rewrite Z.add_1_r, Z.even_succ, <- Z.negb_even, E2 in E1. discriminate.
Qed.

(** Powers of two with integer exponents. *)
Lemma p2_pos (e : Z) : (0 < 2 ^ e)%Q.
Proof. apply Qpower_0_lt. reflexivity. Qed.

Lemma p2_add (a b : Z) : (2 ^ (a + b) == 2 ^ a * 2 ^ b)%Q.
Proof. apply Qpower_plus. discriminate. Qed.

Lemma p2_Z (k : Z) : 0 <= k -> (inject_Z (2 ^ k) == 2 ^ k)%Q.
Proof. intros Hk. rewrite Zpower_Qpower by assumption. reflexivity. Qed.

Lemma p2_le (a b : Z) : a <= b -> (2 ^ a <= 2 ^ b)%Q.
Proof. intros H. apply Qpower_le_compat_l; [assumption | discriminate]. Qed.

Lemma p2_lt_inv (a b : Z) : (2 ^ a < 2 ^ b)%Q -> a < b.
Proof. intros H. eapply Qpower_lt_compat_l_inv; [exact H | reflexivity]. Qed.

Lemma p2_cancel (a : Z) : (2 ^ a * 2 ^ (- a) == 1)%Q.
Proof. rewrite <- p2_add. replace (a + - a) with 0 by lia. reflexivity. Qed.

Lemma p2_succ (a : Z) : (2 ^ (a + 1) == 2 * 2 ^ a)%Q.
Proof. rewrite p2_add. change (2 ^ 1)%Q with 2%Q. ring. Qed.

Lemma above_spec (e a d : Z) :
  above e a d = true <-> (inject_Z d * 2 ^ e <= inject_Z a)%Q.
Proof.
  unfold above. destruct (Z.leb_spec 0 e) as [He | He].
  - rewrite Z.leb_le, Zle_Qle, inject_Z_mult, p2_Z by assumption. reflexivity.
  - rewrite Z.leb_le, Zle_Qle, inject_Z_mult, p2_Z by lia.
    pose proof (p2_cancel e) as Hc.
    pose proof (p2_pos e) as H1. pose proof (p2_pos (- e)) as H2.
    set (P := (2 ^ e)%Q) in *. set (N := (2 ^ (- e))%Q) in *.
    set (A := inject_Z a). set (D := inject_Z d).
    split; intros H.
    + assert (D * P <= A * N * P)%Q by (apply Qmult_le_compat_r; lra).
      assert (A * N * P == A)%Q by (rewrite <- Qmult_assoc, (Qmult_comm N P), Hc; ring).
      lra.
    + assert (D * P * N <= A * N)%Q by (apply Qmult_le_compat_r; lra).
      assert (D * P * N == D)%Q by (rewrite <- Qmult_assoc, Hc; ring).
      lra.
Qed.

Lemma floor_log2_eq (a d : Z) :
  floor_log2 a d =
    let e := Z.log2 a - Z.log2 d in if above e a d then e else e - 1.
Proof.
  unfold floor_log2, above. cbn zeta.
  destruct (0 <=? Z.log2 a - Z.log2 d); reflexivity.
Qed.

Lemma log2_spec_Q (a : Z) :
  0 < a -> (2 ^ Z.log2 a <= inject_Z a)%Q /\ (inject_Z a < 2 ^ (Z.log2 a + 1))%Q.
Proof.
  intros Ha. pose proof (Z.log2_spec a Ha) as [H1 H2].
  pose proof (Z.log2_nonneg a) as Hn.
  rewrite <- !p2_Z by lia. split.
  - rewrite <- Zle_Qle. exact H1.
  - rewrite <- Zlt_Qlt. rewrite Z.add_1_r. exact H2.
Qed.

(** [floor_log2] returns the exponent of the binade. *)
Lemma floor_log2_spec (a d : Z) :
  0 < a -> 0 < d ->
  (inject_Z d * 2 ^ floor_log2 a d <= inject_Z a)%Q /\
  (inject_Z a < inject_Z d * 2 ^ (floor_log2 a d + 1))%Q.
Proof.
  intros Ha Hd. rewrite floor_log2_eq. cbn zeta.
  destruct (log2_spec_Q a Ha) as [A1 A2].
  destruct (log2_spec_Q d Hd) as [D1 D2].
  set (la := Z.log2 a) in *. set (ld := Z.log2 d) in *.
  assert (Hlow : (inject_Z d * 2 ^ (la - ld - 1) <= inject_Z a)%Q).
  { assert (E : (2 ^ la == 2 ^ (ld + 1) * 2 ^ (la - ld - 1))%Q).
    { rewrite <- p2_add. replace (ld + 1 + (la - ld - 1)) with la by lia. reflexivity. }
    pose proof (p2_pos (la - ld - 1)).
    assert (inject_Z d * 2 ^ (la - ld - 1) <= 2 ^ (ld + 1) * 2 ^ (la - ld - 1))%Q
      by (apply Qmult_le_compat_r; lra).
    lra. }
  assert (Hhigh : (inject_Z a < inject_Z d * 2 ^ (la - ld + 1))%Q).
  { assert (E : (2 ^ (la + 1) == 2 ^ ld * 2 ^ (la - ld + 1))%Q).
    { rewrite <- p2_add. replace (ld + (la - ld + 1)) with (la + 1) by lia. reflexivity. }
    pose proof (p2_pos (la - ld + 1)).
    assert (2 ^ ld * 2 ^ (la - ld + 1) <= inject_Z d * 2 ^ (la - ld + 1))%Q
      by (apply Qmult_le_compat_r; lra).
    lra. }
  destruct (above (la - ld) a d) eqn:Hab.
  - apply above_spec in Hab. split; assumption.
  - split; [exact Hlow|].
    replace (la - ld - 1 + 1) with (la - ld) by lia.
    apply Qnot_le_lt. intros H. apply above_spec in H. congruence.
Qed.

Lemma inject_Z_pos (d : Z) : 0 < d -> (0 < inject_Z d)%Q.
Proof. intros H. change 0%Q with (inject_Z 0). rewrite <- Zlt_Qlt. exact H. Qed.

Lemma ratio_mul (a d : Z) : 0 < d -> (ratio a d * inject_Z d == inject_Z a)%Q.
Proof.
  intros Hd. unfold ratio. pose proof (inject_Z_pos d Hd). field. lra.
Qed.

(** The significand is a nearest multiple of the quantum. *)
Lemma near_of_Z (n dd : Z) (X U : Q) :
  0 < dd -> (0 < U)%Q -> (X * inject_Z dd == inject_Z n * U)%Q ->
  near X U (round_half_even n dd).
Proof.
  intros Hd HU HX.
  destruct (round_half_even_nearest n dd Hd) as ((H1 & H2) & T1 & T2).
  set (m := round_half_even n dd) in *.
  pose proof (inject_Z_pos dd Hd) as HD.
  assert (Q1 : (inject_Z (2 * m - 1) * inject_Z dd <= 2 * inject_Z n)%Q).
  { rewrite <- inject_Z_mult. change 2%Q with (inject_Z 2).
    rewrite <- inject_Z_mult, <- Zle_Qle. exact H1. }
  assert (Q2 : (2 * inject_Z n <= inject_Z (2 * m + 1) * inject_Z dd)%Q).
  { rewrite <- inject_Z_mult. change 2%Q with (inject_Z 2).
    rewrite <- inject_Z_mult, <- Zle_Qle. exact H2. }
  set (L := inject_Z (2 * m - 1)) in *. set (H := inject_Z (2 * m + 1)) in *.
  set (D := inject_Z dd) in *. set (N := inject_Z n) in *.
  assert (C1 : (L * U * D <= 2 * X * D)%Q).
  { assert (L * D * U <= 2 * N * U)%Q by (apply Qmult_le_compat_r; lra).
    assert (L * U * D == L * D * U)%Q by ring.
    assert (2 * X * D == 2 * N * U)%Q by (rewrite <- Qmult_assoc, HX; ring).
    lra. }
  assert (C2 : (2 * X * D <= H * U * D)%Q).
  { assert (2 * N * U <= H * D * U)%Q by (apply Qmult_le_compat_r; lra).
    assert (H * U * D == H * D * U)%Q by ring.
    assert (2 * X * D == 2 * N * U)%Q by (rewrite <- Qmult_assoc, HX; ring).
    lra. }
  apply Qmult_le_r in C1; [| exact HD]. apply Qmult_le_r in C2; [| exact HD].
  unfold near. repeat split; try assumption.
  - intros E. apply T1.
    assert (E' : (2 * N * U == L * D * U)%Q).
    { assert (2 * X * D == 2 * N * U)%Q by (rewrite <- Qmult_assoc, HX; ring).
      assert (L * D * U == L * U * D)%Q by ring.
      assert (2 * X * D == L * U * D)%Q by (rewrite E; reflexivity).
      lra. }
    apply Qmult_inj_r in E'; [| lra].
    apply inject_Z_injective. rewrite !inject_Z_mult.
    change (inject_Z 2) with 2%Q. exact E'.
  - intros E. apply T2.
    assert (E' : (2 * N * U == H * D * U)%Q).
    { assert (2 * X * D == 2 * N * U)%Q by (rewrite <- Qmult_assoc, HX; ring).
      assert (H * D * U == H * U * D)%Q by ring.
      assert (2 * X * D == H * U * D)%Q by (rewrite E; reflexivity).
      lra. }
    apply Qmult_inj_r in E'; [| lra].
    apply inject_Z_injective. rewrite !inject_Z_mult.
    change (inject_Z 2) with 2%Q. exact E'.
Qed.

Lemma mantissa_near (a d : Z) :
  0 < a -> 0 < d -> near (ratio a d) (2 ^ quantum a d) (mantissa a d).
Proof.
  intros Ha Hd. unfold mantissa. cbn zeta.
  pose proof (ratio_mul a d Hd) as HX.
  pose proof (p2_pos (quantum a d)) as HU.
  destruct (Z.leb_spec 0 (quantum a d)) as [Hq | Hq].
  - apply near_of_Z; [| exact HU |].
    + apply Z.mul_pos_pos; [exact Hd | apply Z.pow_pos_nonneg; lia].
    + rewrite inject_Z_mult, p2_Z by exact Hq.
      rewrite Qmult_assoc, HX. reflexivity.
  - apply near_of_Z; [exact Hd | exact HU |].
    rewrite inject_Z_mult, p2_Z by lia. rewrite HX.
    rewrite <- Qmult_assoc, (Qmult_comm (2 ^ (- quantum a d))), p2_cancel. ring.
Qed.

Lemma floor_log2_ratio (a d : Z) :
  0 < a -> 0 < d ->
  (2 ^ floor_log2 a d <= ratio a d)%Q /\ (ratio a d < 2 ^ (floor_log2 a d + 1))%Q.
Proof.
  intros Ha Hd. destruct (floor_log2_spec a d Ha Hd) as [H1 H2].
  pose proof (ratio_mul a d Hd) as HX. pose proof (inject_Z_pos d Hd) as HD.
  rewrite <- HX in H1, H2. split.
  - apply (Qmult_le_r _ _ (inject_Z d)); [exact HD|].
    rewrite (Qmult_comm (2 ^ _)). exact H1.
  - apply (Qmult_lt_r _ _ (inject_Z d)); [exact HD|].
    rewrite (Qmult_comm (2 ^ _)). exact H2.
Qed.

Lemma ratio_pos (a d : Z) : 0 < a -> 0 < d -> (0 < ratio a d)%Q.
Proof.
  intros Ha Hd. destruct (floor_log2_ratio a d Ha Hd) as [H _].
  pose proof (p2_pos (floor_log2 a d)). lra.
Qed.

Lemma grid_pow (j q : Z) : q <= j -> (2 ^ j == inject_Z (2 ^ (j - q)) * 2 ^ q)%Q.
Proof.
  intros H. rewrite p2_Z by lia. rewrite <- p2_add.
  replace (j - q + q) with j by lia. reflexivity.
Qed.

Lemma mantissa_nonneg (a d : Z) : 0 < a -> 0 < d -> 0 <= mantissa a d.
Proof.
  intros Ha Hd.
  apply (near_ge_grid (ratio a d) (2 ^ quantum a d)).
  - apply p2_pos.
  - apply mantissa_near; assumption.
  - pose proof (ratio_pos a d Ha Hd). change (inject_Z 0) with 0%Q. lra.
Qed.

Lemma magnitude_nonneg (a d : Z) : 0 < a -> 0 < d -> (0 <= magnitude a d)%Q.
Proof.
  intros Ha Hd. unfold magnitude.
  apply Qmult_le_0_compat.
  - change 0%Q with (inject_Z 0). rewrite <- Zle_Qle.
    apply mantissa_nonneg; assumption.
  - apply Qlt_le_weak, p2_pos.
Qed.

Lemma magnitude_le_grid (a d j : Z) :
  0 < a -> 0 < d -> quantum a d <= j -> (ratio a d <= 2 ^ j)%Q ->
  (magnitude a d <= 2 ^ j)%Q.
Proof.
  intros Ha Hd Hj Hx. unfold magnitude.
  rewrite (grid_pow j (quantum a d) Hj) in *.
  apply Qmult_le_compat_r; [| apply Qlt_le_weak, p2_pos].
  rewrite <- Zle_Qle.
  eapply near_le_grid; [apply p2_pos | apply mantissa_near; assumption | exact Hx].
Qed.

Lemma magnitude_ge_grid (a d j : Z) :
  0 < a -> 0 < d -> quantum a d <= j -> (2 ^ j <= ratio a d)%Q ->
  (2 ^ j <= magnitude a d)%Q.
Proof.
  intros Ha Hd Hj Hx. unfold magnitude.
  rewrite (grid_pow j (quantum a d) Hj) in *.
  apply Qmult_le_compat_r; [| apply Qlt_le_weak, p2_pos].
  rewrite <- Zle_Qle.
  eapply near_ge_grid; [apply p2_pos | apply mantissa_near; assumption | exact Hx].
Qed.

Lemma floor_log2_mono (a1 d1 a2 d2 : Z) :
  0 < a1 -> 0 < d1 -> 0 < a2 -> 0 < d2 ->
  (ratio a1 d1 <= ratio a2 d2)%Q -> floor_log2 a1 d1 <= floor_log2 a2 d2.
Proof.
  intros Ha1 Hd1 Ha2 Hd2 Hle.
  destruct (floor_log2_ratio a1 d1 Ha1 Hd1) as [L1 _].
  destruct (floor_log2_ratio a2 d2 Ha2 Hd2) as [_ U2].
  assert (H : (2 ^ floor_log2 a1 d1 < 2 ^ (floor_log2 a2 d2 + 1))%Q) by lra.
  apply p2_lt_inv in H. lia.
Qed.

(** Rounding keeps the order of positive numbers: in one binade the
    significands are ordered, and a power of two that is a float of
    both binades separates two binades. *)
Lemma magnitude_mono (a1 d1 a2 d2 : Z) :
  0 < a1 -> 0 < d1 -> 0 < a2 -> 0 < d2 ->
  (ratio a1 d1 <= ratio a2 d2)%Q -> (magnitude a1 d1 <= magnitude a2 d2)%Q.
Proof.
  intros Ha1 Hd1 Ha2 Hd2 Hle.
  pose proof (floor_log2_mono _ _ _ _ Ha1 Hd1 Ha2 Hd2 Hle) as He.
  destruct (Z.eq_dec (quantum a1 d1) (quantum a2 d2)) as [Hq | Hq].
  - unfold magnitude. rewrite Hq.
    apply Qmult_le_compat_r; [| apply Qlt_le_weak, p2_pos].
    rewrite <- Zle_Qle.
    apply (near_mono (ratio a1 d1) (ratio a2 d2) (2 ^ quantum a2 d2));
      [apply p2_pos | | | exact Hle].
    + rewrite <- Hq. apply mantissa_near; assumption.
    + apply mantissa_near; assumption.
  - destruct (floor_log2_ratio a1 d1 Ha1 Hd1) as [_ U1].
    destruct (floor_log2_ratio a2 d2 Ha2 Hd2) as [L2 _].
    assert (Hlt : floor_log2 a1 d1 + 1 <= floor_log2 a2 d2)
      by (unfold quantum in *; lia).
    pose proof (p2_le _ _ Hlt) as Hp.
    apply Qle_trans with (2 ^ floor_log2 a2 d2)%Q.
    + apply magnitude_le_grid; [assumption | assumption | unfold quantum in *; lia | lra].
    + apply magnitude_ge_grid; [assumption | assumption | unfold quantum in *; lia | lra].
Qed.

(** A multiple of a quantum that is not finer than the one of its
    binade rounds to itself. *)
Lemma magnitude_of_grid (a d k q : Z) :
  0 < a -> 0 < d -> (ratio a d == inject_Z k * 2 ^ q)%Q -> quantum a d <= q ->
  (magnitude a d == ratio a d)%Q.
Proof.
  intros Ha Hd Hx Hq.
  assert (Hx' : (ratio a d == inject_Z (k * 2 ^ (q - quantum a d)) * 2 ^ quantum a d)%Q).
  { rewrite Hx, inject_Z_mult, p2_Z by lia.
    rewrite <- Qmult_assoc, <- p2_add.
    replace (q - quantum a d + quantum a d) with q by lia. reflexivity. }
  pose proof (mantissa_near a d Ha Hd) as Hn.
  pose proof (p2_pos (quantum a d)) as HU.
  assert (Hm : mantissa a d = k * 2 ^ (q - quantum a d)).
  { apply Z.le_antisymm.
    - eapply near_le_grid; [exact HU | exact Hn | rewrite Hx'; apply Qle_refl].
    - eapply near_ge_grid; [exact HU | exact Hn | rewrite Hx'; apply Qle_refl]. }
  unfold magnitude. rewrite Hm. symmetry. exact Hx'.
Qed.

Lemma mantissa_le (a d : Z) : 0 < a -> 0 < d -> mantissa a d <= 2 ^ 53.
Proof.
  intros Ha Hd.
  destruct (floor_log2_ratio a d Ha Hd) as [_ U].
  eapply near_le_grid; [apply p2_pos | apply mantissa_near; assumption |].
  rewrite p2_Z by lia. rewrite <- p2_add.
  assert (H : floor_log2 a d + 1 <= 53 + quantum a d) by (unfold quantum; lia).
  pose proof (p2_le _ _ H). lra.
Qed.

(** A float rounds to itself, also when its significand was rounded up
    to the next binade. *)
Lemma magnitude_fixed (a d a' d' : Z) :
  0 < a -> 0 < d -> 0 < a' -> 0 < d' ->
  (ratio a' d' == magnitude a d)%Q -> (magnitude a' d' == ratio a' d')%Q.
Proof.
  intros Ha Hd Ha' Hd' Hx.
  pose proof (mantissa_le a d Ha Hd) as Hm.
  destruct (floor_log2_ratio a' d' Ha' Hd') as [L' U'].
  pose proof (p2_pos (quantum a d)) as HU.
  destruct (Z.eq_dec (mantissa a d) (2 ^ 53)) as [Heq | Hne].
  - (* the significand overflowed to the next binade *)
    assert (Hv : (ratio a' d' == 2 ^ (53 + quantum a d))%Q).
    { rewrite Hx. unfold magnitude. rewrite Heq, p2_Z by lia.
      rewrite <- p2_add. reflexivity. }
    assert (He : floor_log2 a' d' = 53 + quantum a d).
    { rewrite Hv in L', U'. apply Qle_lteq in L'.
      assert (floor_log2 a' d' <= 53 + quantum a d).
      { destruct L' as [L' | L']; [apply p2_lt_inv in L'; lia|].
        destruct (Z_le_gt_dec (floor_log2 a' d') (53 + quantum a d)); [assumption|].
        assert (H : 53 + quantum a d + 1 <= floor_log2 a' d') by lia.
        apply p2_le in H. rewrite p2_succ in H.
        pose proof (p2_pos (53 + quantum a d)). lra. }
      apply p2_lt_inv in U'. lia. }
    apply (magnitude_of_grid a' d' (2 ^ 52) (quantum a d + 1)); try assumption.
    + rewrite Hv, p2_Z by lia. rewrite <- p2_add.
      replace (53 + quantum a d) with (52 + (quantum a d + 1)) by lia. reflexivity.
    + unfold quantum in *. lia.
  - apply (magnitude_of_grid a' d' (mantissa a d) (quantum a d)); try assumption.
    assert (Hlt : (ratio a' d' < 2 ^ (53 + quantum a d))%Q).
    { rewrite Hx. unfold magnitude. rewrite p2_add, <- (p2_Z 53) by lia.
      apply Qmult_lt_compat_r; [exact HU|].
      rewrite <- Zlt_Qlt. lia. }
    assert (H : (2 ^ floor_log2 a' d' < 2 ^ (53 + quantum a d))%Q) by lra.
    apply p2_lt_inv in H. unfold quantum in *. lia.
Qed.

(** The value of [binary64_round] in terms of sign and magnitude. *)
Lemma this_ratio (x : Qc) :
  (this x == inject_Z (Z.sgn (Qnum x)) * ratio (Z.abs (Qnum x)) (Z.pos (Qden x)))%Q.
Proof.
  destruct x as [[n d] Hc]. cbn [this Qnum Qden]. unfold ratio.
  rewrite (Qmake_Qdiv n d).
  assert (E : (inject_Z n == inject_Z (Z.sgn n) * inject_Z (Z.abs n))%Q).
  { rewrite <- inject_Z_mult. apply inject_Z_injective. 
    rewrite Z.mul_comm. symmetry. apply Z.abs_sgn. }
  rewrite E. pose proof (inject_Z_pos (Z.pos d) ltac:(lia)). field. lra.
Qed.

Lemma binary64_round_this (x : Qc) :
  (this (binary64_round x) ==
   inject_Z (Z.sgn (Qnum x)) * magnitude (Z.abs (Qnum x)) (Z.pos (Qden x)))%Q.
Proof.
  unfold binary64_round. cbn zeta.
  destruct (Z.eqb_spec (Qnum x) 0) as [Hz | Hz].
  - rewrite Hz. change (inject_Z (Z.sgn 0)) with 0%Q.
    rewrite Qmult_0_l. reflexivity.
  - unfold magnitude, mantissa, quantum. cbn zeta.
    set (q := Z.max (floor_log2 (Z.abs (Qnum x)) (Z.pos (Qden x)) - 52) (-1074)).
    destruct (Z.leb_spec 0 q) as [Hq | Hq].
    + cbn [this Q2Qc]. rewrite Qred_correct.
      rewrite !inject_Z_mult, p2_Z by exact Hq. ring.
    + cbn [this Q2Qc]. rewrite Qred_correct.
      rewrite Qmake_Qdiv, Z2Pos.id by (apply Z.pow_pos_nonneg; lia).
      rewrite inject_Z_mult, p2_Z by lia.
      pose proof (p2_cancel q) as Hc. pose proof (p2_pos (- q)) as Hp.
      set (N := (2 ^ (- q))%Q) in *. set (P := (2 ^ q)%Q) in *.
      assert (E : (P == / N)%Q) by (field_simplify_eq; [lra | lra]).
      rewrite E. field. lra.
Qed.

(** The laws of rounding to nearest. *)
Lemma binary64_round_monotone (x y : Qc) :
  (x <= y)%Qc -> (binary64_round x <= binary64_round y)%Qc.
Proof.
  intros Hxy. unfold Qcle in *.
  rewrite (binary64_round_this x), (binary64_round_this y).
  rewrite (this_ratio x), (this_ratio y) in Hxy.
  set (nx := Qnum x) in *. set (ny := Qnum y) in *.
  set (dx := Z.pos (Qden x)) in *. set (dy := Z.pos (Qden y)) in *.
  assert (Hdx : 0 < dx) by (unfold dx; lia).
  assert (Hdy : 0 < dy) by (unfold dy; lia).
  destruct (Z.lt_trichotomy nx 0) as [Hx | [Hx | Hx]];
  destruct (Z.lt_trichotomy ny 0) as [Hy | [Hy | Hy]].
  all: try (rewrite (Z.sgn_neg nx) in * by assumption).
  all: try (rewrite (Z.sgn_pos nx) in * by assumption).
  all: try (rewrite (Z.sgn_neg ny) in * by assumption).
  all: try (rewrite (Z.sgn_pos ny) in * by assumption).
  all: repeat match goal with E : _ = 0 |- _ => rewrite E in *; clear E end.
  all: change (inject_Z (-1)) with (-1)%Q in *.
  all: change (inject_Z 1) with 1%Q in *.
  all: change (inject_Z (Z.sgn 0)) with 0%Q in *.
  all: try (pose proof (magnitude_nonneg (Z.abs nx) dx ltac:(lia) Hdx)).
  all: try (pose proof (magnitude_nonneg (Z.abs ny) dy ltac:(lia) Hdy)).
  all: try (pose proof (ratio_pos (Z.abs nx) dx ltac:(lia) Hdx)).
  all: try (pose proof (ratio_pos (Z.abs ny) dy ltac:(lia) Hdy)).
  all: try lra.
  - pose proof (magnitude_mono (Z.abs ny) dy (Z.abs nx) dx
                  ltac:(lia) Hdy ltac:(lia) Hdx ltac:(lra)). lra.
  - pose proof (magnitude_mono (Z.abs nx) dx (Z.abs ny) dy
                  ltac:(lia) Hdx ltac:(lia) Hdy ltac:(lra)). lra.
Qed.

Lemma binary64_round_zero : binary64_round 0%Qc = 0%Qc.
Proof. reflexivity. Qed.

Lemma binary64_round_idempotent (x : Qc) :
  binary64_round (binary64_round x) = binary64_round x.
Proof.
  apply Qc_is_canon.
  set (v := binary64_round x).
  rewrite (binary64_round_this v).
  pose proof (this_ratio v) as Hv.
  pose proof (binary64_round_this x) as Hx. fold v in Hx.
  set (n := Qnum x) in *. set (d := Z.pos (Qden x)) in *.
  set (n' := Qnum v) in *. set (d' := Z.pos (Qden v)) in *.
  assert (Hd : 0 < d) by (unfold d; lia).
  assert (Hd' : 0 < d') by (unfold d'; lia).
  destruct (Z.eq_dec n' 0) as [Hz | Hz].
  { rewrite Hv, Hz. change (inject_Z (Z.sgn 0)) with 0%Q. ring. }
  assert (Ha' : 0 < Z.abs n') by lia.
  pose proof (ratio_pos (Z.abs n') d' Ha' Hd') as Hr.
  destruct (Z.eq_dec n 0) as [Hn | Hn].
  { exfalso. rewrite Hn in Hx. change (inject_Z (Z.sgn 0)) with 0%Q in Hx.
    rewrite Qmult_0_l in Hx. rewrite Hv in Hx.
    destruct (Z.lt_trichotomy n' 0) as [H | [H | H]]; [| lia |].
    - rewrite (Z.sgn_neg n') in Hx by assumption.
      change (inject_Z (-1)) with (-1)%Q in Hx. lra.
    - rewrite (Z.sgn_pos n') in Hx by assumption.
      change (inject_Z 1) with 1%Q in Hx. lra. }
  assert (Ha : 0 < Z.abs n) by lia.
  pose proof (magnitude_nonneg (Z.abs n) d Ha Hd) as Hm.
  assert (Hsame : (ratio (Z.abs n') d' == magnitude (Z.abs n) d)%Q).
  { rewrite Hv in Hx.
    destruct (Z.lt_trichotomy n' 0) as [H' | [H' | H']]; [| lia |];
    destruct (Z.lt_trichotomy n 0) as [H | [H | H]]; try lia.
    all: try (rewrite (Z.sgn_neg n) in * by assumption).
    all: try (rewrite (Z.sgn_pos n) in * by assumption).
    all: try (rewrite (Z.sgn_neg n') in * by assumption).
    all: try (rewrite (Z.sgn_pos n') in * by assumption).
    all: change (inject_Z (-1)) with (-1)%Q in *.
    all: change (inject_Z 1) with 1%Q in *.
    all: lra. }
  rewrite (magnitude_fixed (Z.abs n) d (Z.abs n') d' Ha Hd Ha' Hd' Hsame).
  symmetry. exact Hv.
Qed.

Lemma binary64_correctly_rounded : @correctly_rounded binary64.
Proof.
  constructor.
  - exact binary64_round_monotone.
  - exact binary64_round_idempotent.
  - exact binary64_round_zero.
Qed.

End Binary64Facts.

(** ** The equilibrium validator *)

Module EquilibriumFacts.
Import Equilibrium.

Section Scan.
Context `{Rd : Rounding}.
Variable IsPointInSurface : Qc -> Qc -> option bool.
Variable AddLine : Qc -> Qc -> Qc -> Z.

(** The first iteration of a scan that was called with
    [allow_temp_support=False] never completes: it divides by a zero
    volume or reads [s_glob], which that call has not assigned. *)
Lemma body_without_temp_support (s : solid) (e : list solid) :
  body IsPointInSurface AddLine (s :: e) 0 (init false)
  = Raise (if Qc_eqb (volume s) 0%Qc then ZeroDivisionError
           else UnboundLocalError "s_glob").
Proof.
  unfold body, resultant; simpl. rewrite fsum_one.
  destruct (Qc_eqb (volume s) 0%Qc); reflexivity.
Qed.

(** When the first resultant point lies in the footprint and temporary
    support is allowed, the first iteration already takes the
    temporary-support branch: it records the grant index 0 and clears
    the permission. *)
Lemma body_first_inside_grants (s : solid) (e : list solid) (l : locals) :
  body IsPointInSurface AddLine (s :: e) 0 (init true) = Ok l ->
  IsPointInSurface (fdiv (res_pos_x l) (volume s))
                   (fdiv (res_pos_y l) (volume s))
    = Some true ->
  s_int l = Some 0 /\ allow_temp_support l = false
  /\ static_equilibrium l = true.
Proof.
  unfold body, resultant; simpl. rewrite fsum_one.
  destruct (Qc_eqb (volume s) 0%Qc); simpl; [discriminate|].
  intros [= <-]; simpl. intros ->; simpl. auto.
Qed.

End Scan.

(** C7 (as the code behaves): called with [allow_temp_support=False],
    [static_equilibrium_check] never returns a result, whatever the
    footprint and the solids are. The scan stops in its first iteration
    with [UnboundLocalError] for [s_glob] (or with [ZeroDivisionError] if
    the first volume is 0), and on no solids at all the final read of
    [res] fails. In particular it does not return "unstable" when the
    resultant leaves the footprint. *)
Theorem C7_no_temp_support_never_returns `{Rd : Rounding}
    (IsPointInSurface : Qc -> Qc -> option bool)
    (AddLine : Qc -> Qc -> Qc -> Z) (e : list solid) :
  static_equilibrium_check IsPointInSurface AddLine e false
  = Raise (match e with
           | [] => UnboundLocalError "res"
           | s :: _ => if Qc_eqb (volume s) 0%Qc then ZeroDivisionError
                       else UnboundLocalError "s_glob"
           end).
Proof.
  unfold static_equilibrium_check, scan.
  destruct e as [|s e]; [reflexivity|].
  cbn [length seq loop].
  rewrite body_without_temp_support. reflexivity.
Qed.

(** The support with one option element whose resultant leaves the unit
    footprint at the second step, temporary support disallowed. *)
Example no_temp_support_outside :
  static_equilibrium_check unit_square line_id
    [centred; Solid 1 (qc 5 1) (qc 5 1)] false
  = Raise (UnboundLocalError "s_glob").
Proof. vm_compute. reflexivity. Qed.

(** C1 (as the code behaves): the support and one option element, both
    centred in the unit footprint, temporary support allowed. Both running
    resultant points are inside the footprint, yet the scan records the
    grant index 0 at the first step and the call returns "not in
    equilibrium". *)
Theorem C1_inside_scan_latches_and_is_unstable :
  unit_square (qc 1 2) (qc 1 2) = Some true
  /\ (exists l, scan unit_square line_id [centred; centred] true = Ok l
        /\ s_int l = Some 0 /\ latched l = true)
  /\ static_equilibrium_check unit_square line_id [centred; centred] true
     = Ok (false, 2).
Proof.
  split; [vm_compute; reflexivity|].
  split; [|vm_compute; reflexivity].
  eexists. split; [vm_compute; reflexivity|]. split; reflexivity.
Qed.

(** With a third centred solid the same scan returns "in equilibrium":
    on solids that all stay inside, the answer alternates with their
    number. *)
Example inside_scan_three :
  static_equilibrium_check unit_square line_id [centred; centred; centred] true
  = Ok (true, 3).
Proof. vm_compute. reflexivity. Qed.

End EquilibriumFacts.

(** ** The assembly: connector monotonicity *)

Module ConnectorFacts.
Import Assembly Contracts.

Section WithKernel.
Context `{K : Kernel} `{Rd : Rounding}.

Lemma closed_stay_refl st : closed_stay st st.
Proof. intros r e He. eauto. Qed.

Lemma closed_stay_trans st1 st2 st3 :
  closed_stay st1 st2 -> closed_stay st2 st3 -> closed_stay st1 st3.
Proof.
  intros H12 H23 r e He.
  destruct (H12 r e He) as (e2 & He2 & Ha & Hb).
  destruct (H23 r e2 He2) as (e3 & He3 & Hc & Hd).
  exists e3. split; [assumption|]. split; auto.
Qed.

Lemma keeps_ret {A} (a : A) : keeps_closed (mret a).
Proof. intros st. apply closed_stay_refl. Qed.

Lemma keeps_raise {A} (e : exn) : keeps_closed (raise e : ST state A).
Proof. intros st. apply closed_stay_refl. Qed.

Lemma keeps_lift {A} (r : result A) : keeps_closed (lift r : ST state A).
Proof. intros st. apply closed_stay_refl. Qed.

Lemma keeps_get : keeps_closed (get : ST state state).
Proof. intros st. apply closed_stay_refl. Qed.

Lemma keeps_bind {A B} (m : ST state A) (f : A -> ST state B) :
  keeps_closed m -> (forall a, keeps_closed (f a)) ->
  keeps_closed (m ≫= f).
Proof.
  intros Hm Hf st. unfold mbind, ST_bind.
  specialize (Hm st). destruct (m st) as [st1 [a|e]]; simpl in *.
  - eapply closed_stay_trans; [exact Hm|apply Hf].
  - exact Hm.
Qed.

Lemma keeps_when (b : bool) (m : ST state unit) :
  keeps_closed m -> keeps_closed (when b m).
Proof. destruct b; simpl; [auto|intros _; apply keeps_ret]. Qed.

Lemma keeps_for_each {A} (xs : list A) (body : A -> ST state unit) :
  (forall x, keeps_closed (body x)) -> keeps_closed (for_each xs body).
Proof.
  intros Hb. induction xs as [|x xs IH]; simpl.
  - apply keeps_ret.
  - apply keeps_bind; auto.
Qed.

(** Changes of the store outside the heap. *)
Lemma keeps_modify_graph (f : state -> state) :
  (forall st, heap (f st) = heap st) -> keeps_closed (modify f).
Proof.
  intros Hf st r e He. simpl. rewrite Hf. eauto.
Qed.

(** Assigning [False] to a connector. *)
Lemma keeps_set_connector_1_state r : keeps_closed (set_connector_1_state r false).
Proof.
  intros st r' e He. simpl. rewrite lookup_alter.
  case_decide as Hr; simplify_eq; rewrite He; simpl; eauto.
  eexists; split; [reflexivity|]. simpl. split; [discriminate|auto].
Qed.

Lemma keeps_set_connector_2_state r : keeps_closed (set_connector_2_state r false).
Proof.
  intros st r' e He. simpl. rewrite lookup_alter.
  case_decide as Hr; simplify_eq; rewrite He; simpl; eauto.
  eexists; split; [reflexivity|]. simpl. split; [auto|discriminate].
Qed.

Lemma keeps_transform r T : keeps_closed (transform r T).
Proof.
  intros st r' e He. simpl. rewrite lookup_alter.
  case_decide as Hr; simplify_eq; rewrite He; simpl; eauto.
Qed.

(** A new object does not disturb the ones that exist. *)
Lemma keeps_alloc (e : Element) :
  keeps_closed (fun st : state =>
    modify (set_heap (insert (fresh (dom (heap st))) e)) st).
Proof.
  intros st r e0 He. simpl.
  rewrite lookup_insert_ne; [eauto|].
  intros <-. apply (is_fresh (dom (heap st))).
  apply elem_of_dom. eauto.
Qed.

Lemma keeps_copy r : keeps_closed (copy r).
Proof.
  unfold copy. apply keeps_bind; [|intros e].
  { unfold deref. apply keeps_bind; [apply keeps_get|intros; apply keeps_lift]. }
  intros st. unfold mbind, ST_bind, get. cbn [fst snd].
  pose proof (keeps_alloc e st) as H. simpl in *. exact H.
Qed.

End WithKernel.

Create HintDb keeps.

#[global] Hint Resolve keeps_ret keeps_raise keeps_lift keeps_get keeps_when
  keeps_for_each keeps_set_connector_1_state keeps_set_connector_2_state
  keeps_transform keeps_copy : keeps.

(** Decompose a method along its binds and branches. *)
Ltac keeps_step :=
  lazymatch goal with
  | |- keeps_closed (_ ≫= _) => apply keeps_bind; [|intros ?]
  | |- keeps_closed (when _ _) => apply keeps_when
  | |- keeps_closed (for_each _ _) => apply keeps_for_each; intros ?
  | |- keeps_closed (if ?b then _ else _) => destruct b
  | |- keeps_closed (match ?x with _ => _ end) => destruct x
  | |- keeps_closed (modify _) =>
      apply keeps_modify_graph; intros ?; reflexivity
  | |- keeps_closed _ => solve [auto with keeps]
  end.

Ltac keeps_auto := repeat keeps_step.

Section Methods.
Context `{K : Kernel} `{Rd : Rounding}.

Lemma keeps_deref r : keeps_closed (deref r).
Proof. unfold deref. keeps_auto. Qed.

Lemma keeps_global n : keeps_closed (global n).
Proof. unfold global. keeps_auto. Qed.

Lemma keeps_number_of_nodes : keeps_closed number_of_nodes.
Proof. unfold number_of_nodes. keeps_auto. Qed.

Lemma keeps_node_element k : keeps_closed (node_element k).
Proof. unfold node_element. keeps_auto. Qed.

Lemma keeps_nodes_where_element r : keeps_closed (nodes_where_element r).
Proof. unfold nodes_where_element. keeps_auto. Qed.

Lemma keeps_add_node key d kw : keeps_closed (add_node key d kw).
Proof. unfold add_node. keeps_auto. Qed.

Lemma keeps_add_edge u v kw : keeps_closed (add_edge u v kw).
Proof.
  pose proof keeps_add_node.
  unfold add_edge. keeps_auto.
Qed.

Lemma keeps_add_element r key d kw : keeps_closed (add_element r key d kw).
Proof.
  pose proof keeps_add_node. pose proof keeps_deref.
  unfold add_element. keeps_auto.
Qed.

Lemma keeps_update_connectors_states k flip r u :
  keeps_closed (update_connectors_states k flip r u).
Proof.
  pose proof keeps_node_element. pose proof keeps_number_of_nodes.
  pose proof keeps_deref.
  unfold update_connectors_states. keeps_auto.
Qed.

Lemma keeps_add_rf_unit_element k flip a s p g u fi fe :
  keeps_closed (add_rf_unit_element k flip a s p g u fi fe).
Proof.
  pose proof keeps_node_element. pose proof keeps_number_of_nodes.
  pose proof keeps_deref. pose proof keeps_global.
  pose proof keeps_add_element. pose proof keeps_add_edge.
  pose proof keeps_update_connectors_states.
  unfold add_rf_unit_element. keeps_auto.
Qed.

Lemma keeps_close_rf_unit k flip a s g fi fe :
  keeps_closed (close_rf_unit k flip a s g fi fe).
Proof.
  pose proof keeps_add_rf_unit_element. pose proof keeps_nodes_where_element.
  unfold close_rf_unit. keeps_auto.
Qed.

Lemma keeps_range_filter b : keeps_closed (range_filter b).
Proof.
  pose proof keeps_node_element. pose proof keeps_deref.
  unfold range_filter, range_filter_element. keeps_auto.
Qed.

Lemma run_op_closed_stay (o : op) (st : state) : closed_stay st (run_op o st).
Proof.
  destruct o; simpl.
  - apply keeps_add_rf_unit_element.
  - apply keeps_close_rf_unit.
  - apply keeps_update_connectors_states.
  - apply keeps_range_filter.
Qed.

Lemma run_closed_stay (ops : list op) (st : state) : closed_stay st (run ops st).
Proof.
  revert st. induction ops as [|o ops IH]; intros st; simpl.
  - apply closed_stay_refl.
  - eapply closed_stay_trans; [apply run_op_closed_stay|apply IH].
Qed.

Lemma run_app (ops1 ops2 : list op) (st : state) :
  run (ops1 ++ ops2) st = run ops2 (run ops1 st).
Proof. unfold run. apply foldl_app. Qed.

End Methods.

(** C6: connector monotonicity. Take any session, a sequence of calls of
    [add_rf_unit_element], [close_rf_unit], [update_connectors_states]
    and [range_filter] from any assembly, and any two moments of it: an
    element that exists at the earlier moment still exists at the later
    one, and each of its connectors that is closed ([false]) at the
    earlier moment is closed at the later one. *)
Theorem C6_connector_monotonicity `{K : Kernel} `{Rd : Rounding}
    (st : state) (before after : list op) (r : ref) (e : Element) :
  heap (run before st) !! r = Some e ->
  exists e', heap (run (before ++ after) st) !! r = Some e'
    /\ (connector_1_state e = false -> connector_1_state e' = false)
    /\ (connector_2_state e = false -> connector_2_state e' = false).
Proof.
  intros He. rewrite run_app.
  destruct (run_closed_stay after (run before st) r e He) as (e' & He' & H1 & H2).
  exists e'. split; [exact He'|].
  split; intros Hc.
  - destruct (connector_1_state e') eqn:E; [|reflexivity].
    rewrite H1 in Hc; [discriminate|reflexivity].
  - destruct (connector_2_state e') eqn:E; [|reflexivity].
    rewrite H2 in Hc; [discriminate|reflexivity].
Qed.

Lemma C6_connector_monotonicity_witness :
  exists e',
    heap (run ([Op_close_rf_unit 0 "AB" 0%Qc 0%Qc false VNone VNone]
               ++ [@Op_range_filter unit_kernel tt]) (one_element true true)) !! 0%nat
      = Some e'
    /\ (connector_1_state (unit_element false true) = false ->
          connector_1_state e' = false)
    /\ (connector_2_state (unit_element false true) = false ->
          connector_2_state e' = false).
Proof.
  apply (C6_connector_monotonicity (one_element true true)
           [Op_close_rf_unit 0 "AB" 0%Qc 0%Qc false VNone VNone]
           [@Op_range_filter unit_kernel tt] 0%nat (unit_element false true)).
  vm_compute. reflexivity.
Defined.

End ConnectorFacts.

(** ** The assembly: placement *)

Module PlacementFacts.
Import Assembly Contracts.

Lemma valid_flip_cases (flip : string) :
  valid_flip flip = true <->
  flip = "AA" \/ flip = "AB" \/ flip = "BA" \/ flip = "BB".
Proof.
  unfold valid_flip.
  destruct (String.eqb_spec flip "AA"), (String.eqb_spec flip "AB"),
    (String.eqb_spec flip "BA"), (String.eqb_spec flip "BB");
    simpl; intuition congruence.
Qed.

Lemma flip_signs_invalid (flip : string) (c : Z) :
  valid_flip flip = false -> flip_signs flip c = (None, None).
Proof.
  unfold flip_signs, valid_flip.
  destruct (String.eqb flip "AA"), (String.eqb flip "AB"),
    (String.eqb flip "BA"), (String.eqb flip "BB"); simpl;
    congruence.
Qed.

Lemma flip_signs_valid (flip : string) (c : Z) :
  valid_flip flip = true -> exists a b, flip_signs flip c = (Some a, Some b).
Proof.
  intros H. apply valid_flip_cases in H.
  destruct H as [-> | [-> | [-> | ->]]]; vm_compute; eauto.
Qed.

Section WithKernel.
Context `{K : Kernel} `{Rd : Rounding}.

(** *** Calls that return: one equation per method *)

Lemma bind_ok {A B} (m : ST state A) (f : A -> ST state B) st st1 a :
  m st = (st1, Ok a) -> (m ≫= f) st = f a st1.
Proof. intros H. unfold mbind, ST_bind. rewrite H. reflexivity. Qed.

Lemma bind_raise {A B} (m : ST state A) (f : A -> ST state B) st st1 e :
  m st = (st1, Raise e) -> (m ≫= f) st = (st1, Raise e).
Proof. intros H. unfold mbind, ST_bind. rewrite H. reflexivity. Qed.

Lemma global_ok st n q :
  globals st !! n = Some q -> global n st = (st, Ok q).
Proof. intros H. unfold global, mbind, ST_bind, get, lift. simpl. rewrite H. reflexivity. Qed.

Lemma node_element_ok st k attrs r :
  node st !! k = Some attrs -> attrs !! "element" = Some (VElem r) ->
  node_element k st = (st, Ok r).
Proof.
  intros H1 H2. unfold node_element, mbind, ST_bind, get, lift. simpl.
  rewrite H1. simpl. rewrite H2. reflexivity.
Qed.

Lemma deref_ok st r e :
  heap st !! r = Some e -> deref r st = (st, Ok e).
Proof. intros H. unfold deref, mbind, ST_bind, get, lift. simpl. rewrite H. reflexivity. Qed.

Lemma copy_ok st r e :
  heap st !! r = Some e ->
  copy r st = (set_heap (insert (fresh (dom (heap st))) e) st,
               Ok (fresh (dom (heap st)))).
Proof.
  intros H. unfold copy. erewrite bind_ok by (apply deref_ok; exact H).
  reflexivity.
Qed.

(** *** Lookups *)

Lemma reads_global n : reads (global n).
Proof. intros st. reflexivity. Qed.

Lemma reads_number_of_nodes : reads number_of_nodes.
Proof. intros st. reflexivity. Qed.

Lemma reads_node_element k : reads (node_element k).
Proof.
  intros st. unfold node_element, mbind, ST_bind, get, lift, raise. simpl.
  destruct (node st !! k) as [attrs|]; simpl; [|reflexivity].
  destruct (attrs !! "element") as [[]|]; reflexivity.
Qed.

Lemma reads_deref r : reads (deref r).
Proof. intros st. reflexivity. Qed.

(** A lookup followed by the rest of the method: the rest runs from the
    same store, or the exception of the lookup comes out of it. *)
Lemma bind_reads {A B} (m : ST state A) (f : A -> ST state B) (st : state)
    (Q : state * result B -> Prop) :
  reads m ->
  (forall a, m st = (st, Ok a) -> Q (f a st)) ->
  (forall e, m st = (st, Raise e) -> Q (st, Raise e)) ->
  Q ((m ≫= f) st).
Proof.
  intros Hm Hok Hraise. unfold mbind, ST_bind.
  specialize (Hm st). destruct (m st) as [st1 [a|e]]; simpl in Hm; subst st1.
  - apply Hok. reflexivity.
  - apply Hraise. reflexivity.
Qed.

Lemma copy_graph st r :
  node (fst (copy r st)) = node st /\ edge (fst (copy r st)) = edge st.
Proof.
  unfold copy, deref, mbind, ST_bind, get, lift. simpl.
  destruct (heap st !! r); simpl; auto.
Qed.

Lemma rejected_lookup st e :
  e = KeyError \/ e = AttributeError -> rejected st (st, Raise e).
Proof.
  intros He. split; [|split; reflexivity].
  exists e. split; [reflexivity|]. unfold early_exn. tauto.
Qed.

Lemma global_raise st n e : global n st = (st, Raise e) -> e = KeyError.
Proof.
  unfold global, mbind, ST_bind, get, lift, getitem. simpl.
  destruct (globals st !! n); congruence.
Qed.

Lemma node_element_raise st k e :
  node_element k st = (st, Raise e) -> e = KeyError \/ e = AttributeError.
Proof.
  unfold node_element, mbind, ST_bind, get, lift, raise, getitem. simpl.
  destruct (node st !! k) as [attrs|]; simpl; [|intros [= <-]; auto].
  destruct (attrs !! "element") as [[]|]; intros [= <-]; auto.
Qed.

Lemma deref_raise st r e : deref r st = (st, Raise e) -> e = AttributeError.
Proof.
  unfold deref, mbind, ST_bind, get, lift, getitem. simpl.
  destruct (heap st !! r); congruence.
Qed.

Lemma add_rf_unit_element_invalid_flip (st : state) (current_key : Z)
    (flip : string) (angle shift_value : Qc) (placed_by : string)
    (on_ground : bool) (unit_index : Z) (frame_id frame_est : value) :
  valid_flip flip = false ->
  rejected st (add_rf_unit_element current_key flip angle shift_value
                 placed_by on_ground unit_index frame_id frame_est st).
Proof.
  intros Hf. unfold add_rf_unit_element.
  do 4 (apply bind_reads; [apply reads_global|intros ? _|
    intros e He; apply rejected_lookup; left; exact (global_raise _ _ _ He)]).
  apply bind_reads; [apply reads_number_of_nodes|intros N _|discriminate].
  apply bind_reads; [apply reads_node_element|intros current_elem _|
    intros e He; apply rejected_lookup; exact (node_element_raise _ _ _ He)].
  apply bind_reads; [apply reads_deref|intros ce _|
    intros e He; apply rejected_lookup; right; exact (deref_raise _ _ _ He)].
  destruct (find_open_connector ce) as [ccf c]. cbn iota zeta.
  rewrite flip_signs_invalid by exact Hf. cbn iota zeta.
  all: pose proof (copy_graph st current_elem) as [Gn Ge].
  all: destruct (copy current_elem st) as [st1 [new_elem|e]] eqn:Ec;
    simpl in Gn, Ge.
  all: try (rewrite (bind_raise _ _ _ _ _ Ec); split; [|split; assumption];
            exists e; split; [reflexivity|];
            unfold copy in Ec;
            destruct (deref current_elem st) as [s [x|e']] eqn:Ed;
            [ rewrite (bind_ok _ _ _ _ _ Ed) in Ec; discriminate
            | rewrite (bind_raise _ _ _ _ _ Ed) in Ec;
              pose proof (reads_deref current_elem st) as Hs;
              rewrite Ed in Hs; simpl in Hs; subst s;
              injection Ec as _ <-;
              right; left; exact (deref_raise _ _ _ Ed) ]).
  all: rewrite (bind_ok _ _ _ _ _ Ec).
  all: apply bind_reads; [apply reads_deref|intros ne _|
    intros e He; split; [|split; assumption];
    exists e; split; [reflexivity|]; right; left;
    exact (deref_raise _ _ _ He)].
  all: destruct (String.eqb placed_by "robot"); simpl.
  all: (split; [|split; assumption]); eexists; (split; [reflexivity|]).
  all: unfold early_exn; tauto.
Qed.

(** *** The network *)

Lemma add_node_fresh_nodes (nd : gmap Z (gmap string value)) k
    (attr : gmap string value) :
  alter (fun old => attr ∪ old) k (<[k := ∅]> nd) = <[k := attr]> nd.
Proof.
  apply map_eq. intros j. rewrite lookup_alter.
  case_decide as Hd.
  - subst j. rewrite !lookup_insert_eq. simpl.
    by rewrite (right_id_L ∅ (∪)).
  - by rewrite !lookup_insert_ne.
Qed.

Lemma add_node_fresh st d kw :
  node st !! (max_node st + 1) = None ->
  add_node None d kw st
  = (mkState (<[max_node st + 1 := kw ∪ d]> (node st)) (edge st)
       (max_node st + 1) (heap st) (attr_dict_default st) (globals st),
     Ok (max_node st + 1, kw ∪ d)).
Proof.
  intros Hk. unfold add_node, mbind, ST_bind, get, modify, when. simpl.
  rewrite (bool_decide_eq_true_2 (max_node st < max_node st + 1)) by lia.
  simpl. rewrite (bool_decide_eq_true_2 _ Hk). simpl.
  unfold set_node; simpl. rewrite add_node_fresh_nodes. reflexivity.
Qed.

Lemma own_attr_lookup (n : string) (x y z e : value) :
  own_attr n = false ->
  (<["x" := x]> (<["y" := y]> (<["z" := z]>
     ({["element" := e]} : gmap string value)))) !! n = None.
Proof.
  unfold own_attr. intros H.
  destruct (String.eqb_spec n "x"); [discriminate|].
  destruct (String.eqb_spec n "y"); [discriminate|].
  destruct (String.eqb_spec n "z"); [discriminate|].
  destruct (String.eqb_spec n "element"); [discriminate|].
  by simplify_map_eq.
Qed.

(** [add_element] with the default key and the default [attr_dict]: the
    new node gets the key after [_max_node]; its attributes are the
    element and its position, then the keyword attributes of the call,
    then whatever the shared default dict already held; and the keyword
    attributes stay behind in the shared dict. *)
Lemma add_element_fresh st r el kw :
  heap st !! r = Some el ->
  node st !! (max_node st + 1) = None ->
  exists dd attrs,
    add_element r None None kw st
    = (mkState (<[max_node st + 1 := attrs]> (node st)) (edge st)
         (max_node st + 1) (heap st) dd (globals st),
       Ok (max_node st + 1))
    /\ attrs !! "element" = Some (VElem r)
    /\ (forall n, own_attr n = false ->
          attrs !! n = (kw ∪ attr_dict_default st) !! n)
    /\ (forall n, own_attr n = false ->
          dd !! n = (kw ∪ attr_dict_default st) !! n).
Proof.
  intros Hr Hk. unfold add_element.
  destruct (point_xyz (frame_point (frame el))) as [[x y] z] eqn:Exyz.
  set (d := kw ∪ attr_dict_default st).
  set (kw' := <["x" := VNum x]> (<["y" := VNum y]> (<["z" := VNum z]>
                ({["element" := VElem r]} : gmap string value)))).
  exists (if bool_decide (size d = 0%nat) then d else kw' ∪ d), (kw' ∪ d).
  split; [|split; [|split]].
  - unfold mbind at 1, ST_bind at 1, get. cbn iota beta.
    cbn [default]. fold d.
    rewrite (bool_decide_eq_true_2 (None = None)) by reflexivity.
    cbn [when].
    unfold mbind at 1, ST_bind at 1, modify. cbn iota beta.
    erewrite bind_ok; [|apply deref_ok; simpl; exact Hr].
    rewrite Exyz. fold kw'.
    erewrite bind_ok; [|apply add_node_fresh; simpl; exact Hk].
    cbn [andb]. destruct (bool_decide (size d = 0%nat)); reflexivity.
  - apply lookup_union_Some_l. subst kw'. by simplify_map_eq.
  - intros n Hn. apply lookup_union_r. apply own_attr_lookup, Hn.
  - intros n Hn. case_bool_decide; [reflexivity|].
    apply lookup_union_r. apply own_attr_lookup, Hn.
Qed.

Lemma add_edge_ok st u v kw :
  is_Some (node st !! u) -> is_Some (node st !! v) ->
  add_edge u v kw st
  = (set_edge (insert (u, v) (kw ∪ default ∅ (edge st !! (u, v)))) st,
     Ok (u, v)).
Proof.
  intros [au Hu] [av Hv].
  unfold add_edge, mbind, ST_bind, get, modify, when. simpl.
  rewrite bool_decide_eq_false_2 by congruence. simpl.
  rewrite bool_decide_eq_false_2 by congruence. simpl.
  reflexivity.
Qed.

Lemma number_of_nodes_ok st :
  number_of_nodes st = (st, Ok (Z.of_nat (size (node st)))).
Proof. reflexivity. Qed.

(** *** Methods that only update element attributes *)

Lemma heap_update_refl st : heap_update st st.
Proof. unfold heap_update. tauto. Qed.

Lemma heap_update_trans st1 st2 st3 :
  heap_update st1 st2 -> heap_update st2 st3 -> heap_update st1 st3.
Proof.
  unfold heap_update. intros (?&?&?&?&?&?) (?&?&?&?&?&?).
  repeat split; congruence.
Qed.

Lemma heap_update_alter st f r : heap_update st (set_heap (alter f r) st).
Proof.
  unfold heap_update; simpl. repeat split; try reflexivity.
  apply dom_alter_L.
Qed.

Lemma heap_update_live st st' r :
  heap_update st st' -> is_Some (heap st !! r) -> is_Some (heap st' !! r).
Proof.
  intros (_&_&_&_&_&Hd) Hr.
  apply elem_of_dom. rewrite Hd. apply elem_of_dom. exact Hr.
Qed.

Section Settles.
Variable nd : gmap Z (gmap string value).
Variable cur : ref.

Lemma settles_ret {A} (a : A) (Q : A -> Prop) :
  Q a -> settles nd cur (mret a) Q.
Proof.
  intros Ha st _ _. exists st, a.
  split; [reflexivity|]. split; [apply heap_update_refl|exact Ha].
Qed.

Lemma settles_bind {A B} (m : ST state A) (f : A -> ST state B)
    (Q : A -> Prop) (R : B -> Prop) :
  settles nd cur m Q -> (forall a, Q a -> settles nd cur (f a) R) ->
  settles nd cur (m ≫= f) R.
Proof.
  intros Hm Hf st Hnd Hcur.
  destruct (Hm st Hnd Hcur) as (st1 & a & E & Hu & Ha).
  destruct (Hf a Ha st1) as (st2 & b & E2 & Hu2 & Hb).
  - destruct Hu as (-> & _). exact Hnd.
  - eapply heap_update_live; eassumption.
  - exists st2, b. rewrite (bind_ok _ _ _ _ _ E).
    split; [exact E2|]. split; [|exact Hb].
    eapply heap_update_trans; eassumption.
Qed.

Lemma settles_when (b : bool) (m : ST state unit) :
  settles nd cur m (fun _ => True) -> settles nd cur (when b m) (fun _ => True).
Proof. destruct b; simpl; [auto|intros _; by apply settles_ret]. Qed.

Lemma settles_set_connector_1_state r b :
  settles nd cur (set_connector_1_state r b) (fun _ => True).
Proof.
  intros st _ _. eexists _, tt. split; [reflexivity|].
  split; [apply heap_update_alter|exact I].
Qed.

Lemma settles_set_connector_2_state r b :
  settles nd cur (set_connector_2_state r b) (fun _ => True).
Proof.
  intros st _ _. eexists _, tt. split; [reflexivity|].
  split; [apply heap_update_alter|exact I].
Qed.

Lemma settles_deref : settles nd cur (deref cur) (fun _ => True).
Proof.
  intros st _ [e He]. exists st, e.
  split; [apply deref_ok, He|]. split; [apply heap_update_refl|exact I].
Qed.

Lemma settles_number_of_nodes :
  settles nd cur number_of_nodes (fun n => n = Z.of_nat (size nd)).
Proof.
  intros st Hnd _. eexists st, _. split; [apply number_of_nodes_ok|].
  split; [apply heap_update_refl|]. by rewrite Hnd.
Qed.

Lemma settles_node_element k attrs r :
  nd !! k = Some attrs -> attrs !! "element" = Some (VElem r) ->
  settles nd cur (node_element k) (fun x => x = r).
Proof.
  intros Hk Hr st Hnd _. exists st, r.
  split; [eapply node_element_ok; [rewrite Hnd|]; eassumption|].
  split; [apply heap_update_refl|reflexivity].
Qed.

End Settles.

Ltac settle_step :=
  lazymatch goal with
  | |- settles _ _ (_ ≫= _) _ => eapply settles_bind; [|intros ? ?]
  | |- settles _ _ (when _ _) _ => apply settles_when
  | |- settles _ _ (if ?b then _ else _) _ => destruct b
  | |- settles _ _ (set_connector_1_state _ _) _ =>
      apply settles_set_connector_1_state
  | |- settles _ _ (set_connector_2_state _ _) _ =>
      apply settles_set_connector_2_state
  | |- settles _ _ (deref _) _ => apply settles_deref
  | |- settles _ _ number_of_nodes _ => apply settles_number_of_nodes
  | |- settles _ _ (mret _) _ => apply settles_ret; try exact I
  end.

(** With at least two nodes that hold elements, the transition of the
    connector states returns. *)
Lemma update_connectors_states_settles nd cur k flip new u ak aprev rprev :
  nd !! k = Some ak -> ak !! "element" = Some (VElem cur) ->
  (2 <= size nd)%nat ->
  nd !! (Z.of_nat (size nd) - 2) = Some aprev ->
  aprev !! "element" = Some (VElem rprev) ->
  settles nd cur (update_connectors_states k flip new u) (fun _ => True).
Proof.
  intros Hk Hcur Hsize Hp Hprev. unfold update_connectors_states.
  eapply settles_bind; [eapply settles_node_element; eassumption|].
  intros ? ->.
  eapply settles_bind; [apply settles_number_of_nodes|]. intros ? ->.
  rewrite (bool_decide_eq_false_2 (Z.of_nat (size nd) < 2)) by lia.
  cbn [when].
  eapply settles_bind;
    [apply settles_ret with (Q := fun _ => True); exact I|]. intros _ _.
  eapply settles_bind; [eapply settles_node_element; eassumption|].
  intros ? ->.
  repeat settle_step.
Qed.

Lemma transform_ok st r T :
  transform r T st
  = (set_heap (alter (fun e => mkElement (frame_transformed (frame e) T)
                        (connector_1_state e) (connector_2_state e)) r) st,
     Ok tt).
Proof. reflexivity. Qed.

Lemma wf_next_key st :
  wf st -> node st !! Z.of_nat (size (node st)) = None.
Proof.
  intros Hwf. apply eq_None_not_Some. intros Hs.
  apply (wf_keys _ Hwf) in Hs. lia.
Qed.

Lemma wf_no_edge_to_next st u :
  wf st -> edge st !! (u, Z.of_nat (size (node st))) = None.
Proof.
  intros Hwf. apply eq_None_not_Some. intros Hs.
  apply (wf_edges _ Hwf) in Hs. destruct Hs as [_ Hs].
  rewrite (wf_next_key _ Hwf) in Hs. by destruct Hs.
Qed.

(** A well-formed assembly extended by one node under the next key. *)
Lemma wf_extend st st' attrs r :
  wf st ->
  node st' = <[Z.of_nat (size (node st)) := attrs]> (node st) ->
  max_node st' = Z.of_nat (size (node st)) ->
  attrs !! "element" = Some (VElem r) ->
  is_Some (heap st' !! r) ->
  (forall x, is_Some (heap st !! x) -> is_Some (heap st' !! x)) ->
  (forall u v, is_Some (edge st' !! (u, v)) ->
     is_Some (edge st !! (u, v))
     \/ (v = Z.of_nat (size (node st)) /\ is_Some (node st !! u))) ->
  globals st' = globals st ->
  wf st'.
Proof.
  intros Hwf Hnode Hmax Hattr Hr Hheap Hedge Hglob.
  pose proof (wf_next_key _ Hwf) as Hnext.
  assert (Hsize : size (node st') = S (size (node st))).
  { rewrite Hnode. by apply map_size_insert_None. }
  split.
  - intros k. rewrite Hsize, Hnode.
    destruct (decide (k = Z.of_nat (size (node st)))) as [->|Hk].
    + rewrite lookup_insert_eq. split; [lia|eauto].
    + rewrite lookup_insert_ne by congruence.
      rewrite (wf_keys _ Hwf). lia.
  - rewrite Hmax, Hsize. lia.
  - intros k a. rewrite Hnode.
    destruct (decide (k = Z.of_nat (size (node st)))) as [->|Hk].
    + rewrite lookup_insert_eq. intros [= <-]. eauto.
    + rewrite lookup_insert_ne by congruence. intros Hk'.
      destruct (wf_elements _ Hwf _ _ Hk') as (x & Hx & Hlive). eauto.
  - intros u v Huv. rewrite Hnode.
    assert (Hmono : forall k, is_Some (node st !! k) ->
              is_Some (<[Z.of_nat (size (node st)) := attrs]> (node st) !! k)).
    { intros k Hk. rewrite lookup_insert_is_Some. right. split; [|exact Hk].
      intros <-. rewrite Hnext in Hk. by destruct Hk. }
    destruct (Hedge u v Huv) as [Hold|[-> Hu]].
    + destruct (wf_edges _ Hwf _ _ Hold) as [Hu Hv]. split; auto.
    + split; [auto|]. rewrite lookup_insert_eq. eauto.
  - intros n Hn. rewrite Hglob. by apply (wf_globals _ Hwf).
Qed.

(** The edges that a placement adds. *)
Lemma add_edges_ok st current_key N (unit_index : Z) :
  is_Some (node st !! current_key) -> is_Some (node st !! N) ->
  is_Some (node st !! (N - 1)) ->
  (forall u, edge st !! (u, N) = None) ->
  (if bool_decide (unit_index = 0) then
     _ ← add_edge current_key N {["edge_to" := VStr "neighbour"]};
     mret tt
   else
     _ ← add_edge (N - 1) N {["edge_to" := VStr "parent"]};
     _ ← add_edge current_key N {["edge_to" := VStr "parent"]};
     mret tt) st
  = (set_edge (fun e =>
       if bool_decide (unit_index = 0)
       then <[(current_key, N) := {["edge_to" := VStr "neighbour"]}]> e
       else <[(current_key, N) := {["edge_to" := VStr "parent"]}]>
              (<[(N - 1, N) := {["edge_to" := VStr "parent"]}]> e)) st,
     Ok tt).
Proof.
  intros Hc HN HN1 Hfree.
  destruct (bool_decide (unit_index = 0)).
  - erewrite bind_ok by (apply add_edge_ok; assumption).
    rewrite Hfree. cbn [default]. rewrite (right_id_L ∅ (∪)). reflexivity.
  - erewrite bind_ok by (apply add_edge_ok; assumption).
    erewrite bind_ok by (apply add_edge_ok; assumption).
    rewrite Hfree. cbn [default]. rewrite (right_id_L ∅ (∪)).
    unfold mret, ST_ret, set_edge; simpl. f_equal. f_equal. f_equal.
    destruct (decide (current_key = N - 1)) as [->|Hd].
    + rewrite lookup_insert_eq. cbn [default].
      by rewrite (idemp_L (∪)).
    + rewrite lookup_insert_ne by congruence.
      rewrite Hfree. cbn [default]. by rewrite (right_id_L ∅ (∪)).
Qed.

(** The placement on a well-formed assembly, with a flip code of the
    table and an existing [current_key]: the call returns the new element
    [r], stored in a new node under the key [N], the number of nodes
    before; the edges are the old ones and the edge(s) to [N] of the
    branch taken; and the assembly stays well-formed. *)
Lemma add_rf_unit_element_returns (st : state) (current_key : Z)
    (flip : string) (angle shift_value : Qc) (placed_by : string)
    (on_ground : bool) (unit_index : Z) (frame_id frame_est : value) :
  wf st -> valid_flip flip = true -> is_Some (node st !! current_key) ->
  let N := Z.of_nat (size (node st)) in
  exists st' r attrs,
    add_rf_unit_element current_key flip angle shift_value placed_by
      on_ground unit_index frame_id frame_est st = (st', Ok r)
    /\ node st !! N = None
    /\ node st' = <[N := attrs]> (node st)
    /\ attrs !! "element" = Some (VElem r)
    /\ attrs !! "placed_by" = Some (VStr placed_by)
    /\ heap st !! r = None /\ is_Some (heap st' !! r)
    /\ edge st' =
       (if bool_decide (unit_index = 0)
        then <[(current_key, N) := {["edge_to" := VStr "neighbour"]}]> (edge st)
        else <[(current_key, N) := {["edge_to" := VStr "parent"]}]>
               (<[(N - 1, N) := {["edge_to" := VStr "parent"]}]> (edge st)))
    /\ wf st'.
Proof.
  intros Hwf Hflip [acur Hcur] N.
  destruct (wf_elements _ Hwf _ _ Hcur) as (rcur & Hrcur & [ce Hce]).
  pose proof (wf_next_key _ Hwf) as Hnext. fold N in Hnext.
  destruct (wf_globals _ Hwf "rod_radius") as [g1 Hg1]; [tauto|].
  destruct (wf_globals _ Hwf "rod_length") as [g2 Hg2]; [tauto|].
  destruct (wf_globals _ Hwf "rf_unit_radius") as [g3 Hg3]; [tauto|].
  destruct (wf_globals _ Hwf "rf_unit_offset") as [g4 Hg4]; [tauto|].
  unfold add_rf_unit_element.
  erewrite bind_ok by (apply global_ok; exact Hg1).
  erewrite bind_ok by (apply global_ok; exact Hg2).
  erewrite bind_ok by (apply global_ok; exact Hg3).
  erewrite bind_ok by (apply global_ok; exact Hg4).
  erewrite bind_ok by apply number_of_nodes_ok. fold N.
  erewrite bind_ok by (eapply node_element_ok; eassumption).
  erewrite bind_ok by (apply deref_ok; exact Hce).
  destruct (find_open_connector ce) as [ccf c]. cbn beta iota zeta.
  destruct (flip_signs_valid flip c Hflip) as (a & b & ->).
  cbn beta iota zeta.
  erewrite bind_ok by (apply copy_ok; exact Hce).
  set (r := fresh (dom (heap st))).
  assert (Hr : heap st !! r = None).
  { apply not_elem_of_dom. apply is_fresh. }
  assert (Hne : rcur ≠ r) by congruence.
  erewrite bind_ok by (apply deref_ok; simpl; apply lookup_insert_eq).
  set (RT := if String.eqb placed_by "robot" then _ else _).
  assert (HRT : exists R1 T1, forall s, RT s = (s, Ok (R1, T1))).
  { subst RT. destruct (String.eqb placed_by "robot"); eauto. }
  destruct HRT as (R1 & T1 & HRT).
  erewrite bind_ok by apply HRT. cbn beta iota zeta.
  erewrite bind_ok by apply transform_ok.
  erewrite bind_ok.
  2:{ apply deref_ok. simpl. rewrite lookup_alter_ne by congruence.
      rewrite lookup_insert_ne by congruence. exact Hce. }
  erewrite bind_ok by apply transform_ok.
  match goal with
  | |- context [ (add_element r None None ?k ≫= _) ?s ] =>
      set (kw := k); set (st3 := s)
  end.
  assert (H3 : exists el, heap st3 !! r = Some el).
  { subst st3. simpl. rewrite !lookup_alter_eq, lookup_insert_eq.
    simpl. eauto. }
  destruct H3 as [el Hel].
  assert (Hmax3 : max_node st3 + 1 = N).
  { subst st3. simpl. rewrite (wf_max _ Hwf). subst N. lia. }
  destruct (add_element_fresh st3 r el kw Hel) as (dd & attrs & E & Ha1 & Ha2 & _).
  { rewrite Hmax3. exact Hnext. }
  rewrite Hmax3 in E.
  rewrite (bind_ok _ _ _ _ _ E). clear E.
  assert (Hnode3 : node st3 = node st) by reflexivity.
  assert (Hedge3 : edge st3 = edge st) by reflexivity.
  assert (Hglob3 : globals st3 = globals st) by reflexivity.
  assert (Hlive3 : forall x, is_Some (heap st !! x) -> is_Some (heap st3 !! x)).
  { intros x Hx. subst st3. simpl. rewrite !lookup_alter_is_Some.
    rewrite lookup_insert_is_Some. destruct (decide (r = x)); auto. }
  rewrite Hnode3, Hedge3, Hglob3.
  set (st4 := mkState _ _ _ _ _ _).
  assert (HN1 : is_Some (node st !! (N - 1))).
  { apply (wf_keys _ Hwf).
    assert (0 <= current_key < N) by (apply (wf_keys _ Hwf); eauto).
    lia. }
  erewrite bind_ok.
  2:{ apply add_edges_ok; simpl.
      - rewrite lookup_insert_is_Some. right. split; [congruence|eauto].
      - rewrite lookup_insert_eq. eauto.
      - rewrite lookup_insert_is_Some. right. split; [lia|exact HN1].
      - intros u. apply wf_no_edge_to_next, Hwf. }
  set (st5 := set_edge _ st4).
  destruct HN1 as [aprev Hprev].
  destruct (wf_elements _ Hwf _ _ Hprev) as (rprev & Hrprev & _).
  assert (Hsize : size (<[N := attrs]> (node st)) = S (size (node st)))
    by (by apply map_size_insert_None).
  assert (Hsuffix : settles (<[N := attrs]> (node st)) rcur
            (_ ← update_connectors_states current_key flip r unit_index;
             _ ← when (bool_decide (unit_index = 1))
                   (ce0 ← deref rcur;
                    if connector_1_state ce0
                    then set_connector_1_state rcur false
                    else set_connector_2_state rcur false);
             mret r)
            (fun x => x = r)).
  { eapply settles_bind.
    - eapply (update_connectors_states_settles _ _ _ _ _ _ acur aprev rprev).
      + rewrite lookup_insert_ne by congruence. exact Hcur.
      + exact Hrcur.
      + rewrite Hsize. assert (0 <= current_key < N)
          by (apply (wf_keys _ Hwf); eauto). lia.
      + rewrite Hsize. rewrite lookup_insert_ne by lia.
        replace (Z.of_nat (S (size (node st))) - 2) with (N - 1) by lia.
        exact Hprev.
      + exact Hrprev.
    - intros _ _. repeat settle_step. reflexivity. }
  destruct (Hsuffix st5) as (st' & x & E & Hu & ->).
  { reflexivity. }
  { apply Hlive3. eauto. }
  rewrite E.
  destruct Hu as (Hn' & He' & Hm' & _ & Hg' & Hd').
  assert (Hlive' : forall y, is_Some (heap st3 !! y) -> is_Some (heap st' !! y)).
  { intros y Hy. apply elem_of_dom. rewrite Hd'. apply elem_of_dom. exact Hy. }
  exists st', r, attrs.
  split; [reflexivity|]. split; [exact Hnext|]. split; [exact Hn'|].
  split; [exact Ha1|].
  split.
  { rewrite Ha2 by reflexivity. apply lookup_union_Some_l.
    subst kw. by simplify_map_eq. }
  split; [exact Hr|]. split; [apply Hlive'; eauto|].
  split; [exact He'|].
  assert (Hc : 0 <= current_key < N) by (apply (wf_keys _ Hwf); eauto).
  assert (Hp : is_Some (node st !! (N - 1)))
    by (apply (wf_keys _ Hwf); lia).
  eapply (wf_extend st st' attrs r Hwf);
    [exact Hn'|exact Hm'|exact Ha1|apply Hlive'; eauto|auto| |exact Hg'].
  intros u v. rewrite He'. simpl.
  destruct (bool_decide (unit_index = 0));
    rewrite ?lookup_insert_is_Some; intros Huv.
  - destruct Huv as [[= <- <-]|[_ Hold]]; [right|left]; eauto.
  - destruct Huv as [[= <- <-]|[_ [[= <- <-]|[_ Hold]]]];
      [right|right|left]; eauto.
Qed.

(** *** Well-formed assemblies *)

Lemma wf_loose (h : gmap ref Element) (d : gmap string value)
    (g : gmap string Qc) :
  (forall n, n = "rod_radius" \/ n = "rod_length"
             \/ n = "rf_unit_radius" \/ n = "rf_unit_offset" ->
             is_Some (g !! n)) ->
  wf (mkState ∅ ∅ (-1) h d g).
Proof.
  intros Hg. split; simpl.
  - intros k. rewrite lookup_empty, map_size_empty.
    split; [intros []; discriminate|lia].
  - rewrite map_size_empty. reflexivity.
  - intros k attrs. rewrite lookup_empty. discriminate.
  - intros u v. rewrite lookup_empty. intros []; discriminate.
  - exact Hg.
Qed.

Lemma wf_add_element st r el kw :
  wf st -> heap st !! r = Some el ->
  exists st' attrs,
    add_element r None None kw st
      = (st', Ok (Z.of_nat (size (node st))))
    /\ node st' = <[Z.of_nat (size (node st)) := attrs]> (node st)
    /\ heap st' = heap st
    /\ (forall n, own_attr n = false ->
          attrs !! n = (kw ∪ attr_dict_default st) !! n)
    /\ (forall n, own_attr n = false ->
          attr_dict_default st' !! n = (kw ∪ attr_dict_default st) !! n)
    /\ wf st'.
Proof.
  intros Hwf Hr.
  assert (Hmax : max_node st + 1 = Z.of_nat (size (node st)))
    by (rewrite (wf_max _ Hwf); lia).
  destruct (add_element_fresh st r el kw Hr) as (dd & attrs & E & Ha & Hb & Hc).
  { rewrite Hmax. by apply wf_next_key. }
  rewrite Hmax in E.
  eexists _, attrs. split; [exact E|]. simpl.
  split; [reflexivity|]. split; [reflexivity|].
  split; [exact Hb|]. split; [exact Hc|].
  eapply (wf_extend st _ attrs r Hwf); simpl; eauto.
Qed.

Lemma example_globals_set n :
  n = "rod_radius" \/ n = "rod_length"
  \/ n = "rf_unit_radius" \/ n = "rf_unit_offset" ->
  is_Some (example_globals !! n).
Proof. intros [-> | [-> | [-> | ->]]]; vm_compute; eauto. Qed.

End WithKernel.

Lemma wf_one_element (c1 c2 : bool) : wf (one_element c1 c2).
Proof.
  unfold one_element.
  edestruct (wf_add_element
    (loose_elements {[0%nat := unit_element c1 c2]})
    0%nat (unit_element c1 c2) ∅) as (st' & attrs & E & _ & _ & _ & _ & Hwf).
  - apply wf_loose, example_globals_set.
  - reflexivity.
  - rewrite E. exact Hwf.
Qed.

Lemma has_open_connector_node `{K : Kernel} (st : state) (k : Z) :
  has_open_connector st k = true -> is_Some (node st !! k).
Proof.
  unfold has_open_connector, element_at.
  destruct (node st !! k); [eauto|discriminate].
Qed.

(** C8: a flip code outside the table. For every assembly and every
    other argument, [add_rf_unit_element] called with a flip code that is
    none of AA, AB, BA, BB raises: [a] and [b] are unbound when the
    translation is computed, so the call stops with [UnboundLocalError]
    (or earlier with the [KeyError] or [AttributeError] of a lookup), no
    entry of the table is taken, and the nodes and the edges of the graph
    are the ones before the call. *)
Theorem C8_invalid_flip_rejected `{K : Kernel} `{Rd : Rounding} (st : state) (current_key : Z)
    (flip : string) (angle shift_value : Qc) (placed_by : string)
    (on_ground : bool) (unit_index : Z) (frame_id frame_est : value) :
  valid_flip flip = false ->
  let out := add_rf_unit_element current_key flip angle shift_value
               placed_by on_ground unit_index frame_id frame_est st in
  (exists e, snd out = Raise e /\ early_exn e)
  /\ flip_signs flip 1 = (None, None) /\ flip_signs flip (-1) = (None, None)
  /\ node (fst out) = node st /\ edge (fst out) = edge st.
Proof.
  intros Hf out.
  destruct (add_rf_unit_element_invalid_flip st current_key flip angle
              shift_value placed_by on_ground unit_index frame_id frame_est Hf)
    as (He & Hn & Hed).
  split; [exact He|].
  split; [apply flip_signs_invalid, Hf|].
  split; [apply flip_signs_invalid, Hf|].
  split; assumption.
Qed.

Lemma C8_invalid_flip_rejected_witness :
  let out := add_rf_unit_element 0 "AC" 0%Qc 0%Qc "human" false 0 VNone VNone
               (one_element true true) in
  (exists e, snd out = Raise e /\ early_exn e)
  /\ flip_signs "AC" 1 = (None, None) /\ flip_signs "AC" (-1) = (None, None)
  /\ node (fst out) = node (one_element true true)
  /\ edge (fst out) = edge (one_element true true).
Proof.
  apply (C8_invalid_flip_rejected (one_element true true) 0 "AC").
  reflexivity.
Defined.

(** On the assembly of one element with an open connector, the
    exception of a call with the code "AC" is the unbound [b] of the
    human branch. *)
Example invalid_flip_human :
  snd (add_rf_unit_element 0 "AC" 0%Qc 0%Qc "human" false 0 VNone VNone
         (one_element true true))
  = Raise (UnboundLocalError "b").
Proof. vm_compute. reflexivity. Qed.

(** C5 as stated fails: on the assembly of one element (key 0, both
    connectors open), the call with [current_key = 0], flip AA, actor
    robot and [unit_index = 1] returns, but the two [add_edge] calls name
    the same pair (0, 1): the graph has one edge more, not two. *)
Lemma C5_counterexample :
  let st := one_element true true in
  let out := add_rf_unit_element 0 "AA" 0%Qc 0%Qc "robot" false 1 VNone VNone st in
  has_open_connector st 0 = true
  /\ valid_flip "AA" = true
  /\ snd out = Ok 1%nat
  /\ size (edge st) = 0%nat
  /\ size (edge (fst out)) = 1%nat
  /\ size (edge (fst out)) <> (size (edge st) + 2)%nat.
Proof. vm_compute. repeat split; discriminate. Qed.

(** Why the keys must be [0 .. N-1]: the edges go to the key [N], the
    number of nodes, while the new node gets the key after [_max_node].
    With one node under the key 5, the new node is 6, the edge goes to a
    node 1 that [add_edge] creates without an element, and the call ends
    in the [KeyError] of [update_connectors_states]. *)
Example sparse_keys_misplace_edge :
  let out := add_rf_unit_element 5 "AA" 0%Qc 0%Qc "robot" false 0 VNone VNone
               sparse_keys in
  snd out = Raise KeyError
  /\ fst <$> map_to_list (edge (fst out)) = [(5, 1)]
  /\ is_Some (node (fst out) !! 6)
  /\ element_at (fst out) 1 = None.
Proof. vm_compute. repeat split. eauto. Qed.

(** C5, amended: on a well-formed assembly (keys [0 .. N-1]), for every
    flip code of the table, every actor and a current element with an
    open connector, one call adds exactly one node, under the key [N],
    holding the returned element. With [unit_index = 0] it adds exactly
    the edge [(current_key, N)] tagged [neighbour]. With [unit_index = 1]
    it adds the edges [(N-1, N)] and [(current_key, N)] tagged [parent]:
    two edges when [current_key] is not [N-1], the previously added
    node, and one edge when it is. *)
Theorem C5_placement_adds_node_and_edges `{K : Kernel} `{Rd : Rounding} (st : state)
    (current_key : Z) (flip : string) (angle shift_value : Qc)
    (placed_by : string) (on_ground : bool) (unit_index : Z)
    (frame_id frame_est : value) :
  wf st -> valid_flip flip = true ->
  has_open_connector st current_key = true ->
  let N := Z.of_nat (size (node st)) in
  let neighbour : gmap string value := {["edge_to" := VStr "neighbour"]} in
  let parent : gmap string value := {["edge_to" := VStr "parent"]} in
  exists st' r attrs,
    add_rf_unit_element current_key flip angle shift_value placed_by
      on_ground unit_index frame_id frame_est st = (st', Ok r)
    /\ node st !! N = None
    /\ node st' = <[N := attrs]> (node st)
    /\ attrs !! "element" = Some (VElem r)
    /\ size (node st') = S (size (node st))
    /\ (unit_index = 0 ->
          edge st !! (current_key, N) = None
          /\ edge st' = <[(current_key, N) := neighbour]> (edge st)
          /\ size (edge st') = S (size (edge st)))
    /\ (unit_index = 1 ->
          edge st !! (current_key, N) = None
          /\ edge st !! (N - 1, N) = None
          /\ edge st' = <[(current_key, N) := parent]>
                          (<[(N - 1, N) := parent]> (edge st))
          /\ size (edge st') =
             if bool_decide (current_key = N - 1) then S (size (edge st))
             else S (S (size (edge st)))).
Proof.
  intros Hwf Hflip Hopen N neighbour parent.
  destruct (add_rf_unit_element_returns st current_key flip angle
              shift_value placed_by on_ground unit_index frame_id frame_est
              Hwf Hflip (has_open_connector_node _ _ Hopen))
    as (st' & r & attrs & E & Hnext & Hnode & Ha & _ & _ & _ & Hedge & _).
  fold N in E, Hnext, Hnode, Hedge.
  exists st', r, attrs.
  split; [exact E|]. split; [exact Hnext|]. split; [exact Hnode|].
  split; [exact Ha|].
  split; [rewrite Hnode; by apply map_size_insert_None|].
  pose proof (wf_no_edge_to_next st current_key Hwf) as Hc.
  pose proof (wf_no_edge_to_next st (N - 1) Hwf) as Hp.
  fold N in Hc, Hp.
  split; intros ->; simpl in Hedge.
  - split; [exact Hc|]. split; [exact Hedge|].
    rewrite Hedge. by apply map_size_insert_None.
  - split; [exact Hc|]. split; [exact Hp|]. split; [exact Hedge|].
    rewrite Hedge. case_bool_decide as Hd.
    + rewrite Hd, insert_insert_eq. by apply map_size_insert_None.
    + rewrite map_size_insert_None.
      * f_equal. by apply map_size_insert_None.
      * rewrite lookup_insert_ne; [exact Hc|]. intros [= ?]. lia.
Qed.

Lemma C5_placement_adds_node_and_edges_witness :
  exists st' r attrs,
    add_rf_unit_element 0 "BA" 0%Qc 0%Qc "robot" false 0 VNone VNone
      (one_element true false) = (st', Ok r)
    /\ node (one_element true false) !! 1 = None
    /\ node st' = <[1 := attrs]> (node (one_element true false))
    /\ attrs !! "element" = Some (VElem r)
    /\ size (node st') = 2%nat
    /\ (0 = 0 ->
          edge (one_element true false) !! (0, 1) = None
          /\ edge st' = <[(0, 1) := {["edge_to" := VStr "neighbour"]}]>
                          (edge (one_element true false))
          /\ size (edge st') = 1%nat)
    /\ (0 = 1 ->
          edge (one_element true false) !! (0, 1) = None
          /\ edge (one_element true false) !! (1 - 1, 1) = None
          /\ edge st' = <[(0, 1) := {["edge_to" := VStr "parent"]}]>
                          (<[(1 - 1, 1) := {["edge_to" := VStr "parent"]}]>
                             (edge (one_element true false)))
          /\ size (edge st') =
             if bool_decide (0 = 1 - 1) then 1%nat else 2%nat).
Proof.
  apply (C5_placement_adds_node_and_edges (one_element true false) 0 "BA"
           0%Qc 0%Qc "robot" false 0 VNone VNone).
  - apply wf_one_element.
  - reflexivity.
  - reflexivity.
Defined.

(** C2 as stated fails: on the assembly of one element whose connectors
    are both closed, the call does not fail. It returns the new element
    and the graph has a node and an edge more. *)
Lemma C2_counterexample :
  let st := one_element false false in
  let out := add_rf_unit_element 0 "AA" 0%Qc 0%Qc "human" false 0 VNone VNone st in
  element_at st 0 = Some (unit_element false false)
  /\ snd out = Ok 1%nat
  /\ size (node st) = 1%nat /\ size (node (fst out)) = 2%nat
  /\ size (edge st) = 0%nat /\ size (edge (fst out)) = 1%nat.
Proof. vm_compute. repeat split. Qed.

(** C2, amended: [add_rf_unit_element] does not test whether a connector
    is open; when connector 1 is not open it takes connector 2. On a
    well-formed assembly whose element at [current_key] has both
    connectors closed, and with a flip code of the table, the call
    returns the new element; the element is stored in a new node under
    the key [N], the edge [(current_key, N)] is added, and the connector
    taken is connector 2 with the sign [c = 1]. *)
Theorem C2_closed_connectors_still_place `{K : Kernel} `{Rd : Rounding} (st : state)
    (current_key : Z) (flip : string) (angle shift_value : Qc)
    (placed_by : string) (on_ground : bool) (unit_index : Z)
    (frame_id frame_est : value) (e : Element) :
  wf st -> valid_flip flip = true ->
  element_at st current_key = Some e ->
  connector_1_state e = false -> connector_2_state e = false ->
  let N := Z.of_nat (size (node st)) in
  exists st' r attrs,
    add_rf_unit_element current_key flip angle shift_value placed_by
      on_ground unit_index frame_id frame_est st = (st', Ok r)
    /\ node st !! N = None
    /\ node st' = <[N := attrs]> (node st)
    /\ attrs !! "element" = Some (VElem r)
    /\ edge st !! (current_key, N) = None
    /\ is_Some (edge st' !! (current_key, N))
    /\ find_open_connector e = (connector_frame_2 e, 1).
Proof.
  intros Hwf Hflip He Hc1 Hc2 N.
  assert (Hk : is_Some (node st !! current_key)).
  { unfold element_at in He. destruct (node st !! current_key); [eauto|].
    discriminate. }
  destruct (add_rf_unit_element_returns st current_key flip angle
              shift_value placed_by on_ground unit_index frame_id frame_est
              Hwf Hflip Hk)
    as (st' & r & attrs & E & Hnext & Hnode & Ha & _ & _ & _ & Hedge & _).
  fold N in E, Hnext, Hnode, Hedge.
  exists st', r, attrs.
  split; [exact E|]. split; [exact Hnext|]. split; [exact Hnode|].
  split; [exact Ha|].
  split; [apply wf_no_edge_to_next, Hwf|].
  split; [|unfold find_open_connector; rewrite Hc1; reflexivity].
  rewrite Hedge. destruct (bool_decide (unit_index = 0));
    rewrite lookup_insert_eq; eauto.
Qed.

Lemma C2_closed_connectors_still_place_witness :
  exists st' r attrs,
    add_rf_unit_element 0 "AB" 0%Qc 0%Qc "robot" false 0 VNone VNone
      (one_element false false) = (st', Ok r)
    /\ node (one_element false false) !! 1 = None
    /\ node st' = <[1 := attrs]> (node (one_element false false))
    /\ attrs !! "element" = Some (VElem r)
    /\ edge (one_element false false) !! (0, 1) = None
    /\ is_Some (edge st' !! (0, 1))
    /\ find_open_connector (unit_element false false)
       = (connector_frame_2 (unit_element false false), 1).
Proof.
  apply (C2_closed_connectors_still_place (one_element false false) 0 "AB"
           0%Qc 0%Qc "robot" false 0 VNone VNone (unit_element false false)).
  - apply wf_one_element.
  - reflexivity.
  - reflexivity.
  - reflexivity.
  - reflexivity.
Defined.

(** C10: the default of [attr_dict] is one dict shared by all calls. On
    a well-formed assembly, let a first call of [add_element] pass the
    keyword attribute [placed_by] and leave [attr_dict] to its default,
    and let a later call pass no keyword attribute at all: the attribute
    stays in the shared dict after the first call, and the node that the
    second call creates carries it, with the value of the first call. *)
Theorem C10_default_attr_dict_is_shared `{K : Kernel} `{Rd : Rounding} (st : state)
    (r1 r2 : ref) (el1 el2 : Element) (v : value) :
  wf st -> heap st !! r1 = Some el1 -> heap st !! r2 = Some el2 ->
  exists st1 k1 st2 k2 attrs2,
    add_element r1 None None {["placed_by" := v]} st = (st1, Ok k1)
    /\ attr_dict_default st1 !! "placed_by" = Some v
    /\ add_element r2 None None ∅ st1 = (st2, Ok k2)
    /\ k2 <> k1
    /\ node st2 !! k2 = Some attrs2
    /\ attrs2 !! "placed_by" = Some v.
Proof.
  intros Hwf H1 H2.
  destruct (wf_add_element st r1 el1 {["placed_by" := v]} Hwf H1)
    as (st1 & attrs1 & E1 & Hn1 & Hh1 & _ & Hd1 & Hwf1).
  assert (Hshared : attr_dict_default st1 !! "placed_by" = Some v).
  { rewrite Hd1 by reflexivity. apply lookup_union_Some_l.
    apply lookup_singleton_eq. }
  assert (H2' : heap st1 !! r2 = Some el2) by (rewrite Hh1; exact H2).
  destruct (wf_add_element st1 r2 el2 ∅ Hwf1 H2')
    as (st2 & attrs2 & E2 & Hn2 & _ & Ha2 & _ & _).
  exists st1, (Z.of_nat (size (node st))), st2,
         (Z.of_nat (size (node st1))), attrs2.
  split; [exact E1|]. split; [exact Hshared|]. split; [exact E2|].
  split.
  { rewrite Hn1. rewrite map_size_insert_None by (by apply wf_next_key). lia. }
  split; [rewrite Hn2; apply lookup_insert_eq|].
  rewrite Ha2 by reflexivity. rewrite (left_id_L ∅ (∪)). exact Hshared.
Qed.

Lemma C10_default_attr_dict_is_shared_witness :
  exists st1 k1 st2 k2 attrs2,
    add_element 0%nat None None {["placed_by" := VStr "robot"]}
      (loose_elements {[0%nat := unit_element true true;
                        1%nat := unit_element true true]}) = (st1, Ok k1)
    /\ attr_dict_default st1 !! "placed_by" = Some (VStr "robot")
    /\ add_element 1%nat None None ∅ st1 = (st2, Ok k2)
    /\ k2 <> k1
    /\ node st2 !! k2 = Some attrs2
    /\ attrs2 !! "placed_by" = Some (VStr "robot").
Proof.
  apply (C10_default_attr_dict_is_shared
           (loose_elements {[0%nat := unit_element true true;
                             1%nat := unit_element true true]})
           0%nat 1%nat (unit_element true true) (unit_element true true)
           (VStr "robot")).
  - apply wf_loose, example_globals_set.
  - reflexivity.
  - reflexivity.
Defined.

End PlacementFacts.

(** ** Reachability scoring and the base-pose map *)

Module ScoringFacts.
Import BaseMap ScoringContracts.

(** *** Exact rationals *)

Lemma Qc_of_nat_S (n : nat) : Qc_of_nat (S n) = (1 + Qc_of_nat n)%Qc.
Proof.
  unfold Qc_of_nat. apply Qc_is_canon. simpl.
  rewrite !Qred_correct. rewrite Nat2Z.inj_succ.
  unfold Z.succ. rewrite inject_Z_plus. apply Qplus_comm.
Qed.

Lemma Qc_of_nat_add (a b : nat) :
  Qc_of_nat (a + b) = (Qc_of_nat a + Qc_of_nat b)%Qc.
Proof.
  induction a as [|a IH].
  - change (Qc_of_nat 0) with 0%Qc. simpl. ring.
  - change (S a + b)%nat with (S (a + b)).
    rewrite !Qc_of_nat_S, IH. ring.
Qed.

Lemma Qc_of_nat_pos (n : nat) : (0 < n)%nat -> Qc_of_nat n <> 0%Qc.
Proof.
  intros Hn H. unfold Qc_of_nat in H.
  apply Q2Qc_eq_iff in H. unfold Qeq in H. simpl in H. lia.
Qed.

Lemma Qc_sum_app (l1 l2 : list Qc) :
  Qc_sum (l1 ++ l2) = (Qc_sum l1 + Qc_sum l2)%Qc.
Proof.
  induction l1 as [|x l1 IH]; simpl.
  - ring.
  - unfold Qc_sum in *. simpl. rewrite IH. ring.
Qed.

Lemma Qc_sum_replicate (n : nat) (x : Qc) :
  Qc_sum (replicate n x) = (Qc_of_nat n * x)%Qc.
Proof.
  induction n as [|n IH].
  - change (Qc_of_nat 0) with 0%Qc. simpl. ring.
  - rewrite Qc_of_nat_S. unfold Qc_sum in *. simpl. rewrite IH. ring.
Qed.

Lemma mean_nonempty `{Rd : Rounding} (l : list Qc) :
  l <> [] -> mean l = Ok (fl (Qc_sum l / Qc_of_nat (length l))%Qc).
Proof. destruct l; [congruence|reflexivity]. Qed.

(** *** The radius of the scoring rule and [sqrt 2] *)

(** A distance within [r * sqrt 2] is below [r * 1.4143], for a positive
    resolution [r]. *)
Lemma sqrt2_below_14143 (x r : Qc) :
  (0 <= x)%Qc -> (x * x <= qc 2 1 * (r * r))%Qc -> (0 < r)%Qc ->
  (x < r * qc 14143 10000)%Qc.
Proof.
  unfold Qcle, Qclt, qc, Qcmult, Q2Qc. cbn [this].
  rewrite !Qred_correct.
  generalize (this x) (this r). clear. intros a b H1 H2 H3.
  nra.
Qed.

(** Where the float product [resolution*1.415] is not below
    [resolution * 1.4143] (it is within a rounding error of
    [resolution * 1.415], unless it underflows), a sample within
    [resolution * sqrt 2] is within the radius of the code. *)
Lemma within_sqrt2_dist_ltb `{K : Kernel} `{Rd : Rounding}
    (reuleaux : ReuleauxReachability) (d : distance) :
  (0 < resolution reuleaux)%Qc ->
  (resolution reuleaux * qc 14143 10000 <= radius reuleaux)%Qc ->
  within_sqrt2 d (resolution reuleaux) = true ->
  dist_ltb d (radius reuleaux) = true.
Proof.
  intros Hr Hacc. destruct d as [x|]; simpl; [|discriminate].
  unfold Qc_leb, Qc_ltb. intros H.
  apply andb_true_iff in H. destruct H as [H0 H2].
  apply bool_decide_eq_true in H0, H2.
  apply bool_decide_eq_true.
  eapply Qclt_le_trans; [|exact Hacc]. by apply sqrt2_below_14143.
Qed.

(** C9: a dataset with resolution 0. For every base-pose map, pose and
    point clouds, the query raises the [ValueError] of the first check
    and the map is the one before the call: nothing is scored, no entry
    is added or updated, no score is returned. *)
Theorem C9_zero_resolution_raises `{K : Kernel} `{Rd : Rounding} (st : state) (pose : Frame)
    (reuleaux : ReuleauxReachability) (goal_pointcloud : list Point)
    (collision_pointcloud : option (list Point)) :
  resolution reuleaux = 0%Qc ->
  get_reuleaux_index_by_base_pose pose reuleaux goal_pointcloud
    collision_pointcloud st
  = (st, Raise resolution_error).
Proof.
  intros Hr. unfold get_reuleaux_index_by_base_pose, Qc_eqb.
  rewrite bool_decide_eq_true_2 by exact Hr. reflexivity.
Qed.

Lemma C9_zero_resolution_raises_witness :
  get_reuleaux_index_by_base_pose (K := unit_kernel) tt
    (mkReuleaux [mkWsSphere tt (qc 7 1) []] 0%Qc) [tt; tt] (Some [tt])
    (mkState ∅ (-1))
  = (mkState ∅ (-1), Raise resolution_error).
Proof.
  apply (C9_zero_resolution_raises (K := unit_kernel)).
  reflexivity.
Defined.

(** The radius is the float product. At the resolution 0.09 the product
    [0.09*1.415] is rounded down: a sample at exactly that distance is not
    within the radius, although it is closer than the exact product. *)
Example radius_is_rounded :
  let reuleaux := mkReuleaux (K := unit_kernel) []
                    (binary64_round (qc 9 100)) in
  radius reuleaux = qc 4588267300365061 36028797018963968
  /\ (radius reuleaux < resolution reuleaux * qc 1415 1000)%Qc
  /\ dist_ltb (Finite (radius reuleaux)) (radius reuleaux) = false.
Proof.
  split; [apply Qc_is_canon; vm_compute; reflexivity|].
  split; vm_compute; reflexivity.
Qed.

End ScoringFacts.

(** ** The equilibrium validator: the scan with temporary support *)

Module EquilibriumScan.
Import Equilibrium EquilibriumSpec.

Section Scan.
Context `{Rd : Rounding}.

Lemma moment_x_S (e : list solid) (i : nat) (s : solid) :
  e !! i = Some s ->
  moment_x e (S i) = fadd (moment_x e i) (fmul (cen_x s) (volume s)).
Proof.
  intros Hs. unfold moment_x.
  rewrite (take_S_r _ _ _ Hs), foldl_app. reflexivity.
Qed.

Lemma moment_y_S (e : list solid) (i : nat) (s : solid) :
  e !! i = Some s ->
  moment_y e (S i) = fadd (moment_y e i) (fmul (cen_y s) (volume s)).
Proof.
  intros Hs. unfold moment_y.
  rewrite (take_S_r _ _ _ Hs), foldl_app. reflexivity.
Qed.

Variable IsPointInSurface : Qc -> Qc -> option bool.
Variable AddLine : Qc -> Qc -> Qc -> Z.

(** One iteration from locals as the loop reaches them: it returns, the
    next locals are as the loop reaches [i+1], and the three policy
    variables are decided by the footprint test and the permission. *)
Lemma body_reached (e : list solid) (i : nat) (l : locals) :
  (i < length e)%nat -> total_volume e i <> 0%Qc ->
  reached AddLine e i l ->
  let se := IsPointInSurface (resultant_x e i) (resultant_y e i) in
  let allow1 := reopened i l in
  let grant := ne_False se && allow1 in
  exists l',
    body IsPointInSurface AddLine e i l = Ok l'
    /\ reached AddLine e (S i) l'
    /\ s_int l' = (if grant then Some (Z.of_nat i) else s_int l)
    /\ allow_temp_support l' = (if grant then false else allow1)
    /\ static_equilibrium l' =
       (if grant then true
        else if ne_False se then false
        else if ne_True se then true else static_equilibrium l).
Proof.
  intros Hi Hv (Hg & Hint & Hx & Hy & Hres) se allow1 grant.
  destruct (lookup_lt_is_Some_2 e i Hi) as [s Hs].
  unfold body. rewrite Hs. cbn [getitem mbind result_bind].
  unfold resultant. fold (total_volume e i).
  unfold Qc_eqb. rewrite bool_decide_eq_false_2 by exact Hv.
  cbn [mbind result_bind].
  rewrite Hx, Hy, <- (moment_x_S e i s Hs), <- (moment_y_S e i s Hs).
  fold (resultant_x e i) (resultant_y e i). fold se.
  rewrite Hg. cbn [read_local getitem mbind result_bind andb].
  assert (Ha : (if negb (allow_temp_support l)
                then k ← read_local "s_int" (s_int l);
                     Ok (if bool_decide (k + 1 < Z.of_nat i) then true
                         else allow_temp_support l)
                else Ok (allow_temp_support l)) = Ok allow1).
  { subst allow1. unfold reopened.
    destruct (allow_temp_support l) eqn:Ea; simpl; [reflexivity|].
    destruct (Hint eq_refl) as [k ->]. simpl.
    destruct (bool_decide (k + 1 < Z.of_nat i)); reflexivity. }
  rewrite Ha. cbn [mbind result_bind]. fold grant.
  eexists. split; [reflexivity|].
  split.
  { unfold reached; cbn. split; [reflexivity|].
    split; [|repeat split; reflexivity].
    destruct grant; [eauto|]. intros Hf.
    subst allow1. unfold reopened in Hf.
    apply orb_false_iff in Hf. destruct Hf as [Hf _]. auto. }
  cbn. split; [reflexivity|]. split; [reflexivity|].
  subst grant. destruct (ne_False se), allow1, (ne_True se); reflexivity.
Qed.

(** An invariant of the loop body is an invariant of the loop. *)
Lemma loop_invariant (Inv : nat -> locals -> Prop) (e : list solid)
    (k a : nat) (l : locals) :
  (forall i l, (a <= i < a + k)%nat -> Inv i l ->
     exists l', body IsPointInSurface AddLine e i l = Ok l' /\ Inv (S i) l') ->
  Inv a l ->
  exists l', loop IsPointInSurface AddLine e (seq a k) l = Ok l'
             /\ Inv (a + k)%nat l'.
Proof.
  revert a l. induction k as [|k IH]; intros a l Hbody Hinv.
  - exists l. rewrite Nat.add_0_r. split; [reflexivity|exact Hinv].
  - destruct (Hbody a l) as (l1 & E1 & H1); [lia|exact Hinv|].
    destruct (IH (S a) l1) as (l2 & E2 & H2).
    + intros i l0 Hi. apply Hbody. lia.
    + exact H1.
    + exists l2. cbn [seq loop]. rewrite E1. cbn [mbind result_bind].
      split; [exact E2|]. replace (a + S k)%nat with (S a + k)%nat by lia.
      exact H2.
Qed.

Lemma reached_init (e : list solid) : reached AddLine e 0 (init true).
Proof.
  unfold reached, init; cbn.
  split; [reflexivity|]. split; [discriminate|].
  repeat split; reflexivity.
Qed.

Lemma check_of_scan (e : list solid) (l : locals) :
  e <> [] ->
  scan IsPointInSurface AddLine e true = Ok l ->
  reached AddLine e (length e) l ->
  static_equilibrium_check IsPointInSurface AddLine e true
  = Ok (static_equilibrium l, last_line AddLine e).
Proof.
  intros He Hscan (_ & _ & _ & _ & Hres).
  unfold static_equilibrium_check. rewrite Hscan. cbn [mbind result_bind].
  destruct e as [|s e]; [congruence|].
  cbn [length] in Hres. rewrite Hres. cbn [read_local getitem mbind result_bind].
  unfold last_line. cbn [length].
  replace (S (length e) - 1)%nat with (length e) by lia. reflexivity.
Qed.

End Scan.

(** X1. [static_equilibrium_check] with [allow_temp_support=True] on at
    least one solid, no prefix of which has total volume 0: the call
    returns. No local is read unbound, and the line returned is the one
    drawn for the last resultant. *)
Theorem scan_with_temp_support_returns `{Rd : Rounding}
    (IsPointInSurface : Qc -> Qc -> option bool)
    (AddLine : Qc -> Qc -> Qc -> Z) (e : list solid) :
  e <> [] -> nonzero_volumes e ->
  exists b, static_equilibrium_check IsPointInSurface AddLine e true
            = Ok (b, last_line AddLine e).
Proof.
  intros He Hv.
  destruct (loop_invariant IsPointInSurface AddLine (reached AddLine e)
              e (length e) 0 (init true)) as (l & El & Hl).
  - intros i l [_ Hi] Hr.
    destruct (body_reached IsPointInSurface AddLine e i l Hi (Hv i Hi) Hr)
      as (l' & E & Hr' & _). eauto.
  - apply reached_init.
  - exists (static_equilibrium l). by apply check_of_scan.
Qed.

Lemma scan_with_temp_support_returns_witness :
  exists b, static_equilibrium_check unit_square line_id
              [centred; Solid 1 (qc 5 1) (qc 5 1)] true
            = Ok (b, last_line line_id [centred; Solid 1 (qc 5 1) (qc 5 1)]).
Proof.
  apply (scan_with_temp_support_returns unit_square line_id
           [centred; Solid 1 (qc 5 1) (qc 5 1)]).
  - discriminate.
  - intros [|[|i]] Hi; [vm_compute; discriminate..|simpl in Hi; lia].
Defined.

(** X2. When the footprint test answers "outside" ([False]) at every
    step, the call with temporary support allowed returns "in
    equilibrium", and no grant index is ever recorded: the permission is
    still on at the end. *)
Theorem scan_all_outside `{Rd : Rounding}
    (IsPointInSurface : Qc -> Qc -> option bool)
    (AddLine : Qc -> Qc -> Qc -> Z) (e : list solid) :
  e <> [] -> nonzero_volumes e ->
  footprint_always IsPointInSurface e false ->
  static_equilibrium_check IsPointInSurface AddLine e true
    = Ok (true, last_line AddLine e)
  /\ exists l, scan IsPointInSurface AddLine e true = Ok l
               /\ latched l = false /\ allow_temp_support l = true.
Proof.
  intros He Hv Hout.
  destruct (loop_invariant IsPointInSurface AddLine
              (fun i l => reached AddLine e i l
                          /\ s_int l = None /\ allow_temp_support l = true
                          /\ (0 < i -> static_equilibrium l = true)%nat)
              e (length e) 0 (init true)) as (l & El & Hr & Hs & Ha & Heq).
  - intros i l [_ Hi] (Hr & Hs & Ha & _).
    destruct (body_reached IsPointInSurface AddLine e i l Hi (Hv i Hi) Hr)
      as (l' & E & Hr' & Hs' & Ha' & Heq').
    rewrite (Hout i Hi) in Hs', Ha', Heq'. cbn in Hs', Ha', Heq'.
    exists l'. split; [exact E|]. split; [exact Hr'|].
    split; [congruence|].
    split; [rewrite Ha'; unfold reopened; rewrite Ha; reflexivity|].
    intros _. exact Heq'.
  - split; [apply reached_init|]. repeat split; intros; simpl; lia.
  - split.
    + rewrite (check_of_scan IsPointInSurface AddLine e l He El Hr).
      rewrite Heq; [reflexivity|]. destruct e; [congruence|simpl; lia].
    + exists l. split; [exact El|]. split; [|exact Ha].
      unfold latched. rewrite Hs. reflexivity.
Qed.

Lemma scan_all_outside_witness :
  static_equilibrium_check unit_square line_id
    [Solid 1 (qc 5 1) (qc 5 1); Solid 1 (qc 7 1) (qc 7 1)] true
    = Ok (true, last_line line_id
                  [Solid 1 (qc 5 1) (qc 5 1); Solid 1 (qc 7 1) (qc 7 1)])
  /\ exists l, scan unit_square line_id
                 [Solid 1 (qc 5 1) (qc 5 1); Solid 1 (qc 7 1) (qc 7 1)] true
               = Ok l
               /\ latched l = false /\ allow_temp_support l = true.
Proof.
  apply (scan_all_outside unit_square line_id
           [Solid 1 (qc 5 1) (qc 5 1); Solid 1 (qc 7 1) (qc 7 1)]).
  - discriminate.
  - intros [|[|i]] Hi; [vm_compute; discriminate..|simpl in Hi; lia].
  - intros [|[|i]] Hi; [vm_compute; reflexivity..|simpl in Hi; lia].
Defined.

(** X3. When the footprint test answers "inside" ([True]) at every step,
    the call with temporary support allowed grants the window at step 0
    and again at every second step: it returns "in equilibrium" exactly
    when the number of solids is odd, and a grant index is recorded. *)
Theorem scan_all_inside_alternates `{Rd : Rounding}
    (IsPointInSurface : Qc -> Qc -> option bool)
    (AddLine : Qc -> Qc -> Qc -> Z) (e : list solid) :
  e <> [] -> nonzero_volumes e ->
  footprint_always IsPointInSurface e true ->
  static_equilibrium_check IsPointInSurface AddLine e true
    = Ok (Nat.odd (length e), last_line AddLine e)
  /\ exists l, scan IsPointInSurface AddLine e true = Ok l
               /\ latched l = true.
Proof.
  intros He Hv Hin.
  destruct (loop_invariant IsPointInSurface AddLine
              (fun i l =>
                 reached AddLine e i l
                 /\ match i with
                    | O => allow_temp_support l = true
                    | S j =>
                        allow_temp_support l = false
                        /\ static_equilibrium l = Nat.odd i
                        /\ s_int l = Some (if Nat.odd i then Z.of_nat j
                                           else Z.of_nat j - 1)
                    end)
              e (length e) 0 (init true)) as (l & El & Hr & Hl).
  - intros i l [_ Hi] (Hr & Hl).
    destruct (body_reached IsPointInSurface AddLine e i l Hi (Hv i Hi) Hr)
      as (l' & E & Hr' & Hs' & Ha' & Heq').
    rewrite (Hin i Hi) in Hs', Ha', Heq'. cbn [ne_False ne_True andb] in *.
    exists l'. split; [exact E|]. split; [exact Hr'|].
    destruct i as [|j].
    + unfold reopened in *. rewrite Hl in *. cbn in *. auto.
    + destruct Hl as (Ha & Heq & Hs).
      rewrite Nat.odd_succ in Hs, Heq.
      unfold reopened in *. rewrite Ha, Hs in *. cbn [orb] in *.
      change (Nat.odd (S (S j))) with (Nat.odd j).
      rewrite <- Nat.negb_even.
      destruct (Nat.even j) eqn:Ej; cbn [negb] in *.
      * rewrite bool_decide_eq_false_2 in * by lia.
        split; [exact Ha'|]. split; [exact Heq'|]. rewrite Hs'.
        f_equal. lia.
      * rewrite bool_decide_eq_true_2 in * by lia.
        split; [exact Ha'|]. split; [exact Heq'|]. exact Hs'.
  - split; [apply reached_init|reflexivity].
  - destruct e as [|s e]; [congruence|]. cbn [length] in *.
    destruct Hl as (_ & Heq & Hs).
    split.
    + rewrite (check_of_scan IsPointInSurface AddLine (s :: e) l He El Hr).
      rewrite Heq. reflexivity.
    + exists l. split; [exact El|]. unfold latched. rewrite Hs. reflexivity.
Qed.

Lemma scan_all_inside_alternates_witness :
  static_equilibrium_check unit_square line_id [centred; centred; centred] true
    = Ok (Nat.odd (length [centred; centred; centred]),
          last_line line_id [centred; centred; centred])
  /\ exists l, scan unit_square line_id [centred; centred; centred] true = Ok l
               /\ latched l = true.
Proof.
  apply (scan_all_inside_alternates unit_square line_id
           [centred; centred; centred]).
  - discriminate.
  - intros [|[|[|i]]] Hi; [vm_compute; discriminate..|simpl in Hi; lia].
  - intros [|[|[|i]]] Hi; [vm_compute; reflexivity..|simpl in Hi; lia].
Defined.

(** The resultants are the rounded ones. Four solids of volume 1 with the
    centroids x = 1e16, -1, -1e16 and 2: the floats lose the -1 in the
    second addition, so the scan tests x = 0.0 at the third step and
    x = 0.5 at the fourth, where the exact moments would give -1/3 and
    1/4. *)
Example resultants_are_rounded :
  let e := [Solid 1 (qc 10000000000000000 1) 0; Solid 1 (qc (-1) 1) 0;
            Solid 1 (qc (-10000000000000000) 1) 0; Solid 1 (qc 2 1) 0] in
  resultant_x (Rd := binary64) e 2 = 0%Qc
  /\ resultant_x (Rd := binary64) e 3 = qc 1 2
  /\ resultant_x (Rd := exact) e 2 = qc (-1) 3
  /\ resultant_x (Rd := exact) e 3 = qc 1 4.
Proof. repeat split; apply Qc_is_canon; vm_compute; reflexivity. Qed.

End EquilibriumScan.

(** ** The assembly: building, lookups and the collision validator *)

Module AssemblyMoreFacts.
Import Assembly Contracts AssemblyMore PlacementFacts.

Section WithKernel.
Context `{K : Kernel} `{Rd : Rounding}.

(** *** [add_element] and [element] *)

Lemma node_update_new (nd : gmap Z (gmap string value)) k
    (attr : gmap string value) :
  nd !! k = None ->
  alter (fun old => attr ∪ old) k (<[k := ∅]> nd)
  = <[k := attr ∪ default ∅ (nd !! k)]> nd.
Proof.
  intros Hk. rewrite Hk. cbn [default].
  rewrite (right_id_L ∅ (∪)). apply add_node_fresh_nodes.
Qed.

Lemma node_update_old (nd : gmap Z (gmap string value)) k
    (attr : gmap string value) :
  nd !! k <> None ->
  alter (fun old => attr ∪ old) k nd
  = <[k := attr ∪ default ∅ (nd !! k)]> nd.
Proof.
  intros Hk. apply map_eq. intros j. rewrite lookup_alter.
  destruct (decide (k = j)) as [<-|Hj].
  - rewrite lookup_insert_eq. destruct (nd !! k); [reflexivity|congruence].
  - by rewrite lookup_insert_ne.
Qed.

(** [Graph.add_node] on any store: the attributes are merged into the
    node of the key, which is created when missing; [_max_node] becomes
    the key when the key is larger. *)
Lemma add_node_effect st key d kw :
  let k := match key with Some k => k | None => max_node st + 1 end in
  add_node key d kw st
  = (mkState (<[k := (kw ∪ d) ∪ default ∅ (node st !! k)]> (node st))
       (edge st) (Z.max (max_node st) k) (heap st)
       (attr_dict_default st) (globals st),
     Ok (k, kw ∪ d)).
Proof.
  intros k. unfold add_node.
  unfold mbind, ST_bind, get, modify, when, mret, ST_ret. cbn. fold k.
  destruct (bool_decide (max_node st < k)) eqn:Em; cbn;
    destruct (bool_decide (node st !! k = None)) eqn:En; cbn;
    unfold set_node; cbn.
  all: try apply bool_decide_eq_true in Em.
  all: try apply bool_decide_eq_false in Em.
  all: try apply bool_decide_eq_true in En.
  all: try apply bool_decide_eq_false in En.
  all: rewrite ?(node_update_new _ _ _ En), ?(node_update_old _ _ _ En).
  all: try replace (Z.max (max_node st) k) with k by lia.
  all: try replace (Z.max (max_node st) k) with (max_node st) by lia.
  all: reflexivity.
Qed.

Lemma add_element_effect st r el key attr_dict kw :
  heap st !! r = Some el ->
  exists st' k attrs,
    add_element r key attr_dict kw st = (st', Ok k)
    /\ k = match key with Some k => k | None => max_node st + 1 end
    /\ node st' = <[k := attrs]> (node st)
    /\ attrs !! "element" = Some (VElem r)
    /\ edge st' = edge st /\ heap st' = heap st
    /\ globals st' = globals st
    /\ max_node st' = Z.max (max_node st) k.
Proof.
  intros Hr. unfold add_element.
  destruct (point_xyz (frame_point (frame el))) as [[x y] z] eqn:Exyz.
  set (d := kw ∪ default (attr_dict_default st) attr_dict).
  set (kw' := <["x" := VNum x]> (<["y" := VNum y]> (<["z" := VNum z]>
                ({["element" := VElem r]} : gmap string value)))).
  set (k := match key with Some k => k | None => max_node st + 1 end).
  unfold mbind at 1, ST_bind at 1, get. cbn iota beta. fold d.
  set (st1 := if bool_decide (attr_dict = None)
              then set_attr_dict_default d st else st).
  assert (E1 : when (bool_decide (attr_dict = None))
                 (modify (set_attr_dict_default d)) st = (st1, Ok tt))
    by (subst st1; destruct (bool_decide (attr_dict = None)); reflexivity).
  assert (H1 : node st1 = node st /\ edge st1 = edge st
               /\ heap st1 = heap st /\ globals st1 = globals st
               /\ max_node st1 = max_node st)
    by (subst st1; destruct (bool_decide (attr_dict = None));
        repeat split; reflexivity).
  destruct H1 as (Hn1 & He1 & Hh1 & Hg1 & Hm1).
  erewrite bind_ok by exact E1.
  erewrite bind_ok by (apply deref_ok; rewrite Hh1; exact Hr).
  rewrite Exyz. fold kw'.
  erewrite bind_ok by apply add_node_effect.
  rewrite Hm1, Hn1, He1, Hh1, Hg1. fold k.
  set (b := bool_decide (attr_dict = None) && negb (bool_decide (size d = 0%nat))).
  assert (Ha : (kw' ∪ d ∪ default ∅ (node st !! k)) !! "element"
               = Some (VElem r)).
  { apply lookup_union_Some_l, lookup_union_Some_l.
    subst kw'. by simplify_map_eq. }
  destruct b;
    (eexists _, k, ((kw' ∪ d) ∪ default ∅ (node st !! k));
     split; [reflexivity|]; split; [reflexivity|];
     cbn; repeat split; try reflexivity; exact Ha).
Qed.

(** X4. Insert and look up. For any store, any live element, any key
    argument and any attributes, [add_element] returns a key (the given
    one, or the one after [_max_node]) and [element] of that key then
    returns the element just added; the other nodes, the edges and the
    element objects are as before. *)
Theorem add_element_then_element (st : state) (r : ref) (el : Element)
    (key : option Z) (attr_dict : option (gmap string value))
    (kw : gmap string value) :
  heap st !! r = Some el ->
  exists st' k,
    add_element r key attr_dict kw st = (st', Ok k)
    /\ k = match key with Some k => k | None => max_node st + 1 end
    /\ element k st' = (st', Ok r)
    /\ (forall j, j <> k -> node st' !! j = node st !! j)
    /\ edge st' = edge st /\ heap st' = heap st.
Proof.
  intros Hr.
  destruct (add_element_effect st r el key attr_dict kw Hr)
    as (st' & k & attrs & E & Hk & Hn & Ha & He & Hh & _).
  exists st', k. split; [exact E|]. split; [exact Hk|].
  split.
  { unfold element. eapply node_element_ok; [|exact Ha].
    rewrite Hn. apply lookup_insert_eq. }
  split; [|split; assumption].
  intros j Hj. rewrite Hn. by rewrite lookup_insert_ne.
Qed.

(** *** Building an assembly *)

Lemma dense_next st : dense st -> node st !! Z.of_nat (size (node st)) = None.
Proof.
  intros [Hk _]. apply eq_None_not_Some. intros Hs. apply Hk in Hs. lia.
Qed.

Lemma dense_add_element st r el kw :
  dense st -> heap st !! r = Some el ->
  exists st' attrs,
    add_element r None None kw st = (st', Ok (Z.of_nat (size (node st))))
    /\ node st' = <[Z.of_nat (size (node st)) := attrs]> (node st)
    /\ attrs !! "element" = Some (VElem r)
    /\ edge st' = edge st /\ heap st' = heap st
    /\ globals st' = globals st
    /\ dense st'.
Proof.
  intros Hd Hr. pose proof (dense_next st Hd) as Hnext.
  destruct Hd as [Hkeys Hmax].
  destruct (add_element_effect st r el None None kw Hr)
    as (st' & k & attrs & E & Hk & Hn & Ha & He & Hh & Hg & Hm).
  assert (Hk' : k = Z.of_nat (size (node st))) by (rewrite Hk, Hmax; lia).
  subst k. rewrite Hk' in *. clear Hk'.
  exists st', attrs. repeat (split; [assumption|]).
  assert (Hsize : size (node st') = S (size (node st)))
    by (rewrite Hn; by apply map_size_insert_None).
  split.
  - intros j. rewrite Hsize, Hn.
    destruct (decide (j = Z.of_nat (size (node st)))) as [->|Hj].
    + rewrite lookup_insert_eq. split; [lia|eauto].
    + rewrite lookup_insert_ne by congruence. rewrite Hkeys. lia.
  - rewrite Hm, Hsize, Hmax. lia.
Qed.

Lemma init_elements_from (rs : list ref) (st : state) :
  dense st -> (forall r, r ∈ rs -> is_Some (heap st !! r)) ->
  exists st',
    init_elements rs st = (st', Ok tt)
    /\ dense st'
    /\ size (node st') = (size (node st) + length rs)%nat
    /\ (forall i r, rs !! i = Some r ->
          element (Z.of_nat (size (node st) + i)) st' = (st', Ok r))
    /\ (forall k, k < Z.of_nat (size (node st)) ->
          node st' !! k = node st !! k)
    /\ edge st' = edge st /\ heap st' = heap st.
Proof.
  revert st. induction rs as [|r rs IH]; intros st Hd Hlive.
  - exists st. split; [reflexivity|]. split; [exact Hd|].
    split; [simpl; lia|]. split; [intros i r; by rewrite lookup_nil|].
    repeat split; reflexivity.
  - destruct (Hlive r) as [el Hel]; [apply list_elem_of_here|].
    destruct (dense_add_element st r el ∅ Hd Hel)
      as (st1 & attrs & E1 & Hn1 & Ha1 & He1 & Hh1 & _ & Hd1).
    assert (Hsize1 : size (node st1) = S (size (node st)))
      by (rewrite Hn1; apply map_size_insert_None, dense_next, Hd).
    destruct (IH st1 Hd1) as (st' & E & Hd' & Hsize & Hel' & Hold & He & Hh).
    { intros r' Hr'. rewrite Hh1. apply Hlive. by apply list_elem_of_further. }
    exists st'. split.
    { unfold init_elements in *. cbn [for_each].
      erewrite bind_ok; [exact E|].
      erewrite bind_ok by exact E1. reflexivity. }
    split; [exact Hd'|]. split; [rewrite Hsize, Hsize1; simpl; lia|].
    split.
    { intros [|i] r' Hi; simpl in Hi.
      - injection Hi as <-. rewrite Nat.add_0_r.
        unfold element. eapply node_element_ok; [|exact Ha1].
        rewrite Hold by (rewrite Hsize1; lia).
        rewrite Hn1. apply lookup_insert_eq.
      - specialize (Hel' i r' Hi). rewrite Hsize1 in Hel'.
        replace (size (node st) + S i)%nat with (S (size (node st)) + i)%nat
          by lia. exact Hel'. }
    split.
    { intros k Hk. rewrite Hold by (rewrite Hsize1; lia).
      rewrite Hn1. rewrite lookup_insert_ne by lia. reflexivity. }
    split; congruence.
Qed.

(** X5. The constructor loop. From the empty network, whatever the
    shared default dict holds, adding a list of live elements returns;
    the keys are handed out in build order, [0 .. n-1]: the node [i]
    holds the [i]-th element of the list, there are as many nodes as
    elements, no edge, and the element objects are untouched. *)
Theorem init_elements_in_build_order (h : gmap ref Element)
    (d : gmap string value) (g : gmap string Qc) (rs : list ref) :
  (forall r, r ∈ rs -> is_Some (h !! r)) ->
  exists st',
    init_elements rs (new_assembly h d g) = (st', Ok tt)
    /\ dense st'
    /\ size (node st') = length rs
    /\ (forall i r, rs !! i = Some r ->
          element (Z.of_nat i) st' = (st', Ok r))
    /\ edge st' = ∅ /\ heap st' = h.
Proof.
  intros Hlive.
  destruct (init_elements_from rs (new_assembly h d g))
    as (st' & E & Hd & Hsize & Hel & _ & He & Hh).
  - split; simpl.
    + intros k. rewrite lookup_empty, map_size_empty.
      split; [intros []; discriminate|lia].
    + rewrite map_size_empty. reflexivity.
  - exact Hlive.
  - exists st'. split; [exact E|]. split; [exact Hd|].
    split; [rewrite Hsize; simpl; rewrite map_size_empty; lia|].
    split; [|split; assumption].
    intros i r Hi. specialize (Hel i r Hi).
    simpl in Hel. rewrite map_size_empty in Hel. exact Hel.
Qed.

(** *** Edge behaviour of the connector transition and of the placement *)

(** X6. With fewer than two nodes, [update_connectors_states] raises
    whatever its arguments, also when [unit_index] is not 1 and nothing
    would be transitioned: [IndexError] from [keys[-2]] when the current
    key holds an element, the error of the lookup otherwise. The store is
    left as it was. *)
Theorem update_connectors_states_needs_two_nodes (st : state)
    (current_key : Z) (flip : string) (my_new_elem : ref) (unit_index : Z) :
  (size (node st) < 2)%nat ->
  exists e,
    update_connectors_states current_key flip my_new_elem unit_index st
      = (st, Raise e)
    /\ (e = IndexError \/ e = KeyError \/ e = AttributeError)
    /\ (is_Some (element_at st current_key) -> e = IndexError).
Proof.
  intros Hsize. unfold update_connectors_states.
  apply bind_reads; [apply reads_node_element| |].
  - intros r Hr.
    erewrite bind_ok by apply number_of_nodes_ok.
    rewrite (bool_decide_eq_true_2 (Z.of_nat (size (node st)) < 2)) by lia.
    exists IndexError. split; [reflexivity|]. auto.
  - intros e He. exists e. split; [reflexivity|].
    pose proof (node_element_raise _ _ _ He) as Hc.
    split; [tauto|].
    intros [el Hel]. exfalso.
    unfold element_at in Hel. unfold node_element in He.
    unfold mbind, ST_bind, get, lift, raise, getitem in He. simpl in He.
    destruct (node st !! current_key) as [attrs|]; [|discriminate].
    simpl in *. destruct (attrs !! "element") as [[]|]; simpl in *;
      discriminate.
Qed.

(** X7. A key that is not in the network. With the four globals set,
    [add_rf_unit_element] on a [current_key] that is no node raises
    [KeyError] for every other argument, and the whole store (graph,
    element objects, shared default dict) is exactly as before. *)
Theorem add_rf_unit_element_missing_key (st : state) (current_key : Z)
    (flip : string) (angle shift_value : Qc) (placed_by : string)
    (on_ground : bool) (unit_index : Z) (frame_id frame_est : value) :
  (forall n, n = "rod_radius" \/ n = "rod_length"
             \/ n = "rf_unit_radius" \/ n = "rf_unit_offset" ->
             is_Some (globals st !! n)) ->
  node st !! current_key = None ->
  add_rf_unit_element current_key flip angle shift_value placed_by
    on_ground unit_index frame_id frame_est st
  = (st, Raise KeyError).
Proof.
  intros Hg Hk.
  destruct (Hg "rod_radius") as [g1 Hg1]; [tauto|].
  destruct (Hg "rod_length") as [g2 Hg2]; [tauto|].
  destruct (Hg "rf_unit_radius") as [g3 Hg3]; [tauto|].
  destruct (Hg "rf_unit_offset") as [g4 Hg4]; [tauto|].
  unfold add_rf_unit_element.
  erewrite bind_ok by (apply global_ok; exact Hg1).
  erewrite bind_ok by (apply global_ok; exact Hg2).
  erewrite bind_ok by (apply global_ok; exact Hg3).
  erewrite bind_ok by (apply global_ok; exact Hg4).
  erewrite bind_ok by apply number_of_nodes_ok.
  erewrite bind_raise; [reflexivity|].
  unfold node_element, mbind, ST_bind, get, lift, getitem. simpl.
  rewrite Hk. reflexivity.
Qed.

End WithKernel.

Lemma add_element_then_element_witness :
  exists st' k,
    add_element 0%nat (Some 7) (Some ∅) ∅
      (loose_elements {[0%nat := unit_element true true]}) = (st', Ok k)
    /\ k = 7
    /\ element k st' = (st', Ok 0%nat)
    /\ (forall j, j <> k ->
          node st' !! j
          = node (loose_elements {[0%nat := unit_element true true]}) !! j)
    /\ edge st' = edge (loose_elements {[0%nat := unit_element true true]})
    /\ heap st' = heap (loose_elements {[0%nat := unit_element true true]}).
Proof.
  apply (add_element_then_element
           (loose_elements {[0%nat := unit_element true true]})
           0%nat (unit_element true true) (Some 7) (Some ∅) ∅).
  reflexivity.
Defined.

Lemma init_elements_in_build_order_witness :
  exists st',
    init_elements [1%nat; 0%nat]
      (new_assembly {[0%nat := unit_element true true;
                      1%nat := unit_element false true]} ∅ ∅) = (st', Ok tt)
    /\ dense st'
    /\ size (node st') = length [1%nat; 0%nat]
    /\ (forall i r, [1%nat; 0%nat] !! i = Some r ->
          element (Z.of_nat i) st' = (st', Ok r))
    /\ edge st' = ∅
    /\ heap st' = {[0%nat := unit_element true true;
                     1%nat := unit_element false true]}.
Proof.
  apply (init_elements_in_build_order
           {[0%nat := unit_element true true;
             1%nat := unit_element false true]} ∅ ∅ [1%nat; 0%nat]).
  intros r Hr.
  apply elem_of_cons in Hr as [->|Hr]; [vm_compute; eauto|].
  apply elem_of_cons in Hr as [->|Hr]; [vm_compute; eauto|].
  by apply elem_of_nil in Hr.
Defined.

Lemma update_connectors_states_needs_two_nodes_witness :
  exists e,
    update_connectors_states 0 "AA" 0%nat 0 (one_element true true)
      = (one_element true true, Raise e)
    /\ (e = IndexError \/ e = KeyError \/ e = AttributeError)
    /\ (is_Some (element_at (one_element true true) 0) -> e = IndexError).
Proof.
  apply (update_connectors_states_needs_two_nodes (one_element true true)
           0 "AA" 0%nat 0).
  vm_compute. lia.
Defined.

Lemma add_rf_unit_element_missing_key_witness :
  add_rf_unit_element 3 "AA" 0%Qc 0%Qc "robot" false 0 VNone VNone
    (one_element true true)
  = (one_element true true, Raise KeyError).
Proof.
  apply (add_rf_unit_element_missing_key (one_element true true) 3 "AA"
           0%Qc 0%Qc "robot" false 0 VNone VNone).
  - apply example_globals_set.
  - reflexivity.
Defined.

End AssemblyMoreFacts.

(** ** The collision validator *)

Module CollisionFacts.
Import Assembly Contracts AssemblyMore PlacementFacts.

Section WithKernel.
Context `{K : Kernel} `{Rd : Rounding}.
Variable CurveProximity : Element -> Element -> Qc.

Lemma element_at_lookup (st : state) (k : Z) (el : Element) :
  element_at st k = Some el ->
  exists r, node_element k st = (st, Ok r) /\ deref r st = (st, Ok el).
Proof.
  unfold element_at. intros H.
  destruct (node st !! k) as [attrs|] eqn:Hk; [|discriminate]. simpl in H.
  destruct (attrs !! "element") as [v|] eqn:Hv; [|discriminate]. simpl in H.
  destruct v; try discriminate.
  exists r. split; [eapply node_element_ok; eassumption|].
  apply deref_ok, H.
Qed.

Lemma existsb_id_true (l : list bool) : existsb id l = true <-> true ∈ l.
Proof.
  rewrite existsb_exists, list_elem_of_In. split.
  - intros (x & Hx & Hid). unfold id in Hid. by subst x.
  - intros H. exists true. split; [exact H|reflexivity].
Qed.

(** The inner loop appends one flag per option element; it looks the
    radius up only when there is an option element. *)
Lemma collision_options_spec (st : state) (elem : Element)
    (opts : list Element) (tol rad : Qc) (rs : list bool) :
  opts = [] \/ globals st !! "rod_radius" = Some rad ->
  collision_options CurveProximity elem opts tol rs st
  = (st, Ok (rs ++ (too_close CurveProximity rad tol elem <$> opts))%list).
Proof.
  revert rs. induction opts as [|o opts IH]; intros rs Hg.
  - simpl. rewrite app_nil_r. reflexivity.
  - destruct Hg as [Hg|Hg]; [discriminate|].
    cbn [collision_options].
    erewrite bind_ok by (apply global_ok; exact Hg).
    rewrite IH by (right; exact Hg).
    rewrite <- app_assoc. reflexivity.
Qed.

Lemma collision_elements_spec (st : state) (opts : list Element)
    (tol rad : Qc) (keys : list Z) (c : bool) (rs : list bool) :
  opts = [] \/ globals st !! "rod_radius" = Some rad ->
  (forall k, k ∈ keys -> is_Some (element_at st k)) ->
  exists rs',
    collision_elements CurveProximity keys opts tol c rs st
    = (st, Ok (match keys with [] => c | _ => existsb id rs' end, rs'))
    /\ (forall b, b ∈ rs' <->
          b ∈ rs \/ exists k el o,
            k ∈ keys /\ element_at st k = Some el /\ o ∈ opts
            /\ b = too_close CurveProximity rad tol el o).
Proof.
  intros Hg. revert c rs. induction keys as [|k keys IH]; intros c rs Hel.
  - exists rs. split; [reflexivity|]. intros b. split; [auto|].
    intros [H|(k & el & o & Hk & _)]; [exact H|].
    by apply elem_of_nil in Hk.
  - destruct (Hel k) as [el Hk]; [apply list_elem_of_here|].
    destruct (element_at_lookup st k el Hk) as (r & En & Ed).
    destruct (IH (existsb id (rs ++ (too_close CurveProximity rad tol el <$> opts))%list)
                 (rs ++ (too_close CurveProximity rad tol el <$> opts))%list)
      as (rs' & E & Hrs').
    { intros k' Hk'. apply Hel. by apply list_elem_of_further. }
    exists rs'. split.
    + cbn [collision_elements].
      erewrite bind_ok by exact En.
      erewrite bind_ok by exact Ed.
      erewrite bind_ok by (by apply collision_options_spec).
      rewrite E. f_equal. f_equal. f_equal.
      destruct keys as [|k2 keys]; [|reflexivity].
      (* the last element: the flags are all there *)
      cbn [collision_elements] in E. injection E as <-. reflexivity.
    + intros b. rewrite Hrs'. rewrite elem_of_app, list_elem_of_fmap.
      split.
      * intros [[H|(o & -> & Ho)]|(k' & el' & o & Hk' & He' & Ho & ->)].
        -- auto.
        -- right. exists k, el, o. split; [apply list_elem_of_here|]. auto.
        -- right. exists k', el', o.
           split; [by apply list_elem_of_further|]. auto.
      * intros [H|(k' & el' & o & Hk' & He' & Ho & ->)]; [auto|].
        apply elem_of_cons in Hk' as [->|Hk'].
        -- left. right. exists o. rewrite Hk in He'. injection He' as <-.
           auto.
        -- right. exists k', el', o. auto.
Qed.

(** The call on an assembly whose nodes all hold elements. *)
Lemma collision_check_spec (st : state) (opts : list Element)
    (tol rad : Qc) :
  opts = [] \/ globals st !! "rod_radius" = Some rad ->
  (forall k, is_Some (node st !! k) -> is_Some (element_at st k)) ->
  exists b,
    collision_check CurveProximity opts tol st = (st, Ok b)
    /\ (b = true <-> some_pair_too_close CurveProximity st opts rad tol).
Proof.
  intros Hg Hel.
  destruct (collision_elements_spec st opts tol rad
              (fst <$> map_to_list (node st)) false [] Hg)
    as (rs' & E & Hrs').
  { intros k Hk. apply Hel.
    apply list_elem_of_fmap in Hk as ([k' a] & -> & Hka).
    apply elem_of_map_to_list in Hka. simpl. eauto. }
  exists (existsb id rs'). split.
  - unfold collision_check.
    unfold mbind at 1, ST_bind at 1, get. cbn iota beta.
    erewrite bind_ok by exact E.
    destruct (fst <$> map_to_list (node st)) as [|k ks] eqn:Ek;
      [|reflexivity].
    cbn [collision_elements] in E. injection E as <-. reflexivity.
  - rewrite existsb_id_true, Hrs'. unfold some_pair_too_close. split.
    + intros [H|(k & el & o & _ & He & Ho & Hb)];
        [by apply elem_of_nil in H|].
      exists k, el, o. auto.
    + intros (k & el & o & He & Ho & Hb). right.
      exists k, el, o. split; [|auto].
      apply list_elem_of_fmap.
      unfold element_at in He.
      destruct (node st !! k) as [attrs|] eqn:Hk; [|discriminate].
      exists (k, attrs). split; [reflexivity|].
      by apply elem_of_map_to_list.
Qed.

Lemma too_close_mono (rad tol tol' : Qc) (a b : Element) :
  (forall x y : Qc, (x <= y)%Qc -> (fl x <= fl y)%Qc) ->
  (tol <= tol')%Qc ->
  too_close CurveProximity rad tol a b = true ->
  too_close CurveProximity rad tol' a b = true.
Proof.
  unfold too_close, Qc_ltb, fadd. intros Hmono Ht H.
  apply bool_decide_eq_true in H. apply bool_decide_eq_true.
  eapply Qclt_le_trans; [exact H|].
  apply Hmono.
  apply Qcplus_le_compat; [apply Qcle_refl|exact Ht].
Qed.

Lemma wf_holds_elements (st : state) :
  wf st -> forall k, is_Some (node st !! k) -> is_Some (element_at st k).
Proof.
  intros Hwf k [attrs Hk].
  destruct (wf_elements _ Hwf _ _ Hk) as (r & Hr & Hlive).
  unfold element_at. rewrite Hk. simpl. rewrite Hr. simpl. exact Hlive.
Qed.

(** X8. The collision validator is a full pairwise scan. On an assembly
    whose nodes all hold elements and whose rod radius is set, the call
    returns without changing the store, and it answers [True] exactly
    when some placed element and some option element are closer than
    twice the rod radius plus the tolerance. *)
Theorem collision_check_iff (st : state) (opts : list Element)
    (tol rad : Qc) :
  globals st !! "rod_radius" = Some rad ->
  (forall k, is_Some (node st !! k) -> is_Some (element_at st k)) ->
  exists b,
    collision_check CurveProximity opts tol st = (st, Ok b)
    /\ (b = true <-> some_pair_too_close CurveProximity st opts rad tol).
Proof.
  intros Hg Hel. apply collision_check_spec; auto.
Qed.

(** The scan is monotonic in the tolerance for every rounding that
    keeps the order: the threshold [rod_radius*2. + tolerance] is a
    rounded sum. *)
Lemma collision_scan_monotone (st : state)
    (opts : list Element) (tol tol' rad : Qc) :
  (forall x y : Qc, (x <= y)%Qc -> (fl x <= fl y)%Qc) ->
  globals st !! "rod_radius" = Some rad ->
  (forall k, is_Some (node st !! k) -> is_Some (element_at st k)) ->
  (tol <= tol')%Qc ->
  collision_check CurveProximity opts tol st = (st, Ok true) ->
  collision_check CurveProximity opts tol' st = (st, Ok true).
Proof.
  intros Hmono Hg Hel Ht H.
  destruct (collision_check_spec st opts tol rad (or_intror Hg) Hel)
    as (b & E & Hb).
  destruct (collision_check_spec st opts tol' rad (or_intror Hg) Hel)
    as (b' & E' & Hb').
  rewrite E in H. injection H as ->.
  rewrite E'. f_equal. f_equal. apply Hb'.
  destruct (proj1 Hb eq_refl) as (k & el & o & He & Ho & Hc).
  exists k, el, o. split; [exact He|]. split; [exact Ho|].
  eapply too_close_mono; eassumption.
Qed.

(** X10. Nothing to compare. With no option element, or with no node,
    the call answers [False] and leaves the store as it was; the rod
    radius is not looked up, so it need not be set. *)
Theorem collision_check_nothing_to_compare (st : state)
    (opts : list Element) (tol : Qc) :
  opts = [] \/ node st = ∅ ->
  (forall k, is_Some (node st !! k) -> is_Some (element_at st k)) ->
  collision_check CurveProximity opts tol st = (st, Ok false).
Proof.
  intros [->|Hn] Hel.
  - destruct (collision_check_spec st [] tol 0%Qc (or_introl eq_refl) Hel)
      as (b & E & Hb).
    rewrite E. f_equal. f_equal.
    destruct b; [|reflexivity].
    destruct (proj1 Hb eq_refl) as (k & el & o & _ & Ho & _).
    by apply elem_of_nil in Ho.
  - unfold collision_check.
    unfold mbind at 1, ST_bind at 1, get. cbn iota beta.
    rewrite Hn, map_to_list_empty. reflexivity.
Qed.

End WithKernel.

(** X9. The collision validator is monotonic in the tolerance: on an
    assembly whose nodes all hold elements and whose rod radius is set, a
    call that answers [True] still answers [True] for every larger
    tolerance. The threshold [rod_radius*2. + tolerance] is a rounded
    sum, and rounding to nearest keeps the order. *)
Theorem collision_check_tolerance_monotone `{K : Kernel}
    (CurveProximity : Element -> Element -> Qc) (st : state)
    (opts : list Element) (tol tol' rad : Qc) :
  globals st !! "rod_radius" = Some rad ->
  (forall k, is_Some (node st !! k) -> is_Some (element_at st k)) ->
  (tol <= tol')%Qc ->
  collision_check (Rd := binary64) CurveProximity opts tol st
  = (st, Ok true) ->
  collision_check (Rd := binary64) CurveProximity opts tol' st
  = (st, Ok true).
Proof.
  intros Hg Hel Ht H.
  eapply (collision_scan_monotone (Rd := binary64)); try eassumption.
  exact Binary64Facts.binary64_round_monotone.
Qed.

Lemma collision_check_iff_witness :
  exists b,
    collision_check example_proximity [unit_element true true] 0%Qc
      (one_element true true) = (one_element true true, Ok b)
    /\ (b = true <->
        some_pair_too_close example_proximity (one_element true true)
          [unit_element true true] (qc 1 100) 0%Qc).
Proof.
  apply (collision_check_iff example_proximity (one_element true true)
           [unit_element true true] 0%Qc (qc 1 100)).
  - reflexivity.
  - apply wf_holds_elements, wf_one_element.
Defined.

Lemma collision_check_tolerance_monotone_witness :
  collision_check (Rd := binary64) example_proximity
    [unit_element true true] (qc 1 1) (one_element true true)
  = (one_element true true, Ok true).
Proof.
  apply (collision_check_tolerance_monotone example_proximity
           (one_element true true) [unit_element true true]
           0%Qc (qc 1 1) (qc 1 100)).
  - reflexivity.
  - apply wf_holds_elements, wf_one_element.
  - vm_compute. discriminate.
  - vm_compute. reflexivity.
Defined.

Lemma collision_check_nothing_to_compare_witness :
  collision_check example_proximity [] 0%Qc (one_element true true)
  = (one_element true true, Ok false).
Proof.
  apply (collision_check_nothing_to_compare example_proximity
           (one_element true true) [] 0%Qc).
  - left. reflexivity.
  - apply wf_holds_elements, wf_one_element.
Defined.

(** The threshold is the rounded sum. With the rod radius 0.001 and the
    tolerance 0.018 the floats give [0.001*2. + 0.018 =
    0.019999999999999997]: two rods at exactly that distance are not too
    close, although the distance is below the exact sum of the two
    floats. *)
Example threshold_is_rounded :
  let radius := binary64_round (qc 1 1000) in
  let tolerance := binary64_round (qc 18 1000) in
  let distance := qc 2882303761517117 144115188075855872 in
  fadd (fmul radius (qc 2 1)) tolerance = distance
  /\ (distance < radius * qc 2 1 + tolerance)%Qc
  /\ too_close (fun _ _ => distance) radius tolerance
       (unit_element true true) (unit_element true true) = false.
Proof.
  split; [apply Qc_is_canon; vm_compute; reflexivity|].
  split; vm_compute; reflexivity.
Qed.

End CollisionFacts.

(** ** The range filter *)

Module RangeFacts.
Import Assembly Contracts AssemblyMore RangeSpec PlacementFacts AssemblyMoreFacts.

Section WithKernel.
Context `{K : Kernel} `{Rd : Rounding}.
Variable base_frame : Frame.

Lemma filtered_frame (e : Element) : frame (filtered base_frame e) = frame e.
Proof.
  unfold filtered.
  destruct (connector_1_state e), (connector_2_state e),
    (in_reach base_frame (connector_frame_1 e)),
    (in_reach base_frame (connector_frame_2 e)); reflexivity.
Qed.

Lemma filtered_connector_frames (e : Element) :
  connector_frame_1 (filtered base_frame e) = connector_frame_1 e
  /\ connector_frame_2 (filtered base_frame e) = connector_frame_2 e.
Proof.
  unfold connector_frame_1, connector_frame_2.
  rewrite filtered_frame. auto.
Qed.

(** An element whose connector 1 is open and within reach is a fixed
    point of a visit. *)
Lemma filtered_fixed (e : Element) :
  connector_1_state e = true ->
  in_reach base_frame (connector_frame_1 e) = true ->
  filtered base_frame e = e.
Proof. unfold filtered. intros -> ->. reflexivity. Qed.

Lemma visited_first (e0 : Element) :
  visited base_frame e0 (filtered base_frame e0).
Proof.
  unfold visited, filtered.
  destruct e0 as [f c1 c2]; simpl.
  unfold connector_frame_1, connector_frame_2; simpl.
  destruct c1, c2;
    destruct (in_reach base_frame (connector_frame 1 f)) eqn:E1;
    destruct (in_reach base_frame (connector_frame 2 f)) eqn:E2;
    simpl; repeat split; congruence.
Qed.

Lemma visited_again (e0 e : Element) :
  visited base_frame e0 e -> visited base_frame e0 (filtered base_frame e).
Proof.
  unfold visited. intros (Hf & H1 & H0 & H2).
  unfold filtered, connector_frame_1, connector_frame_2 in *.
  rewrite Hf.
  destruct e as [f c1 c2]; simpl in *.
  destruct c1, c2;
    destruct (in_reach base_frame (connector_frame 1 (frame e0))) eqn:E1;
    destruct (in_reach base_frame (connector_frame 2 (frame e0))) eqn:E2;
    simpl; repeat split; try congruence; auto.
Qed.

Lemma visited_iter (n : nat) (e0 : Element) :
  (1 <= n)%nat ->
  visited base_frame e0 (Nat.iter n (filtered base_frame) e0).
Proof.
  induction n as [|n IH]; [lia|]. intros _.
  destruct n as [|n].
  - apply visited_first.
  - rewrite Nat.iter_succ. apply visited_again. apply IH. lia.
Qed.

Lemma fixed_iter (n : nat) (e : Element) :
  filtered base_frame e = e -> Nat.iter n (filtered base_frame) e = e.
Proof.
  intros He. induction n as [|n IH]; [reflexivity|].
  rewrite Nat.iter_succ, IH. exact He.
Qed.

(** One visit. *)
Lemma range_filter_element_effect (st : state) (r : ref) (e : Element) :
  heap st !! r = Some e ->
  exists st',
    range_filter_element base_frame r st = (st', Ok tt)
    /\ heap_update st st'
    /\ heap st' !! r = Some (filtered base_frame e)
    /\ (forall r', r' <> r -> heap st' !! r' = heap st !! r').
Proof.
  intros He. unfold range_filter_element.
  erewrite bind_ok by (apply deref_ok; exact He).
  unfold filtered, in_reach.
  assert (Hset1 : exists st',
    set_connector_1_state r false st = (st', Ok tt)
    /\ heap_update st st'
    /\ heap st' !! r = Some (mkElement (frame e) false (connector_2_state e))
    /\ (forall r', r' <> r -> heap st' !! r' = heap st !! r')).
  { eexists. split; [reflexivity|]. split; [apply heap_update_alter|].
    simpl. split; [rewrite lookup_alter_eq, He; reflexivity|].
    intros r' Hr'. by rewrite lookup_alter_ne. }
  assert (Hset2 : exists st',
    set_connector_2_state r false st = (st', Ok tt)
    /\ heap_update st st'
    /\ heap st' !! r = Some (mkElement (frame e) (connector_1_state e) false)
    /\ (forall r', r' <> r -> heap st' !! r' = heap st !! r')).
  { eexists. split; [reflexivity|]. split; [apply heap_update_alter|].
    simpl. split; [rewrite lookup_alter_eq, He; reflexivity|].
    intros r' Hr'. by rewrite lookup_alter_ne. }
  assert (Hsame : exists st',
    (mret tt : ST state unit) st = (st', Ok tt)
    /\ heap_update st st' /\ heap st' !! r = Some e
    /\ (forall r', r' <> r -> heap st' !! r' = heap st !! r')).
  { exists st. split; [reflexivity|]. split; [apply heap_update_refl|]. auto. }
  destruct (connector_1_state e).
  - destruct (out_of_range _); simpl; [exact Hset1|exact Hsame].
  - destruct (connector_2_state e).
    + destruct (out_of_range _); simpl; [exact Hset2|exact Hsame].
    + exact Hsame.
Qed.

Lemma element_ref_lookup (st : state) (k : Z) (r : ref) :
  element_ref st k = Some r -> node_element k st = (st, Ok r).
Proof.
  unfold element_ref. intros H.
  destruct (node st !! k) as [attrs|] eqn:Hk; [|discriminate]. simpl in H.
  destruct (attrs !! "element") as [v|] eqn:Hv; [|discriminate]. simpl in H.
  destruct v; try discriminate. injection H as ->.
  eapply node_element_ok; eassumption.
Qed.

Lemma element_ref_update (st st' : state) (k : Z) :
  heap_update st st' -> element_ref st' k = element_ref st k.
Proof. intros (Hn & _). unfold element_ref. rewrite Hn. reflexivity. Qed.

Lemma iter_shift {A} (f : A -> A) (n : nat) (x : A) :
  Nat.iter n f (f x) = Nat.iter (S n) f x.
Proof.
  induction n as [|n IH]; [reflexivity|].
  rewrite Nat.iter_succ, IH. reflexivity.
Qed.

(** The loop over a list of keys that all hold live elements: every
    element object ends as some number of visits of what it was, at
    least one visit when one of the keys holds it. *)
Lemma range_filter_loop (ks : list Z) (st : state) :
  (forall k, k ∈ ks ->
     exists r, element_ref st k = Some r /\ is_Some (heap st !! r)) ->
  exists st',
    for_each ks (fun k => element ← node_element k;
                          range_filter_element base_frame element) st
      = (st', Ok tt)
    /\ heap_update st st'
    /\ (forall r e, heap st !! r = Some e ->
          exists n, heap st' !! r = Some (Nat.iter n (filtered base_frame) e)
                    /\ ((exists k, k ∈ ks /\ element_ref st k = Some r) ->
                        (1 <= n)%nat)).
Proof.
  revert st. induction ks as [|k ks IH]; intros st Hks.
  - exists st. split; [reflexivity|]. split; [apply heap_update_refl|].
    intros r e He. exists 0%nat. split; [exact He|].
    intros (k & Hk & _). by apply elem_of_nil in Hk.
  - destruct (Hks k) as (rk & Hrk & [ek Hek]); [apply list_elem_of_here|].
    destruct (range_filter_element_effect st rk ek Hek)
      as (st1 & E1 & Hu1 & Hk1 & Hother).
    destruct (IH st1) as (st' & E & Hu & Hheap).
    { intros k' Hk'. destruct (Hks k') as (r' & Hr' & Hlive);
        [by apply list_elem_of_further|].
      exists r'. split; [by rewrite (element_ref_update st st1)|].
      eapply heap_update_live; eassumption. }
    exists st'. split.
    { cbn [for_each]. erewrite bind_ok; [exact E|].
      erewrite bind_ok by (apply element_ref_lookup; exact Hrk).
      exact E1. }
    split; [eapply heap_update_trans; eassumption|].
    intros r e He.
    destruct (decide (r = rk)) as [->|Hne].
    + rewrite Hek in He. injection He as <-.
      destruct (Hheap rk (filtered base_frame ek) Hk1) as (n & Hn & _).
      exists (S n). rewrite <- iter_shift. split; [exact Hn|]. lia.
    + assert (He1 : heap st1 !! r = Some e) by (rewrite Hother; auto).
      destruct (Hheap r e He1) as (n & Hn & Hvis).
      exists n. split; [exact Hn|].
      intros (k' & Hk' & Hr'). apply Hvis.
      apply elem_of_cons in Hk' as [->|Hk'].
      * rewrite Hrk in Hr'. congruence.
      * exists k'. split; [exact Hk'|].
        by rewrite (element_ref_update st st1).
Qed.

Lemma element_at_ref (st : state) (k : Z) :
  is_Some (element_at st k) ->
  exists r, element_ref st k = Some r /\ is_Some (heap st !! r).
Proof.
  unfold element_at, element_ref. intros [el H].
  destruct (node st !! k) as [attrs|]; [|discriminate]. simpl in *.
  destruct (attrs !! "element") as [v|]; [|discriminate]. simpl in *.
  destruct v; try discriminate. eauto.
Qed.

Lemma range_filter_spec (st : state) :
  holds_elements st ->
  exists st',
    range_filter base_frame st = (st', Ok tt)
    /\ heap_update st st'
    /\ (forall r e, heap st !! r = Some e ->
          exists n, heap st' !! r = Some (Nat.iter n (filtered base_frame) e)
                    /\ ((exists k, element_ref st k = Some r) ->
                        (1 <= n)%nat)).
Proof.
  intros Hel.
  destruct (range_filter_loop (fst <$> map_to_list (node st)) st)
    as (st' & E & Hu & Hheap).
  { intros k Hk. apply element_at_ref, Hel.
    apply list_elem_of_fmap in Hk as ([k' a] & -> & Hka).
    apply elem_of_map_to_list in Hka. simpl. eauto. }
  exists st'. split.
  { unfold range_filter. unfold mbind at 1, ST_bind at 1, get.
    cbn iota beta. exact E. }
  split; [exact Hu|].
  intros r e He. destruct (Hheap r e He) as (n & Hn & Hvis).
  exists n. split; [exact Hn|].
  intros (k & Hk). apply Hvis. exists k. split; [|exact Hk].
  apply list_elem_of_fmap. unfold element_ref in Hk.
  destruct (node st !! k) as [attrs|] eqn:Hnk; [|discriminate].
  exists (k, attrs). split; [reflexivity|]. by apply elem_of_map_to_list.
Qed.

(** X11. What the range filter establishes. On an assembly whose nodes
    all hold elements the call returns; the graph, the globals and the
    poses are as before; and for the element of every node, afterwards
    connector 1 is open only if it is within reach of the base, and, when
    connector 1 was closed before the call, connector 2 is open only if
    it is within reach. *)
Theorem range_filter_establishes (st : state) :
  holds_elements st ->
  exists st',
    range_filter base_frame st = (st', Ok tt)
    /\ heap_update st st'
    /\ (forall k r e, element_ref st k = Some r -> heap st !! r = Some e ->
          exists e', heap st' !! r = Some e' /\ visited base_frame e e').
Proof.
  intros Hel. destruct (range_filter_spec st Hel) as (st' & E & Hu & Hheap).
  exists st'. split; [exact E|]. split; [exact Hu|].
  intros k r e Hk He. destruct (Hheap r e He) as (n & Hn & Hvis).
  eexists. split; [exact Hn|]. apply visited_iter. apply Hvis. eauto.
Qed.

(** X12. The filter looks at the first open connector only. An element
    whose connector 1 is open and within reach comes out of the call
    exactly as it went in, whatever the state and the distance of its
    connector 2: an open connector 2 out of reach stays open. *)
Theorem range_filter_ignores_connector_2 (st : state) (r : ref)
    (e : Element) :
  holds_elements st ->
  heap st !! r = Some e ->
  connector_1_state e = true ->
  in_reach base_frame (connector_frame_1 e) = true ->
  exists st', range_filter base_frame st = (st', Ok tt)
              /\ heap st' !! r = Some e.
Proof.
  intros Hel He Hc Hin.
  destruct (range_filter_spec st Hel) as (st' & E & _ & Hheap).
  exists st'. split; [exact E|].
  destruct (Hheap r e He) as (n & Hn & _).
  rewrite Hn. f_equal. apply fixed_iter. by apply filtered_fixed.
Qed.

End WithKernel.

Lemma rod_at_origin_holds : @holds_elements line_kernel rod_at_origin.
Proof.
  intros k [attrs Hk].
  destruct (decide (k = 0)) as [->|Hne].
  - vm_compute. eauto.
  - exfalso. revert Hk. unfold rod_at_origin.
    assert (Hlive :
      heap (@mkState line_kernel ∅ ∅ (-1)
              {[0%nat := @mkElement line_kernel 0%Qc true true]}
              ∅ example_globals) !! 0%nat
      = Some (@mkElement line_kernel 0%Qc true true)) by reflexivity.
    destruct (@add_element_effect line_kernel _ 0%nat _ None None ∅ Hlive)
      as (st' & k' & a & E & Hk' & Hn & _).
    rewrite E. simpl. rewrite Hn. simpl in Hk'. subst k'.
    rewrite lookup_insert_ne by (simpl; lia).
    simpl. rewrite lookup_empty. discriminate.
Qed.

Lemma range_filter_establishes_witness :
  exists st',
    @range_filter line_kernel binary64 (qc 3 1) rod_at_origin = (st', Ok tt)
    /\ heap_update rod_at_origin st'
    /\ (forall k r e, element_ref rod_at_origin k = Some r ->
          heap rod_at_origin !! r = Some e ->
          exists e', heap st' !! r = Some e'
                     /\ @visited line_kernel binary64 (qc 3 1) e e').
Proof.
  apply (@range_filter_establishes line_kernel binary64 (qc 3 1) rod_at_origin).
  apply rod_at_origin_holds.
Defined.

Lemma range_filter_ignores_connector_2_witness :
  exists st',
    @range_filter line_kernel binary64 0%Qc rod_at_origin = (st', Ok tt)
    /\ @heap line_kernel st' !! 0%nat
       = Some (@mkElement line_kernel 0%Qc true true).
Proof.
  apply (@range_filter_ignores_connector_2 line_kernel binary64 0%Qc rod_at_origin
           0%nat (@mkElement line_kernel 0%Qc true true)).
  - apply rod_at_origin_holds.
  - reflexivity.
  - reflexivity.
  - vm_compute. reflexivity.
Defined.

(** The rod at the origin seen from a base at the origin: connector 2,
    at distance 2, is out of reach and stays open. *)
Example range_filter_leaves_far_connector_2 :
  @in_reach line_kernel binary64 0%Qc
    (connector_frame_2 (@mkElement line_kernel 0%Qc true true)) = false
  /\ (@connector_2_state line_kernel <$>
        @heap line_kernel
          (fst (@range_filter line_kernel binary64 0%Qc rod_at_origin)) !! 0%nat)
     = Some true.
Proof. split; vm_compute; reflexivity. Qed.

(** The bound of the reach is the float [1.3], a little more than 13/10:
    a connector at exactly that distance from the base is within reach
    and stays open. *)
Example range_filter_keeps_connector_at_float_bound :
  let far := (binary64_round (qc 13 10) - 1)%Qc in
  let rod := @mkElement line_kernel far true true in
  (qc 13 10 < binary64_round (qc 13 10))%Qc
  /\ @distance_point_point line_kernel
       (frame_point (connector_frame_1 rod)) 0%Qc
     = binary64_round (qc 13 10)
  /\ @in_reach line_kernel binary64 0%Qc (connector_frame_1 rod) = true
  /\ @filtered line_kernel binary64 0%Qc rod = rod.
Proof. repeat split; vm_compute; reflexivity. Qed.

End RangeFacts.

(** ** The connector transition and the closing of a module *)

Module TransitionFacts.
Import Assembly Contracts AssemblyMore RangeSpec TransitionSpec.
Import PlacementFacts AssemblyMoreFacts RangeFacts.

(** The five cases of a flip code. *)
Lemma flip_cases (flip : string) :
  flip = "AA" \/ flip = "AB" \/ flip = "BA" \/ flip = "BB"
  \/ (String.eqb flip "AA" = false /\ String.eqb flip "AB" = false
      /\ String.eqb flip "BA" = false /\ String.eqb flip "BB" = false).
Proof.
  destruct (String.eqb_spec flip "AA"); [tauto|].
  destruct (String.eqb_spec flip "AB"); [tauto|].
  destruct (String.eqb_spec flip "BA"); [tauto|].
  destruct (String.eqb_spec flip "BB"); tauto.
Qed.

Section WithKernel.
Context `{K : Kernel} `{Rd : Rounding}.

Lemma heap_set_heap (g : gmap ref Element -> gmap ref Element) (st : state) :
  heap (set_heap g st) = g (heap st).
Proof. reflexivity. Qed.

Lemma set_connector_1_state_eq r b st :
  set_connector_1_state r b st
  = (set_heap (alter (fun e => mkElement (frame e) b (connector_2_state e)) r) st,
     Ok tt).
Proof. reflexivity. Qed.

Lemma set_connector_2_state_eq r b st :
  set_connector_2_state r b st
  = (set_heap (alter (fun e => mkElement (frame e) (connector_1_state e) b) r) st,
     Ok tt).
Proof. reflexivity. Qed.

Lemma when_true_eq (m : ST state unit) st : when true m st = m st.
Proof. reflexivity. Qed.

Lemma when_false_eq (m : ST state unit) st : when false m st = (st, Ok tt).
Proof. reflexivity. Qed.

End WithKernel.

(** Run the straight-line code of the transition: binds, [when]s and
    assignments, and the reads of the current element in between. *)
Ltac run_transition He :=
  repeat first
    [ rewrite when_true_eq
    | rewrite when_false_eq
    | erewrite bind_ok by apply set_connector_1_state_eq
    | erewrite bind_ok by apply set_connector_2_state_eq
    | erewrite bind_ok by apply when_false_eq
    | rewrite set_connector_1_state_eq
    | rewrite set_connector_2_state_eq
    | erewrite bind_ok by
        (apply deref_ok; rewrite ?heap_set_heap;
         rewrite ?lookup_alter_ne by congruence; exact He)
    | progress cbn beta iota ].

Section Transition.
Context `{K : Kernel} `{Rd : Rounding}.

Lemma transition_run (st : state) (flip : string) (rcur rprev rnew : ref)
    (ce pe ne : Element) :
  heap st !! rcur = Some ce -> heap st !! rprev = Some pe ->
  heap st !! rnew = Some ne ->
  rcur <> rprev -> rcur <> rnew -> rprev <> rnew ->
  exists st',
    (ce ← deref rcur;
     _ ← when (connector_2_state ce)
       (_ ← when (String.eqb flip "AA")
              (_ ← set_connector_2_state rprev false;
               set_connector_2_state rnew false);
        _ ← when (String.eqb flip "AB")
              (_ ← set_connector_2_state rprev false;
               set_connector_1_state rnew false);
        _ ← when (String.eqb flip "BA")
              (_ ← set_connector_1_state rprev false;
               set_connector_2_state rnew false);
        when (String.eqb flip "BB")
              (_ ← set_connector_1_state rprev false;
               set_connector_1_state rnew false));
     ce ← deref rcur;
     when (connector_1_state ce)
       (_ ← when (String.eqb flip "AA")
              (_ ← set_connector_1_state rprev false;
               set_connector_1_state rnew false);
        _ ← when (String.eqb flip "AB")
              (_ ← set_connector_1_state rprev false;
               set_connector_2_state rnew false);
        _ ← when (String.eqb flip "BA")
              (_ ← set_connector_2_state rprev false;
               set_connector_1_state rnew false);
        when (String.eqb flip "BB")
              (_ ← set_connector_2_state rprev false;
               set_connector_2_state rnew false))) st
    = (st', Ok tt)
    /\ heap_update st st'
    /\ heap st' !! rprev = Some (transition_previous flip ce pe)
    /\ heap st' !! rnew = Some (transition_new flip ce ne)
    /\ (forall r, r <> rprev -> r <> rnew -> heap st' !! r = heap st !! r).
Proof.
  intros He Hp Hn H1 H2 H3.
  unfold transition_previous, transition_new, close_connectors,
    closes_previous_1, closes_previous_2, closes_new_1, closes_new_2, flip_in.
  destruct ce as [fc c1 c2]; cbn [connector_1_state connector_2_state].
  destruct (flip_cases flip) as [-> | [-> | [-> | [-> | (E1 & E2 & E3 & E4)]]]];
    [cbn [String.eqb Ascii.eqb Bool.eqb andb orb] ..
    | rewrite ?E1, ?E2, ?E3, ?E4];
    destruct c1, c2; cbn [andb orb negb];
    (eexists; split; [run_transition He; reflexivity|]).
  all: split;
    [ repeat first [ apply heap_update_refl
                   | eapply heap_update_trans; [|apply heap_update_alter] ]
    | ].
  all: rewrite ?heap_set_heap.
  all: split;
    [ repeat first [ rewrite lookup_alter_eq
                   | rewrite lookup_alter_ne by congruence ];
      rewrite Hp; destruct pe as [f [] []]; reflexivity|].
  all: split;
    [ repeat first [ rewrite lookup_alter_eq
                   | rewrite lookup_alter_ne by congruence ];
      rewrite Hn; destruct ne as [f [] []]; reflexivity|].
  all: intros r Hr1 Hr2; rewrite ?lookup_alter_ne by congruence; reflexivity.
Qed.

(** Outside the case [unit_index == 1] the method only looks up its two
    elements. *)
Lemma update_connectors_states_idle (st : state) (current_key : Z)
    (flip : string) (rnew rcur rprev : ref) (unit_index : Z) :
  unit_index <> 1 ->
  element_ref st current_key = Some rcur ->
  (2 <= size (node st))%nat ->
  element_ref st (Z.of_nat (size (node st)) - 2) = Some rprev ->
  update_connectors_states current_key flip rnew unit_index st = (st, Ok tt).
Proof.
  intros Hu Hc Hs Hp. unfold update_connectors_states.
  erewrite bind_ok by (apply element_ref_lookup; exact Hc).
  erewrite bind_ok by apply number_of_nodes_ok.
  rewrite (bool_decide_eq_false_2 (Z.of_nat (size (node st)) < 2)) by lia.
  erewrite bind_ok by apply when_false_eq.
  erewrite bind_ok by (apply element_ref_lookup; exact Hp).
  rewrite bool_decide_eq_false_2 by exact Hu. reflexivity.
Qed.

Lemma update_connectors_states_run (st : state) (current_key : Z)
    (flip : string) (rcur rprev rnew : ref) (ce pe ne : Element) :
  element_ref st current_key = Some rcur ->
  (2 <= size (node st))%nat ->
  element_ref st (Z.of_nat (size (node st)) - 2) = Some rprev ->
  heap st !! rcur = Some ce -> heap st !! rprev = Some pe ->
  heap st !! rnew = Some ne ->
  rcur <> rprev -> rcur <> rnew -> rprev <> rnew ->
  exists st',
    update_connectors_states current_key flip rnew 1 st = (st', Ok tt)
    /\ heap_update st st'
    /\ heap st' !! rprev = Some (transition_previous flip ce pe)
    /\ heap st' !! rnew = Some (transition_new flip ce ne)
    /\ (forall r, r <> rprev -> r <> rnew -> heap st' !! r = heap st !! r).
Proof.
  intros Hc Hs Hpk He Hp Hn H1 H2 H3.
  destruct (transition_run st flip rcur rprev rnew ce pe ne
              He Hp Hn H1 H2 H3) as (st' & E & Hrest).
  exists st'. split; [|exact Hrest].
  unfold update_connectors_states.
  erewrite bind_ok by (apply element_ref_lookup; exact Hc).
  erewrite bind_ok by apply number_of_nodes_ok.
  rewrite (bool_decide_eq_false_2 (Z.of_nat (size (node st)) < 2)) by lia.
  erewrite bind_ok by apply when_false_eq.
  erewrite bind_ok by (apply element_ref_lookup; exact Hpk).
  rewrite (bool_decide_eq_true_2 (1 = 1)) by reflexivity.
  rewrite when_true_eq. exact E.
Qed.

(** X13. The transition table as the code executes it. On a store with
    at least two nodes, where the current element, the previous element
    (the one of the node before the last) and the new element are three
    different objects, [update_connectors_states] with [unit_index = 1]
    returns, and it leaves: on the previous and on the new element, each
    connector closed that the flip code selects for an open connector of
    the current element (both selections when both are open), the other
    connectors and the poses as before; every other element, the current
    one included, untouched; the graph untouched. *)
Theorem update_connectors_states_table (st : state) (current_key : Z)
    (flip : string) (rcur rprev rnew : ref) (ce pe ne : Element) :
  element_ref st current_key = Some rcur ->
  (2 <= size (node st))%nat ->
  element_ref st (Z.of_nat (size (node st)) - 2) = Some rprev ->
  heap st !! rcur = Some ce -> heap st !! rprev = Some pe ->
  heap st !! rnew = Some ne ->
  rcur <> rprev -> rcur <> rnew -> rprev <> rnew ->
  exists st',
    update_connectors_states current_key flip rnew 1 st = (st', Ok tt)
    /\ heap_update st st'
    /\ heap st' !! rprev = Some (transition_previous flip ce pe)
    /\ heap st' !! rnew = Some (transition_new flip ce ne)
    /\ (forall r, r <> rprev -> r <> rnew -> heap st' !! r = heap st !! r).
Proof. apply update_connectors_states_run. Qed.

Lemma mirror_closes (flip : string) (c1 c2 : bool) :
  valid_flip flip = true ->
  closes_previous_1 (mirror flip) c1 c2 = closes_previous_2 flip c1 c2
  /\ closes_previous_2 (mirror flip) c1 c2 = closes_previous_1 flip c1 c2
  /\ closes_new_1 (mirror flip) c1 c2 = closes_new_2 flip c1 c2
  /\ closes_new_2 (mirror flip) c1 c2 = closes_new_1 flip c1 c2.
Proof.
  intros Hv. apply valid_flip_cases in Hv.
  destruct Hv as [-> | [-> | [-> | ->]]]; destruct c1, c2;
    vm_compute; auto.
Qed.

(** X14. The table is symmetric under mirroring of the flip code. In the
    situation of the table, running the transition with the mirrored
    code (AA for BB, AB for BA and back) closes, on the previous and on
    the new element, connector 2 exactly where the original code closes
    connector 1, and connector 1 where it closes connector 2. *)
Theorem update_connectors_states_mirror (st : state) (current_key : Z)
    (flip : string) (rcur rprev rnew : ref) (ce pe ne : Element) :
  valid_flip flip = true ->
  element_ref st current_key = Some rcur ->
  (2 <= size (node st))%nat ->
  element_ref st (Z.of_nat (size (node st)) - 2) = Some rprev ->
  heap st !! rcur = Some ce -> heap st !! rprev = Some pe ->
  heap st !! rnew = Some ne ->
  rcur <> rprev -> rcur <> rnew -> rprev <> rnew ->
  let c1 := connector_1_state ce in
  let c2 := connector_2_state ce in
  exists st',
    update_connectors_states current_key (mirror flip) rnew 1 st
      = (st', Ok tt)
    /\ heap st' !! rprev
       = Some (close_connectors (closes_previous_2 flip c1 c2)
                                (closes_previous_1 flip c1 c2) pe)
    /\ heap st' !! rnew
       = Some (close_connectors (closes_new_2 flip c1 c2)
                                (closes_new_1 flip c1 c2) ne).
Proof.
  intros Hv Hc Hs Hpk He Hp Hn H1 H2 H3 c1 c2.
  destruct (update_connectors_states_run st current_key (mirror flip)
              rcur rprev rnew ce pe ne Hc Hs Hpk He Hp Hn H1 H2 H3)
    as (st' & E & _ & Hprev & Hnew & _).
  destruct (mirror_closes flip c1 c2 Hv) as (M1 & M2 & M3 & M4).
  exists st'. split; [exact E|].
  unfold transition_previous, transition_new in *. fold c1 c2 in Hprev, Hnew.
  rewrite M1, M2 in Hprev. rewrite M3, M4 in Hnew. auto.
Qed.

End Transition.

(** *** The placement, with the element objects it leaves *)

Section Placement.
Context `{K : Kernel} `{Rd : Rounding}.

(** The placement up to the edges: a copy of the current element, moved,
    is in a new node under the key [N], the edges are added, and what is
    left to run is the transition and the terminal guard. *)
Lemma placement_unfold (st : state) (current_key : Z)
    (flip : string) (angle shift_value : Qc) (placed_by : string)
    (on_ground : bool) (unit_index : Z) (frame_id frame_est : value)
    (acur : gmap string value) (rcur : ref) (ce : Element) :
  wf st -> valid_flip flip = true ->
  node st !! current_key = Some acur ->
  acur !! "element" = Some (VElem rcur) ->
  heap st !! rcur = Some ce ->
  let N := Z.of_nat (size (node st)) in
  let r := fresh (dom (heap st)) in
  exists attrs dd fr,
    add_rf_unit_element current_key flip angle shift_value placed_by
      on_ground unit_index frame_id frame_est st
    = placement_suffix current_key flip r rcur unit_index
        (mkState (<[N := attrs]> (node st))
           (placement_edges current_key N unit_index (edge st)) N
           (<[r := mkElement fr (connector_1_state ce) (connector_2_state ce)]>
              (heap st))
           dd (globals st))
    /\ attrs !! "element" = Some (VElem r)
    /\ attrs !! "placed_by" = Some (VStr placed_by)
    /\ attrs !! "on_ground" = Some (VBool on_ground)
    /\ heap st !! r = None.
Proof.
  intros Hwf Hflip Hcur Hrcur Hce N r.
  pose proof (wf_next_key _ Hwf) as Hnext. fold N in Hnext.
  destruct (wf_globals _ Hwf "rod_radius") as [g1 Hg1]; [tauto|].
  destruct (wf_globals _ Hwf "rod_length") as [g2 Hg2]; [tauto|].
  destruct (wf_globals _ Hwf "rf_unit_radius") as [g3 Hg3]; [tauto|].
  destruct (wf_globals _ Hwf "rf_unit_offset") as [g4 Hg4]; [tauto|].
  unfold add_rf_unit_element.
  erewrite bind_ok by (apply global_ok; exact Hg1).
  erewrite bind_ok by (apply global_ok; exact Hg2).
  erewrite bind_ok by (apply global_ok; exact Hg3).
  erewrite bind_ok by (apply global_ok; exact Hg4).
  erewrite bind_ok by apply number_of_nodes_ok. fold N.
  erewrite bind_ok by (eapply node_element_ok; eassumption).
  erewrite bind_ok by (apply deref_ok; exact Hce).
  destruct (find_open_connector ce) as [ccf c]. cbn beta iota zeta.
  destruct (flip_signs_valid flip c Hflip) as (a & b & ->).
  cbn beta iota zeta.
  erewrite bind_ok by (apply copy_ok; exact Hce). fold r.
  assert (Hr : heap st !! r = None).
  { apply not_elem_of_dom. apply is_fresh. }
  assert (Hne : rcur <> r) by congruence.
  erewrite bind_ok by (apply deref_ok; simpl; apply lookup_insert_eq).
  set (RT := if String.eqb placed_by "robot" then _ else _).
  assert (HRT : exists R1 T1, forall s, RT s = (s, Ok (R1, T1))).
  { subst RT. destruct (String.eqb placed_by "robot"); eauto. }
  destruct HRT as (R1 & T1 & HRT).
  erewrite bind_ok by apply HRT. cbn beta iota zeta.
  erewrite bind_ok by apply transform_ok.
  erewrite bind_ok.
  2:{ apply deref_ok. simpl. rewrite lookup_alter_ne by congruence.
      rewrite lookup_insert_ne by congruence. exact Hce. }
  erewrite bind_ok by apply transform_ok.
  match goal with
  | |- context [ (add_element r None None ?k ≫= _) ?s ] =>
      set (kw := k); set (st3 := s)
  end.
  assert (Hheap3 : exists fr,
            heap st3 = <[r := mkElement fr (connector_1_state ce)
                                        (connector_2_state ce)]> (heap st)).
  { subst st3. simpl. rewrite !alter_insert_eq. simpl. eauto. }
  destruct Hheap3 as [fr Hheap3].
  assert (Hmax3 : max_node st3 + 1 = N).
  { subst st3. simpl. rewrite (wf_max _ Hwf). subst N. lia. }
  destruct (add_element_fresh st3 r
              (mkElement fr (connector_1_state ce) (connector_2_state ce)) kw)
    as (dd & attrs & E & Ha1 & Ha2 & _).
  { rewrite Hheap3. apply lookup_insert_eq. }
  { rewrite Hmax3. exact Hnext. }
  rewrite Hmax3 in E.
  rewrite (bind_ok _ _ _ _ _ E). clear E.
  assert (Hnode3 : node st3 = node st) by reflexivity.
  assert (Hedge3 : edge st3 = edge st) by reflexivity.
  assert (Hglob3 : globals st3 = globals st) by reflexivity.
  rewrite Hnode3, Hedge3, Hglob3, Hheap3.
  assert (HN1 : is_Some (node st !! (N - 1))).
  { apply (wf_keys _ Hwf).
    assert (0 <= current_key < N) by (apply (wf_keys _ Hwf); eauto).
    lia. }
  erewrite bind_ok.
  2:{ apply add_edges_ok; simpl.
      - rewrite lookup_insert_is_Some. right. split; [congruence|eauto].
      - rewrite lookup_insert_eq. eauto.
      - rewrite lookup_insert_is_Some. right. split; [lia|exact HN1].
      - intros u. apply wf_no_edge_to_next, Hwf. }
  exists attrs, dd, fr.
  split; [reflexivity|]. split; [exact Ha1|].
  split; [|split; [|exact Hr]].
  - rewrite Ha2 by reflexivity. apply lookup_union_Some_l.
    subst kw. by simplify_map_eq.
  - rewrite Ha2 by reflexivity. apply lookup_union_Some_l.
    subst kw. by simplify_map_eq.
Qed.

Lemma wf_element_ref (st : state) (k : Z) :
  wf st -> is_Some (node st !! k) ->
  exists r e, element_ref st k = Some r /\ heap st !! r = Some e.
Proof.
  intros Hwf [a Hk]. destruct (wf_elements _ Hwf _ _ Hk) as (r & Hr & [e He]).
  exists r, e. split; [|exact He].
  unfold element_ref. rewrite Hk. simpl. rewrite Hr. reflexivity.
Qed.

Lemma element_ref_insert_ne (st st' : state) (N k : Z)
    (attrs : gmap string value) :
  node st' = <[N := attrs]> (node st) -> k <> N ->
  element_ref st' k = element_ref st k.
Proof.
  intros Hn Hk. unfold element_ref. rewrite Hn.
  by rewrite lookup_insert_ne.
Qed.

(** The first unit of a pair, or any call with [unit_index] other than
    1: the new element is a moved copy of the current one, with the same
    connector states, and no existing element is touched. *)
Lemma placement_first (st : state) (current_key : Z)
    (flip : string) (angle shift_value : Qc) (placed_by : string)
    (on_ground : bool) (unit_index : Z) (frame_id frame_est : value)
    (rcur : ref) (ce : Element) :
  wf st -> valid_flip flip = true -> unit_index <> 1 ->
  element_ref st current_key = Some rcur ->
  heap st !! rcur = Some ce ->
  let N := Z.of_nat (size (node st)) in
  let r := fresh (dom (heap st)) in
  exists attrs dd fr,
    add_rf_unit_element current_key flip angle shift_value placed_by
      on_ground unit_index frame_id frame_est st
    = (mkState (<[N := attrs]> (node st))
         (placement_edges current_key N unit_index (edge st)) N
         (<[r := mkElement fr (connector_1_state ce) (connector_2_state ce)]>
            (heap st))
         dd (globals st), Ok r)
    /\ attrs !! "element" = Some (VElem r)
    /\ attrs !! "placed_by" = Some (VStr placed_by)
    /\ attrs !! "on_ground" = Some (VBool on_ground)
    /\ heap st !! r = None.
Proof.
  intros Hwf Hflip Hu Hcur Hce N r.
  assert (Hcur' := Hcur). unfold element_ref in Hcur'.
  destruct (node st !! current_key) as [acur|] eqn:Hk; [|discriminate].
  simpl in Hcur'.
  destruct (acur !! "element") as [v|] eqn:Hv; [|discriminate].
  simpl in Hcur'. destruct v; try discriminate. injection Hcur' as ->.
  destruct (placement_unfold st current_key flip angle shift_value placed_by
              on_ground unit_index frame_id frame_est acur rcur ce
              Hwf Hflip Hk Hv Hce) as (attrs & dd & fr & E & Ha & Hp & Hg & Hr).
  fold N r in E, Ha, Hr.
  exists attrs, dd, fr. split; [|auto].
  rewrite E. unfold placement_suffix.
  pose proof (wf_next_key _ Hwf) as Hnext. fold N in Hnext.
  assert (Hc : 0 <= current_key < N) by (apply (wf_keys _ Hwf); eauto).
  assert (Hsize : size (<[N := attrs]> (node st)) = S (size (node st)))
    by (by apply map_size_insert_None).
  destruct (wf_element_ref st (N - 1) Hwf) as (rprev & pe & Hprev & _).
  { apply (wf_keys _ Hwf). lia. }
  erewrite bind_ok.
  2:{ eapply (update_connectors_states_idle _ _ _ _ rcur rprev); [exact Hu|..].
      - unfold element_ref; simpl. rewrite lookup_insert_ne by lia.
        rewrite Hk. simpl. rewrite Hv. reflexivity.
      - simpl. rewrite Hsize. lia.
      - simpl. rewrite Hsize.
        replace (Z.of_nat (S (size (node st))) - 2) with (N - 1) by lia.
        unfold element_ref in *; simpl. rewrite lookup_insert_ne by lia.
        exact Hprev. }
  rewrite bool_decide_eq_false_2 by exact Hu.
  reflexivity.
Qed.

(** The second unit of a pair: the transition runs on the previous
    element (the one of the node [N-1]) and on the new one, and the
    connector used on the current element is closed. *)
Lemma placement_second (st : state) (current_key : Z)
    (flip : string) (angle shift_value : Qc) (placed_by : string)
    (on_ground : bool) (frame_id frame_est : value)
    (rcur rprev : ref) (ce pe : Element) :
  wf st -> valid_flip flip = true ->
  element_ref st current_key = Some rcur ->
  heap st !! rcur = Some ce ->
  element_ref st (Z.of_nat (size (node st)) - 1) = Some rprev ->
  heap st !! rprev = Some pe -> rprev <> rcur ->
  let N := Z.of_nat (size (node st)) in
  let r := fresh (dom (heap st)) in
  exists st' attrs fr,
    add_rf_unit_element current_key flip angle shift_value placed_by
      on_ground 1 frame_id frame_est st = (st', Ok r)
    /\ node st' = <[N := attrs]> (node st)
    /\ edge st' = placement_edges current_key N 1 (edge st)
    /\ attrs !! "element" = Some (VElem r)
    /\ attrs !! "placed_by" = Some (VStr placed_by)
    /\ attrs !! "on_ground" = Some (VBool on_ground)
    /\ heap st !! r = None
    /\ heap st' !! rcur = Some (use_connector ce)
    /\ heap st' !! rprev = Some (transition_previous flip ce pe)
    /\ heap st' !! r
       = Some (transition_new flip ce
                 (mkElement fr (connector_1_state ce) (connector_2_state ce)))
    /\ (forall r0, r0 <> rcur -> r0 <> rprev -> r0 <> r ->
          heap st' !! r0 = heap st !! r0).
Proof.
  intros Hwf Hflip Hcur Hce Hprev Hpe Hne N r.
  assert (Hcur' := Hcur). unfold element_ref in Hcur'.
  destruct (node st !! current_key) as [acur|] eqn:Hk; [|discriminate].
  simpl in Hcur'.
  destruct (acur !! "element") as [v|] eqn:Hv; [|discriminate].
  simpl in Hcur'. destruct v; try discriminate. injection Hcur' as ->.
  destruct (placement_unfold st current_key flip angle shift_value placed_by
              on_ground 1 frame_id frame_est acur rcur ce
              Hwf Hflip Hk Hv Hce) as (attrs & dd & fr & E & Ha & Hp & Hg & Hr).
  fold N r in E, Ha, Hr.
  pose proof (wf_next_key _ Hwf) as Hnext. fold N in Hnext.
  assert (Hc : 0 <= current_key < N) by (apply (wf_keys _ Hwf); eauto).
  assert (Hsize : size (<[N := attrs]> (node st)) = S (size (node st)))
    by (by apply map_size_insert_None).
  assert (Hrc : rcur <> r) by congruence.
  assert (Hrp : rprev <> r) by congruence.
  set (ne := mkElement fr (connector_1_state ce) (connector_2_state ce)) in *.
  set (st5 := mkState _ _ _ _ _ _) in E.
  destruct (update_connectors_states_run st5 current_key flip rcur rprev r
              ce pe ne) as (st6 & E6 & Hu6 & Hp6 & Hn6 & Ho6).
  { unfold element_ref; simpl. rewrite lookup_insert_ne by lia.
    rewrite Hk. simpl. rewrite Hv. reflexivity. }
  { simpl. rewrite Hsize. lia. }
  { simpl. rewrite Hsize.
    replace (Z.of_nat (S (size (node st))) - 2) with (N - 1) by lia.
    unfold element_ref in *; simpl. rewrite lookup_insert_ne by lia.
    exact Hprev. }
  { simpl. rewrite lookup_insert_ne by congruence. exact Hce. }
  { simpl. rewrite lookup_insert_ne by congruence. exact Hpe. }
  { simpl. apply lookup_insert_eq. }
  { congruence. } { exact Hrc. } { exact Hrp. }
  assert (Hc6 : heap st6 !! rcur = Some ce).
  { rewrite Ho6 by congruence. simpl.
    rewrite lookup_insert_ne by congruence. exact Hce. }
  destruct Hu6 as (Hn6' & He6' & _).
  eexists _, attrs, fr. split.
  { rewrite E. unfold placement_suffix.
    erewrite bind_ok by exact E6.
    rewrite (bool_decide_eq_true_2 (1 = 1)) by reflexivity.
    erewrite bind_ok.
    2:{ rewrite when_true_eq.
        erewrite bind_ok by (apply deref_ok; exact Hc6).
        instantiate (1 := tt).
        instantiate (1 := set_heap (alter (fun _ => use_connector ce) rcur) st6).
        unfold use_connector.
        destruct (connector_1_state ce) eqn:Ec.
        - rewrite set_connector_1_state_eq. f_equal. unfold set_heap.
          f_equal. apply map_eq. intros j. rewrite !lookup_alter.
          case_decide; [subst j; rewrite Hc6; reflexivity|reflexivity].
        - rewrite set_connector_2_state_eq. f_equal. unfold set_heap.
          f_equal. apply map_eq. intros j. rewrite !lookup_alter.
          case_decide; [subst j; rewrite Hc6; simpl; by rewrite Ec|reflexivity]. }
    reflexivity. }
  simpl. split; [exact Hn6'|]. split; [exact He6'|].
  split; [exact Ha|]. split; [exact Hp|]. split; [exact Hg|].
  split; [exact Hr|].
  split; [rewrite lookup_alter_eq, Hc6; reflexivity|].
  split; [rewrite lookup_alter_ne by congruence; exact Hp6|].
  split; [rewrite lookup_alter_ne by congruence; exact Hn6|].
  intros r0 H0 H1 H2. rewrite lookup_alter_ne by congruence.
  rewrite Ho6 by congruence. simpl. by rewrite lookup_insert_ne.
Qed.

(** [nodes_where] on the element of the node just added: the new
    reference is held by no other node. *)
Lemma nodes_where_new (st : state) (N : Z) (attrs : gmap string value)
    (r : ref) (nd : gmap Z (gmap string value)) :
  node st = <[N := attrs]> nd -> nd !! N = None ->
  attrs !! "element" = Some (VElem r) ->
  (forall k a, nd !! k = Some a -> is_element r a = false) ->
  nodes_where_element r st = (st, Ok [N]).
Proof.
  intros Hn HN Ha Hothers. unfold nodes_where_element.
  unfold mbind, ST_bind, get, mret, ST_ret. cbn beta iota.
  do 2 f_equal. rewrite Hn.
  apply Permutation_singleton_r.
  rewrite (map_to_list_insert nd N attrs HN).
  rewrite filter_cons_True.
  2:{ simpl. unfold is_element. rewrite Ha. by apply bool_decide_eq_true_2. }
  rewrite fmap_cons. simpl.
  assert (E : filter (fun kv : Z * gmap string value =>
                        is_element r kv.2 = true) (map_to_list nd) = []).
  { apply elem_of_nil_inv. intros [k a] [HP Hin]%list_elem_of_filter.
    apply elem_of_map_to_list in Hin. simpl in HP.
    rewrite (Hothers _ _ Hin) in HP. discriminate. }
  rewrite E. reflexivity.
Qed.

Lemma fresh_not_element (st : state) (r : ref) (k : Z)
    (a : gmap string value) :
  wf st -> heap st !! r = None -> node st !! k = Some a ->
  is_element r a = false.
Proof.
  intros Hwf Hr Hk. destruct (wf_elements _ Hwf _ _ Hk) as (r' & Hr' & [e He]).
  unfold is_element. rewrite Hr'. apply bool_decide_eq_false_2. congruence.
Qed.

(** One module: the robot's rod and then the human's on the same
    current element. *)
Lemma close_rf_unit_effect (st : state) (current_key : Z) (flip : string)
    (angle shift_value : Qc) (on_ground : bool)
    (added_frame_id frame_est : value) (rcur : ref) (ce : Element) :
  wf st -> valid_flip flip = true ->
  element_ref st current_key = Some rcur -> heap st !! rcur = Some ce ->
  let N := Z.of_nat (size (node st)) in
  exists st' ar ah rr rh fr fh,
    close_rf_unit current_key flip angle shift_value on_ground
      added_frame_id frame_est st = (st', Ok ([N + 1], [N]))
    /\ node st' = <[N + 1 := ah]> (<[N := ar]> (node st))
    /\ edge st'
       = <[(current_key, N + 1) := {["edge_to" := VStr "parent"]}]>
           (<[(N, N + 1) := {["edge_to" := VStr "parent"]}]>
              (<[(current_key, N) := {["edge_to" := VStr "neighbour"]}]>
                 (edge st)))
    /\ wf st'
    /\ (ar !! "element" = Some (VElem rr)
        /\ ar !! "placed_by" = Some (VStr "robot")
        /\ ar !! "on_ground" = Some (VBool false))
    /\ (ah !! "element" = Some (VElem rh)
        /\ ah !! "placed_by" = Some (VStr "human")
        /\ ah !! "on_ground" = Some (VBool false))
    /\ (heap st !! rr = None /\ heap st !! rh = None /\ rr <> rh)
    /\ heap st' !! rcur = Some (use_connector ce)
    /\ heap st' !! rr
       = Some (transition_previous flip ce
                 (mkElement fr (connector_1_state ce) (connector_2_state ce)))
    /\ heap st' !! rh
       = Some (transition_new flip ce
                 (mkElement fh (connector_1_state ce) (connector_2_state ce)))
    /\ (forall r0, r0 <> rcur -> r0 <> rr -> r0 <> rh ->
          heap st' !! r0 = heap st !! r0).
Proof.
  intros Hwf Hflip Hcur Hce N.
  assert (Hk : is_Some (node st !! current_key)).
  { unfold element_ref in Hcur.
    destruct (node st !! current_key); [eauto|discriminate]. }
  assert (Hc : 0 <= current_key < N) by (by apply (wf_keys _ Hwf)).
  pose proof (wf_next_key _ Hwf) as Hnext. fold N in Hnext.
  (* the robot's rod *)
  destruct (placement_first st current_key flip angle shift_value "robot"
              false 0 VNone VNone rcur ce Hwf Hflip ltac:(lia) Hcur Hce)
    as (ar & dd1 & fr & E1 & Har & Hpr & Hgr & Hrr).
  fold N in E1. set (rr := fresh (dom (heap st))) in *.
  destruct (add_rf_unit_element_returns st current_key flip angle shift_value
              "robot" false 0 VNone VNone Hwf Hflip Hk)
    as (st1' & r1' & a1' & E1' & _ & _ & _ & _ & _ & _ & _ & Hwf1).
  rewrite E1 in E1'. injection E1' as <- <-.
  set (st1 := mkState _ _ _ _ _ _) in *.
  assert (Hsize1 : size (node st1) = S (size (node st)))
    by (by apply map_size_insert_None).
  assert (HN1 : Z.of_nat (size (node st1)) = N + 1) by (rewrite Hsize1; lia).
  assert (Hrc : rcur <> rr) by congruence.
  (* the human's rod *)
  destruct (placement_second st1 current_key flip angle shift_value "human"
              false added_frame_id frame_est rcur rr ce
              (mkElement fr (connector_1_state ce) (connector_2_state ce)))
    as (st2 & ah & fh & E2 & Hn2 & He2 & Hah & Hph & Hgh & Hrh & Hc2 & Hp2
        & Hh2 & Ho2); try assumption.
  { rewrite <- (element_ref_insert_ne st st1 N current_key ar) in Hcur;
      [exact Hcur|reflexivity|lia]. }
  { simpl. rewrite lookup_insert_ne by congruence. exact Hce. }
  { rewrite HN1. replace (N + 1 - 1) with N by lia.
    unfold element_ref. simpl. rewrite lookup_insert_eq. simpl.
    rewrite Har. reflexivity. }
  { simpl. apply lookup_insert_eq. }
  { congruence. }
  rewrite HN1 in Hn2, He2.
  set (rh := fresh (dom (heap st1))) in *.
  destruct (add_rf_unit_element_returns st1 current_key flip angle shift_value
              "human" false 1 added_frame_id frame_est Hwf1 Hflip)
    as (st2' & r2' & a2' & E2' & _ & _ & _ & _ & _ & _ & _ & Hwf2).
  { simpl. rewrite lookup_insert_ne by lia. exact Hk. }
  rewrite E2 in E2'. injection E2' as <- <-.
  assert (Hrh0 : heap st !! rh = None).
  { simpl in Hrh. apply lookup_insert_None in Hrh. tauto. }
  assert (Hrrh : rr <> rh).
  { simpl in Hrh. apply lookup_insert_None in Hrh. tauto. }
  exists st2, ar, ah, rr, rh, fr, fh.
  split.
  { unfold close_rf_unit.
    erewrite bind_ok by exact E1.
    erewrite bind_ok.
    2:{ apply (nodes_where_new st1 N ar rr (node st));
          [reflexivity|exact Hnext|exact Har|].
        intros k a Hka. by apply (fresh_not_element st rr k a). }
    erewrite bind_ok by exact E2.
    erewrite bind_ok.
    2:{ apply (nodes_where_new st2 (N + 1) ah rh (node st1));
          [exact Hn2| |exact Hah|].
        - rewrite <- HN1. by apply wf_next_key.
        - intros k a Hka. by apply (fresh_not_element st1 rh k a). }
    reflexivity. }
  split; [exact Hn2|].
  split.
  { rewrite He2. unfold placement_edges.
    rewrite (bool_decide_eq_false_2 (1 = 0)) by lia.
    replace (N + 1 - 1) with N by lia. reflexivity. }
  split; [exact Hwf2|].
  split; [auto|]. split; [auto|]. split; [auto|].
  split; [exact Hc2|]. split; [exact Hp2|]. split; [exact Hh2|].
  intros r0 H0 H1 H2. rewrite Ho2 by assumption.
  simpl. by rewrite lookup_insert_ne.
Qed.

Lemma element_at_of_ref (st : state) (k : Z) (r : ref) :
  element_ref st k = Some r -> element_at st k = heap st !! r.
Proof.
  unfold element_ref, element_at. intros H.
  destruct (node st !! k) as [attrs|]; [|discriminate]. simpl in *.
  destruct (attrs !! "element") as [v|]; [|discriminate]. simpl in *.
  destruct v; try discriminate. by injection H as ->.
Qed.

Lemma element_at_insert (st : state) (nd : gmap Z (gmap string value))
    (k : Z) (attrs : gmap string value) (r : ref) :
  node st = <[k := attrs]> nd -> attrs !! "element" = Some (VElem r) ->
  element_at st k = heap st !! r.
Proof.
  intros Hn Ha. unfold element_at. rewrite Hn, lookup_insert_eq. simpl.
  rewrite Ha. reflexivity.
Qed.

(** X15. A placement with [unit_index] other than 1 (the robot's rod of
    a module, or a single rod) closes no connector: on a well-formed
    assembly and with a valid flip code it returns a new element object
    that has the connector states of the current element, and every
    element that existed before, the current one included, is left as it
    was. The connector used stays open until the second rod is placed. *)
Theorem add_rf_unit_element_first_unit_closes_nothing (st : state)
    (current_key : Z) (flip : string) (angle shift_value : Qc)
    (placed_by : string) (on_ground : bool) (unit_index : Z)
    (frame_id frame_est : value) (ce : Element) :
  wf st -> valid_flip flip = true -> unit_index <> 1 ->
  element_at st current_key = Some ce ->
  exists st' r ne,
    add_rf_unit_element current_key flip angle shift_value placed_by
      on_ground unit_index frame_id frame_est st = (st', Ok r)
    /\ heap st !! r = None
    /\ heap st' !! r = Some ne
    /\ connector_1_state ne = connector_1_state ce
    /\ connector_2_state ne = connector_2_state ce
    /\ (forall r0, r0 <> r -> heap st' !! r0 = heap st !! r0).
Proof.
  intros Hwf Hflip Hu Hce.
  destruct (element_at_ref st current_key) as (rcur & Hcur & _); [eauto|].
  rewrite (element_at_of_ref _ _ _ Hcur) in Hce.
  destruct (placement_first st current_key flip angle shift_value placed_by
              on_ground unit_index frame_id frame_est rcur ce
              Hwf Hflip Hu Hcur Hce) as (attrs & dd & fr & E & _ & _ & _ & Hr).
  eexists _, _, _. split; [exact E|]. simpl.
  split; [exact Hr|]. split; [apply lookup_insert_eq|].
  split; [reflexivity|]. split; [reflexivity|].
  intros r0 H0. by rewrite lookup_insert_ne.
Qed.

(** X16. The graph of a module. On a well-formed assembly with [N]
    nodes, [close_rf_unit] on an existing key with a valid flip code
    returns [keys_robot = [N]] and [keys_human = [N + 1]]; it adds
    exactly these two nodes, the first placed by the robot and the second
    by the human, both with [on_ground] false whatever the argument
    [on_ground] of the call is; it adds the edges [(current_key, N)]
    tagged neighbour and [(N, N + 1)], [(current_key, N + 1)] tagged
    parent; and the assembly stays well-formed. *)
Theorem close_rf_unit_graph (st : state) (current_key : Z) (flip : string)
    (angle shift_value : Qc) (on_ground : bool)
    (added_frame_id frame_est : value) :
  wf st -> valid_flip flip = true -> is_Some (node st !! current_key) ->
  let N := Z.of_nat (size (node st)) in
  exists st' ar ah,
    close_rf_unit current_key flip angle shift_value on_ground
      added_frame_id frame_est st = (st', Ok ([N + 1], [N]))
    /\ node st' = <[N + 1 := ah]> (<[N := ar]> (node st))
    /\ node st !! N = None /\ node st !! (N + 1) = None
    /\ ar !! "placed_by" = Some (VStr "robot")
    /\ ah !! "placed_by" = Some (VStr "human")
    /\ ar !! "on_ground" = Some (VBool false)
    /\ ah !! "on_ground" = Some (VBool false)
    /\ edge st'
       = <[(current_key, N + 1) := {["edge_to" := VStr "parent"]}]>
           (<[(N, N + 1) := {["edge_to" := VStr "parent"]}]>
              (<[(current_key, N) := {["edge_to" := VStr "neighbour"]}]>
                 (edge st)))
    /\ wf st'.
Proof.
  intros Hwf Hflip Hk N.
  destruct (wf_element_ref st current_key Hwf Hk) as (rcur & ce & Hcur & Hce).
  destruct (close_rf_unit_effect st current_key flip angle shift_value
              on_ground added_frame_id frame_est rcur ce Hwf Hflip Hcur Hce)
    as (st' & ar & ah & rr & rh & fr & fh & E & Hn & He & Hwf'
        & (_ & Hpr & Hgr) & (_ & Hph & Hgh) & _).
  exists st', ar, ah. fold N in E, Hn, He.
  split; [exact E|]. split; [exact Hn|].
  split; [by apply wf_next_key|].
  split.
  { destruct (node st !! (N + 1)) eqn:E1; [|reflexivity].
    assert (0 <= N + 1 < N) by (apply (wf_keys _ Hwf); eauto). lia. }
  auto 10.
Qed.

(** X17. The connectors of a module. In the situation of X16, with
    [ce] the current element before the call: afterwards the current
    element has lost the connector that was used (connector 1 if it was
    open, else connector 2); the robot's rod and the human's rod are
    copies of [ce] on which the transition table for [flip] has been
    applied, the robot's rod in the role of the previous element and the
    human's in the role of the new one; and every other element object
    of the assembly is untouched. *)
Theorem close_rf_unit_connectors (st : state) (current_key : Z)
    (flip : string) (angle shift_value : Qc) (on_ground : bool)
    (added_frame_id frame_est : value) (rcur : ref) (ce : Element) :
  wf st -> valid_flip flip = true ->
  element_ref st current_key = Some rcur -> heap st !! rcur = Some ce ->
  let N := Z.of_nat (size (node st)) in
  exists st' keys rr rh fr fh,
    close_rf_unit current_key flip angle shift_value on_ground
      added_frame_id frame_est st = (st', Ok keys)
    /\ element_ref st' N = Some rr /\ element_ref st' (N + 1) = Some rh
    /\ heap st !! rr = None /\ heap st !! rh = None /\ rr <> rh
    /\ heap st' !! rcur = Some (use_connector ce)
    /\ heap st' !! rr
       = Some (transition_previous flip ce
                 (mkElement fr (connector_1_state ce) (connector_2_state ce)))
    /\ heap st' !! rh
       = Some (transition_new flip ce
                 (mkElement fh (connector_1_state ce) (connector_2_state ce)))
    /\ (forall r0, r0 <> rcur -> r0 <> rr -> r0 <> rh ->
          heap st' !! r0 = heap st !! r0).
Proof.
  intros Hwf Hflip Hcur Hce N.
  destruct (close_rf_unit_effect st current_key flip angle shift_value
              on_ground added_frame_id frame_est rcur ce Hwf Hflip Hcur Hce)
    as (st' & ar & ah & rr & rh & fr & fh & E & Hn & He & Hwf'
        & (Har & _) & (Hah & _) & (H1 & H2 & H3) & Hc & Hr & Hh & Ho).
  fold N in E, Hn.
  exists st', ([N + 1], [N]), rr, rh, fr, fh.
  split; [exact E|].
  split.
  { unfold element_ref. rewrite Hn. rewrite lookup_insert_ne by lia.
    rewrite lookup_insert_eq. simpl. rewrite Har. reflexivity. }
  split.
  { unfold element_ref. rewrite Hn. rewrite lookup_insert_eq. simpl.
    rewrite Hah. reflexivity. }
  auto 10.
Qed.

(** X18. A module on a rod with both connectors open seals its own
    rods. If the current element has both connectors open, then after
    [close_rf_unit] with any valid flip code the current element has
    connector 1 closed and connector 2 still open, and both new rods,
    in the nodes [N] and [N + 1], have both connectors closed: nothing
    can be attached to the rods of the module itself. *)
Theorem close_rf_unit_seals_new_rods (st : state) (current_key : Z)
    (flip : string) (angle shift_value : Qc) (on_ground : bool)
    (added_frame_id frame_est : value) (ce : Element) :
  wf st -> valid_flip flip = true ->
  element_at st current_key = Some ce ->
  connector_1_state ce = true -> connector_2_state ce = true ->
  let N := Z.of_nat (size (node st)) in
  exists st' keys er eh,
    close_rf_unit current_key flip angle shift_value on_ground
      added_frame_id frame_est st = (st', Ok keys)
    /\ element_at st' current_key = Some (mkElement (frame ce) false true)
    /\ element_at st' N = Some er
    /\ element_at st' (N + 1) = Some eh
    /\ connector_1_state er = false /\ connector_2_state er = false
    /\ connector_1_state eh = false /\ connector_2_state eh = false.
Proof.
  intros Hwf Hflip Hat H1 H2 N.
  destruct (element_at_ref st current_key) as (rcur & Hcur & _); [eauto|].
  rewrite (element_at_of_ref _ _ _ Hcur) in Hat.
  destruct (close_rf_unit_effect st current_key flip angle shift_value
              on_ground added_frame_id frame_est rcur ce Hwf Hflip Hcur Hat)
    as (st' & ar & ah & rr & rh & fr & fh & E & Hn & He & Hwf'
        & (Har & _) & (Hah & _) & _ & Hc & Hr & Hh & _).
  fold N in E, Hn.
  assert (Hkc : 0 <= current_key < N).
  { apply (wf_keys _ Hwf). unfold element_ref in Hcur.
    destruct (node st !! current_key); [eauto|discriminate]. }
  eexists st', _, _, _. split; [exact E|].
  split.
  { rewrite (element_at_of_ref st' current_key rcur).
    - rewrite Hc. unfold use_connector. rewrite H1, H2. reflexivity.
    - unfold element_ref in *. rewrite Hn.
      rewrite !lookup_insert_ne by lia. exact Hcur. }
  split.
  { unfold element_at. rewrite Hn. rewrite lookup_insert_ne by lia.
    rewrite lookup_insert_eq. simpl. rewrite Har. exact Hr. }
  split.
  { unfold element_at. rewrite Hn. rewrite lookup_insert_eq. simpl.
    rewrite Hah. exact Hh. }
  unfold transition_previous, transition_new, close_connectors,
    closes_previous_1, closes_previous_2, closes_new_1, closes_new_2.
  rewrite H1, H2. cbn [connector_1_state connector_2_state andb].
  apply valid_flip_cases in Hflip.
  destruct Hflip as [-> | [-> | [-> | ->]]]; vm_compute; auto.
Qed.

End Placement.

Lemma update_connectors_states_table_witness :
  exists st',
    update_connectors_states 0 "AB" 2%nat 1 three_rods = (st', Ok tt)
    /\ heap_update three_rods st'
    /\ heap st' !! 1%nat
       = Some (transition_previous "AB" (unit_element true true)
                 (unit_element true true))
    /\ heap st' !! 2%nat
       = Some (transition_new "AB" (unit_element true true)
                 (unit_element true true))
    /\ (forall r, r <> 1%nat -> r <> 2%nat ->
          heap st' !! r = heap three_rods !! r).
Proof.
  apply (update_connectors_states_table three_rods 0 "AB"
           0%nat 1%nat 2%nat).
  - reflexivity.
  - vm_compute. lia.
  - reflexivity.
  - reflexivity.
  - reflexivity.
  - reflexivity.
  - discriminate.
  - discriminate.
  - discriminate.
Defined.

Lemma update_connectors_states_mirror_witness :
  exists st',
    update_connectors_states 0 (mirror "AB") 2%nat 1 three_rods
      = (st', Ok tt)
    /\ heap st' !! 1%nat
       = Some (close_connectors (closes_previous_2 "AB" true true)
                 (closes_previous_1 "AB" true true) (unit_element true true))
    /\ heap st' !! 2%nat
       = Some (close_connectors (closes_new_2 "AB" true true)
                 (closes_new_1 "AB" true true) (unit_element true true)).
Proof.
  apply (update_connectors_states_mirror three_rods 0 "AB"
           0%nat 1%nat 2%nat (unit_element true true)
           (unit_element true true) (unit_element true true)).
  - reflexivity.
  - reflexivity.
  - vm_compute. lia.
  - reflexivity.
  - reflexivity.
  - reflexivity.
  - reflexivity.
  - discriminate.
  - discriminate.
  - discriminate.
Defined.

Lemma add_rf_unit_element_first_unit_closes_nothing_witness :
  exists st' r ne,
    add_rf_unit_element 0 "AB" 0%Qc 0%Qc "robot" false 0 VNone VNone
      (one_element true false) = (st', Ok r)
    /\ heap (one_element true false) !! r = None
    /\ heap st' !! r = Some ne
    /\ connector_1_state ne = connector_1_state (unit_element true false)
    /\ connector_2_state ne = connector_2_state (unit_element true false)
    /\ (forall r0, r0 <> r ->
          heap st' !! r0 = heap (one_element true false) !! r0).
Proof.
  apply (add_rf_unit_element_first_unit_closes_nothing
           (one_element true false) 0 "AB" 0%Qc 0%Qc "robot" false 0
           VNone VNone (unit_element true false)).
  - apply wf_one_element.
  - reflexivity.
  - lia.
  - reflexivity.
Defined.

Lemma close_rf_unit_graph_witness :
  exists st' ar ah,
    close_rf_unit 0 "BA" 0%Qc 0%Qc true VNone VNone (one_element true true)
      = (st', Ok ([1 + 1], [1]))
    /\ node st' = <[1 + 1 := ah]> (<[1 := ar]> (node (one_element true true)))
    /\ node (one_element true true) !! 1 = None
    /\ node (one_element true true) !! (1 + 1) = None
    /\ ar !! "placed_by" = Some (VStr "robot")
    /\ ah !! "placed_by" = Some (VStr "human")
    /\ ar !! "on_ground" = Some (VBool false)
    /\ ah !! "on_ground" = Some (VBool false)
    /\ edge st'
       = <[(0, 1 + 1) := {["edge_to" := VStr "parent"]}]>
           (<[(1, 1 + 1) := {["edge_to" := VStr "parent"]}]>
              (<[(0, 1) := {["edge_to" := VStr "neighbour"]}]>
                 (edge (one_element true true))))
    /\ wf st'.
Proof.
  apply (close_rf_unit_graph (one_element true true) 0 "BA" 0%Qc 0%Qc true
           VNone VNone).
  - apply wf_one_element.
  - reflexivity.
  - vm_compute. eauto.
Defined.

Lemma close_rf_unit_connectors_witness :
  exists st' keys rr rh fr fh,
    close_rf_unit 0 "BA" 0%Qc 0%Qc false VNone VNone (one_element false true)
      = (st', Ok keys)
    /\ element_ref st' 1 = Some rr /\ element_ref st' (1 + 1) = Some rh
    /\ heap (one_element false true) !! rr = None
    /\ heap (one_element false true) !! rh = None /\ rr <> rh
    /\ heap st' !! 0%nat = Some (use_connector (unit_element false true))
    /\ heap st' !! rr
       = Some (transition_previous "BA" (unit_element false true)
                 (mkElement fr false true))
    /\ heap st' !! rh
       = Some (transition_new "BA" (unit_element false true)
                 (mkElement fh false true))
    /\ (forall r0, r0 <> 0%nat -> r0 <> rr -> r0 <> rh ->
          heap st' !! r0 = heap (one_element false true) !! r0).
Proof.
  apply (close_rf_unit_connectors (one_element false true) 0 "BA" 0%Qc 0%Qc
           false VNone VNone 0%nat (unit_element false true)).
  - apply wf_one_element.
  - reflexivity.
  - reflexivity.
  - reflexivity.
Defined.

Lemma close_rf_unit_seals_new_rods_witness :
  exists st' keys er eh,
    close_rf_unit 0 "BB" 0%Qc 0%Qc false VNone VNone (one_element true true)
      = (st', Ok keys)
    /\ element_at st' 0 = Some (mkElement tt false true)
    /\ element_at st' 1 = Some er
    /\ element_at st' (1 + 1) = Some eh
    /\ connector_1_state er = false /\ connector_2_state er = false
    /\ connector_1_state eh = false /\ connector_2_state eh = false.
Proof.
  apply (close_rf_unit_seals_new_rods (one_element true true) 0 "BB"
           0%Qc 0%Qc false VNone VNone (unit_element true true)).
  - apply wf_one_element.
  - reflexivity.
  - reflexivity.
  - reflexivity.
  - reflexivity.
Defined.

End TransitionFacts.

(** ** The base-pose map: outcomes of a query *)

Module QueryFacts.
Import BaseMap QuerySpec ScoringContracts.
Import ScoringFacts.

Lemma mapM_ok {A B} (f : A -> result B) (l : list A) (r : list B) :
  mapM f l = Ok r ->
  length r = length l
  /\ (forall i x, l !! i = Some x ->
        exists y, r !! i = Some y /\ f x = Ok y).
Proof.
  revert r. induction l as [|x l IH]; intros r H.
  - injection H as <-. split; [reflexivity|]. intros i y Hy. discriminate.
  - cbn [mapM] in H. destruct (f x) as [y|e] eqn:Ex; [|discriminate].
    cbn [mbind result_bind] in H.
    destruct (mapM f l) as [k|e] eqn:Ek; [|discriminate].
    cbn [mbind result_bind] in H. injection H as <-.
    destruct (IH k eq_refl) as [Hlen Hi].
    split; [simpl; by rewrite Hlen|].
    intros [|i] z Hz; simpl in *.
    + injection Hz as <-. eauto.
    + apply Hi. exact Hz.
Qed.


Lemma st_bind_pure {S A B} (m : ST S A) (f : A -> ST S B) (st : S)
    (r : result A) :
  m st = (st, r) ->
  (m ≫= f) st = match r with Ok a => f a st | Raise e => (st, Raise e) end.
Proof. intros H. unfold mbind, ST_bind. rewrite H. by destruct r. Qed.

Lemma st_bind_ok {S A B} (m : ST S A) (f : A -> ST S B) (st st1 : S) (a : A) :
  m st = (st1, Ok a) -> (m ≫= f) st = f a st1.
Proof. intros H. unfold mbind, ST_bind. by rewrite H. Qed.

Lemma st_bind_raise {S A B} (m : ST S A) (f : A -> ST S B) (st st1 : S)
    (e : exn) :
  m st = (st1, Raise e) -> (m ≫= f) st = (st1, Raise e).
Proof. intros H. unfold mbind, ST_bind. by rewrite H. Qed.

Section WithKernel.
Context `{K : Kernel} `{Rd : Rounding}.

(** The tree that the property returns holds no object, whatever the
    loop collected. *)
Lemma kdtree_eq (st : state) :
  kdtree st
  = (st, _ ← mapM (fun kv : Z * gmap string value =>
                     f ← node_frame (snd kv); Ok (frame_point f, fst kv))
                  (map_to_list (node st));
         Ok []).
Proof.
  unfold kdtree, mbind at 1 2, ST_bind, get, lift, mret, ST_ret.
  cbn beta iota. by destruct (mapM _ _).
Qed.

Lemma node_attribute_eq (st : state) (key : Z) (name : string) (v : value) :
  node_attribute key name v st
  = match node st !! key with
    | Some _ =>
        (mkState (alter (insert name v) key (node st)) (max_node st), Ok tt)
    | None => (st, Raise KeyError)
    end.
Proof.
  unfold node_attribute, mbind, ST_bind, get, lift, modify.
  by destruct (node st !! key).
Qed.

Lemma add_pose_eq (st : state) (pose : Frame) (kwargs : gmap string value) :
  add_pose pose kwargs st
  = (mkState
       (<[max_node st + 1 :=
            (<["frame" := VFrame pose]>
               (<["point" := VPoint (frame_point pose)]>
                  (<["xaxis" := VVector (frame_xaxis pose)]>
                     (<["yaxis" := VVector (frame_yaxis pose)]> kwargs))))
            ∪ default ∅ (node st !! (max_node st + 1))]> (node st))
       (max_node st + 1),
     Ok (max_node st + 1)).
Proof. reflexivity. Qed.

Lemma score_goal_point_unreachable_zero (reuleaux : ReuleauxReachability)
    (d : list (nnbr Point nat)) (q : Qc) :
  score_goal_point reuleaux d = Ok (q, false) -> q = 0%Qc.
Proof.
  unfold score_goal_point.
  destruct (both_within reuleaux d) as [[]|]; cbn [mbind result_bind];
    [|congruence|discriminate].
  destruct (nearest_ri reuleaux d); cbn [mbind result_bind]; congruence.
Qed.

Lemma score_goal_point_reachable_sample (reuleaux : ReuleauxReachability)
    (d : list (nnbr Point nat)) (q : Qc) :
  score_goal_point reuleaux d = Ok (q, true) ->
  exists s, s ∈ spheres reuleaux /\ q = ri s.
Proof.
  unfold score_goal_point.
  destruct (both_within reuleaux d) as [[]|]; cbn [mbind result_bind];
    [|congruence|discriminate].
  unfold nearest_ri.
  destruct (d !! 0%nat) as [d0|]; cbn [getitem mbind result_bind];
    [|discriminate].
  destruct (nn_label d0) as [label|]; cbn [getitem mbind result_bind];
    [|discriminate].
  destruct (spheres reuleaux !! label) as [s|] eqn:Es;
    cbn [getitem mbind result_bind]; [|discriminate].
  intros [= <-]. exists s. split; [|reflexivity].
  by eapply list_elem_of_lookup_2.
Qed.

(** The rule of one goal point, read off a score that was returned: the
    first neighbour exists; the point is flagged reachable, with the
    [ri] of the sample that the first neighbour is labelled with, when
    the first and the second neighbour are both closer than the radius;
    and it is flagged unreachable, with index 0, when the first is not
    closer than the radius, or the second is not. *)
Lemma score_goal_point_rule (reuleaux : ReuleauxReachability)
    (d : list (nnbr Point nat)) (q : Qc) (b : bool) :
  score_goal_point reuleaux d = Ok (q, b) ->
  exists d0,
    d !! 0%nat = Some d0
    /\ ((dist_ltb (nn_dist d0) (radius reuleaux) = true
         /\ (exists d1, d !! 1%nat = Some d1
               /\ dist_ltb (nn_dist d1) (radius reuleaux) = true)
         /\ (exists l s, nn_label d0 = Some l
               /\ spheres reuleaux !! l = Some s /\ q = ri s)
         /\ b = true)
        \/ ((dist_ltb (nn_dist d0) (radius reuleaux) = false
             \/ exists d1, d !! 1%nat = Some d1
                  /\ dist_ltb (nn_dist d1) (radius reuleaux) = false)
            /\ q = 0%Qc /\ b = false)).
Proof.
  unfold score_goal_point, both_within, nearest_ri.
  destruct (d !! 0%nat) as [d0|]; cbn [getitem mbind result_bind];
    [|discriminate].
  intros H. exists d0. split; [reflexivity|].
  destruct (dist_ltb (nn_dist d0) (radius reuleaux)) eqn:E0.
  - destruct (d !! 1%nat) as [d1|]; cbn [getitem mbind result_bind] in H;
      [|discriminate].
    destruct (dist_ltb (nn_dist d1) (radius reuleaux)) eqn:E1.
    + left. split; [reflexivity|]. split; [eauto|].
      destruct (nn_label d0) as [l|] eqn:El;
        cbn [getitem mbind result_bind] in H; [|discriminate].
      destruct (spheres reuleaux !! l) as [s|] eqn:Es;
        cbn [getitem mbind result_bind] in H; [|discriminate].
      injection H as <- <-. split; [|reflexivity].
      exists l, s. auto.
    + right. injection H as <- <-.
      split; [|auto]. right. exists d1. auto.
  - right. cbn [mbind result_bind] in H. injection H as <- <-. auto.
Qed.

Lemma get_kdtree_transformed_length (reuleaux : ReuleauxReachability)
    (T : Transformation) :
  length (snd (get_kdtree_transformed reuleaux T))
  = length (spheres reuleaux).
Proof. unfold get_kdtree_transformed. simpl. apply length_fmap. Qed.

(** Every run of a query: either it raises and the map is the one before
    the call, or it returns a consistent record, every point of which is
    scored from the answer of the tree of the samples for that point,
    and whose aggregate is the one of lines 83-88; the record and the
    aggregate are stored with the pose under the key [_max_node + 1]. *)
Lemma query_outcome (st : state) (pose : Frame)
    (reuleaux : ReuleauxReachability) (goal_pointcloud : list Point)
    (collision_pointcloud : option (list Point)) :
  (exists e,
     get_reuleaux_index_by_base_pose pose reuleaux goal_pointcloud
       collision_pointcloud st = (st, Raise e))
  \/ (exists st' id data m,
        get_reuleaux_index_by_base_pose pose reuleaux goal_pointcloud
          collision_pointcloud st = (st', Ok (id, data))
        /\ consistent reuleaux goal_pointcloud collision_pointcloud data
        /\ ri_mean (goal_reuleaux_index data) (collision_indices data)
           = Ok m
        /\ recorded st st' id data m
        /\ (id = max_node st + 1 /\ max_node st' = id
            /\ (exists attrs, node st' !! id = Some attrs
                  /\ attrs !! "frame" = Some (VFrame pose)))
        /\ (forall i pt, goal_pointcloud !! i = Some pt ->
              exists q b,
                score_goal_point reuleaux
                  (KDTree_nearest_neighbors (sample_tree pose reuleaux) pt 2)
                = Ok (q, b)
                /\ goal_reuleaux_index data !! i = Some q
                /\ reachable data !! i = Some b)
        /\ (forall pts j pt, collision_pointcloud = Some pts ->
              pts !! j = Some pt ->
              exists q,
                score_collision_point reuleaux
                  (KDTree_nearest_neighbors (sample_tree pose reuleaux) pt 2)
                = Ok q
                /\ collision_reuleaux_index data !! j = Some q)).
Proof.
  unfold get_reuleaux_index_by_base_pose, sample_tree.
  destruct (Qc_eqb (resolution reuleaux) 0%Qc); [left; eexists; reflexivity|].
  rewrite (st_bind_pure _ _ st _ (kdtree_eq st)).
  destruct (mapM _ (map_to_list (node st))) as [objects|e];
    cbn [mbind result_bind]; [|left; eexists; reflexivity].
  cbn beta iota zeta. cbn [nearest_neighbor nn_dist nn_label dist_gtb].
  pose proof (get_kdtree_transformed_length reuleaux
                (Transformation_from_change_of_basis pose Frame_worldXY))
    as Hlen.
  destruct (get_kdtree_transformed reuleaux _) as [tree rpts].
  cbn [fst snd] in Hlen |- *.
  erewrite st_bind_pure by reflexivity.
  destruct (mapM (score_goal_point reuleaux) _) as [goal_scores|e] eqn:Eg;
    [|left; eexists; reflexivity].
  erewrite st_bind_pure by reflexivity.
  match goal with
  | |- context [match ?c with Ok a => _ | Raise e => _ end] => set (cs := c)
  end.
  destruct cs as [collision_scores|e] eqn:Ec;
    [|left; eexists; reflexivity].
  cbn beta iota zeta. cbn [goal_reuleaux_index collision_reuleaux_index].
  erewrite st_bind_pure by reflexivity.
  set (data := mkData goal_pointcloud collision_pointcloud rpts
                 (fst <$> goal_scores) collision_scores (snd <$> goal_scores)).
  destruct (ri_mean _ _) as [m|e] eqn:Em; [|left; eexists; reflexivity].
  apply mapM_ok in Eg. destruct Eg as [Hl Hi].
  rewrite length_fmap in Hl.
  assert (Hgoal : forall i pt, goal_pointcloud !! i = Some pt ->
            exists q b,
              score_goal_point reuleaux (KDTree_nearest_neighbors tree pt 2)
              = Ok (q, b)
              /\ goal_scores !! i = Some (q, b)).
  { intros i pt Hpt.
    destruct (Hi i (KDTree_nearest_neighbors tree pt 2)) as ([q b] & Hy & Hs).
    { rewrite list_lookup_fmap, Hpt. reflexivity. }
    eauto. }
  assert (Hcoll : forall pts j pt, collision_pointcloud = Some pts ->
            pts !! j = Some pt ->
            exists q,
              score_collision_point reuleaux
                (KDTree_nearest_neighbors tree pt 2) = Ok q
              /\ collision_scores !! j = Some q).
  { intros pts j pt -> Hpt. subst cs.
    apply mapM_ok in Ec. destruct Ec as [_ Hj].
    destruct (Hj j (KDTree_nearest_neighbors tree pt 2)) as (q & Hy & Hs).
    { rewrite list_lookup_fmap, Hpt. reflexivity. }
    eauto. }
  assert (Hcons : consistent reuleaux goal_pointcloud collision_pointcloud
                    data).
  { subst data.
    split; cbn [goal_points collision_points reuleaux_points
                goal_reuleaux_index collision_reuleaux_index reachable];
      try reflexivity.
    - by rewrite length_fmap.
    - by rewrite length_fmap.
    - subst cs. destruct collision_pointcloud as [pts|].
      + apply mapM_ok in Ec. destruct Ec as [Hc _].
        by rewrite Hc, length_fmap.
      + by injection Ec as <-.
    - exact Hlen.
    - intros i Hr. rewrite list_lookup_fmap in Hr. rewrite list_lookup_fmap.
      destruct (goal_scores !! i) as [[q b]|] eqn:Ei; [|discriminate].
      simpl in *. injection Hr as ->.
      assert (is_Some (goal_pointcloud !! i)) as [pt Hpt].
      { apply lookup_lt_is_Some. rewrite <- Hl.
        apply lookup_lt_is_Some. eauto. }
      destruct (Hgoal i pt Hpt) as (q' & b' & Hs & Hy).
      rewrite Ei in Hy. injection Hy as <- <-.
      by rewrite (score_goal_point_unreachable_zero _ _ _ Hs).
    - intros i Hr. rewrite list_lookup_fmap in Hr. rewrite list_lookup_fmap.
      destruct (goal_scores !! i) as [[q b]|] eqn:Ei; [|discriminate].
      simpl in *. injection Hr as ->.
      assert (is_Some (goal_pointcloud !! i)) as [pt Hpt].
      { apply lookup_lt_is_Some. rewrite <- Hl.
        apply lookup_lt_is_Some. eauto. }
      destruct (Hgoal i pt Hpt) as (q' & b' & Hs & Hy).
      rewrite Ei in Hy. injection Hy as <- <-.
      destruct (score_goal_point_reachable_sample _ _ _ Hs) as (s & Hin & ->).
      eauto. }
  assert (Hm : ri_mean (goal_reuleaux_index data) (collision_indices data)
               = Ok m).
  { unfold collision_indices. exact Em. }
  assert (Hg' : forall i pt, goal_pointcloud !! i = Some pt ->
            exists q b,
              score_goal_point reuleaux (KDTree_nearest_neighbors tree pt 2)
              = Ok (q, b)
              /\ goal_reuleaux_index data !! i = Some q
              /\ reachable data !! i = Some b).
  { intros i pt Hpt. destruct (Hgoal i pt Hpt) as (q & b & Hs & Hy).
    exists q, b. subst data. cbn [goal_reuleaux_index reachable].
    rewrite !list_lookup_fmap, Hy. auto. }
  assert (Hc' : forall pts j pt, collision_pointcloud = Some pts ->
            pts !! j = Some pt ->
            exists q,
              score_collision_point reuleaux
                (KDTree_nearest_neighbors tree pt 2) = Ok q
              /\ collision_reuleaux_index data !! j = Some q).
  { intros pts j pt Hp Hpt. destruct (Hcoll pts j pt Hp Hpt) as (q & Hs & Hy).
    exists q. subst data. cbn [collision_reuleaux_index]. auto. }
  clearbody data.
  right.
  erewrite st_bind_ok by apply add_pose_eq.
  eexists _, _, data, m. split; [reflexivity|].
  split; [exact Hcons|]. split; [exact Hm|].
  unfold recorded. cbn [node max_node].
  split; [split|split; [|split; [exact Hg'|exact Hc']]].
  - eexists. split; [apply lookup_insert_eq|].
    split; apply lookup_union_Some_l; by simplify_map_eq.
  - intros k Hk. by rewrite lookup_insert_ne.
  - split; [reflexivity|]. split; [reflexivity|].
    eexists. split; [apply lookup_insert_eq|].
    apply lookup_union_Some_l. by simplify_map_eq.
Qed.

Ltac query_cases H :=
  match type of H with
  | _ ?st = (_, _) =>
      let E := fresh "E" in
      match type of H with
      | get_reuleaux_index_by_base_pose ?pose ?r ?g ?c ?st = _ =>
          destruct (query_outcome st pose r g c)
            as [[? E] | (? & ? & ? & ? & E & ?)];
          rewrite E in H; [discriminate|]
      end
  end.

(** X19. A query that raises leaves the map as it was: whatever the
    error (the resolution check, a node without a usable frame, a short
    answer of the k-d tree, a label outside the dataset, an empty list
    passed to [mean]), no entry has been added or updated. *)
Theorem query_failure_leaves_map (st : state) (pose : Frame)
    (reuleaux : ReuleauxReachability) (goal_pointcloud : list Point)
    (collision_pointcloud : option (list Point)) (e : exn) :
  snd (get_reuleaux_index_by_base_pose pose reuleaux goal_pointcloud
         collision_pointcloud st) = Raise e ->
  fst (get_reuleaux_index_by_base_pose pose reuleaux goal_pointcloud
         collision_pointcloud st) = st.
Proof.
  intros H.
  destruct (query_outcome st pose reuleaux goal_pointcloud
              collision_pointcloud)
    as [[e' E] | (st' & id & data & m & E & _)];
    rewrite E in H |- *; [reflexivity|discriminate].
Qed.

(** X20. The record that a successful query returns is consistent with
    its arguments: it stores the two point clouds as passed, one index
    and one flag per goal point, one index per collision point, one
    transformed point per sample of the dataset; a goal point flagged
    unreachable has index 0 and a goal point flagged reachable has the
    [ri] of a sample of the dataset. *)
Theorem query_data_consistent (st st' : state) (pose : Frame)
    (reuleaux : ReuleauxReachability) (goal_pointcloud : list Point)
    (collision_pointcloud : option (list Point)) (id : Z)
    (data : reuleaux_data) :
  get_reuleaux_index_by_base_pose pose reuleaux goal_pointcloud
    collision_pointcloud st = (st', Ok (id, data)) ->
  consistent reuleaux goal_pointcloud collision_pointcloud data.
Proof.
  intros H.
  destruct (query_outcome st pose reuleaux goal_pointcloud
              collision_pointcloud)
    as [[e' E] | (st1 & id1 & data1 & m & E & Hc & _)];
    rewrite E in H; [discriminate|].
  injection H as <- <- <-. exact Hc.
Qed.

(** X21. Every query that returns adds its pose: the tree of the map
    holds no pose, so the distance it reports is infinite and the branch
    that updates an entry in place is never taken. The returned key is
    [_max_node + 1], its entry holds the pose, the returned record and
    the aggregate of the record's index lists, and no other entry
    changes. *)
Theorem query_far_pose_adds_entry (st st' : state) (pose : Frame)
    (reuleaux : ReuleauxReachability) (goal_pointcloud : list Point)
    (collision_pointcloud : option (list Point)) (id : Z)
    (data : reuleaux_data) :
  get_reuleaux_index_by_base_pose pose reuleaux goal_pointcloud
    collision_pointcloud st = (st', Ok (id, data)) ->
  id = max_node st + 1 /\ max_node st' = id
  /\ (exists attrs m,
        node st' !! id = Some attrs
        /\ attrs !! "frame" = Some (VFrame pose)
        /\ attrs !! "reuleaux_data" = Some (VData data)
        /\ attrs !! "mean_reuleaux_index" = Some (VNum m)
        /\ ri_mean (goal_reuleaux_index data) (collision_indices data)
           = Ok m)
  /\ (forall k, k <> id -> node st' !! k = node st !! k).
Proof.
  intros H.
  destruct (query_outcome st pose reuleaux goal_pointcloud
              collision_pointcloud)
    as [[e' E] | (st1 & id1 & data1 & m & E & _ & Hm & Hrec & Hnew & _)];
    rewrite E in H; [discriminate|].
  injection H as <- <- <-.
  destruct Hrec as [(attrs & Ha & Hdata & Hmean) Hothers].
  destruct Hnew as (Hid & Hmax & attrs' & Ha' & Hf).
  rewrite Ha in Ha'. injection Ha' as <-.
  split; [exact Hid|]. split; [exact Hmax|].
  split; [|exact Hothers]. exists attrs, m. auto.
Qed.

(** X22. A pose of the map is added again. Two queries that return, one
    after the other, leave two entries under consecutive keys, whatever
    the two poses are, also when they are the same pose: the second query
    does not find the entry of the first, which stays as the first query
    left it. *)
Theorem query_same_pose_adds_again (st st1 st2 : state) (pose1 pose2 : Frame)
    (reuleaux1 reuleaux2 : ReuleauxReachability)
    (goals1 goals2 : list Point) (coll1 coll2 : option (list Point))
    (id1 id2 : Z) (data1 data2 : reuleaux_data) :
  get_reuleaux_index_by_base_pose pose1 reuleaux1 goals1 coll1 st
    = (st1, Ok (id1, data1)) ->
  get_reuleaux_index_by_base_pose pose2 reuleaux2 goals2 coll2 st1
    = (st2, Ok (id2, data2)) ->
  id2 = id1 + 1
  /\ node st2 !! id1 = node st1 !! id1
  /\ (exists attrs1, node st2 !! id1 = Some attrs1
        /\ attrs1 !! "frame" = Some (VFrame pose1)
        /\ attrs1 !! "reuleaux_data" = Some (VData data1))
  /\ (exists attrs2, node st2 !! id2 = Some attrs2
        /\ attrs2 !! "frame" = Some (VFrame pose2)
        /\ attrs2 !! "reuleaux_data" = Some (VData data2)).
Proof.
  intros H1 H2.
  destruct (query_outcome st pose1 reuleaux1 goals1 coll1)
    as [[e' E] | (sa & ia & da & ma & E & _ & _ & Hrec1 & Hnew1 & _)];
    rewrite E in H1; [discriminate|].
  injection H1 as <- <- <-.
  destruct (query_outcome sa pose2 reuleaux2 goals2 coll2)
    as [[e' E2] | (sb & ib & db & mb & E2 & _ & _ & Hrec2 & Hnew2 & _)];
    rewrite E2 in H2; [discriminate|].
  injection H2 as <- <- <-.
  destruct Hnew1 as (Hid1 & Hmax1 & a1 & Ha1 & Hf1).
  destruct Hnew2 as (Hid2 & Hmax2 & a2 & Ha2 & Hf2).
  destruct Hrec1 as [(a1' & Ha1' & Hd1 & _) _].
  destruct Hrec2 as [(a2' & Ha2' & Hd2 & _) Hothers].
  rewrite Ha1 in Ha1'. injection Ha1' as <-.
  rewrite Ha2 in Ha2'. injection Ha2' as <-.
  assert (Hne : ia <> ib) by lia.
  split; [lia|]. split; [by apply Hothers|].
  split.
  - exists a1. rewrite (Hothers ia Hne). auto.
  - exists a2. auto.
Qed.

(** X23. An empty point cloud never scores: when the goal cloud is
    empty, or a collision cloud is passed and is empty, the query raises
    ([statistics.mean] of an empty list, unless an earlier step already
    failed) and the map is unchanged. *)
Theorem query_empty_cloud_never_returns (st : state) (pose : Frame)
    (reuleaux : ReuleauxReachability) (goal_pointcloud : list Point)
    (collision_pointcloud : option (list Point)) :
  goal_pointcloud = [] \/ collision_pointcloud = Some [] ->
  exists e,
    get_reuleaux_index_by_base_pose pose reuleaux goal_pointcloud
      collision_pointcloud st = (st, Raise e).
Proof.
  intros Hempty.
  destruct (query_outcome st pose reuleaux goal_pointcloud
              collision_pointcloud)
    as [[e' E] | (st1 & id1 & data & m & E & Hc & Hm & _)];
    [eauto|exfalso].
  destruct Hc as [_ Hcp Hgl _ Hcl _ _ _].
  unfold ri_mean, collision_indices in Hm.
  destruct Hempty as [-> | ->].
  - destruct (goal_reuleaux_index data); [|discriminate]. discriminate.
  - rewrite Hcp in Hm.
    destruct (collision_reuleaux_index data); [|discriminate].
    destruct (mean (goal_reuleaux_index data)); discriminate.
Qed.

(** C3, amended: the rule compares with the float product
    [resolution*1.415], not with [resolution * sqrt 2]. For every goal
    point of a query that returns, with [d] the answer of the tree of the
    transformed samples for the two neighbours of that point: the point
    is flagged reachable, with the [ri] of the sample that the nearest
    neighbour is labelled with, when both neighbours are at a distance
    strictly below [resolution*1.415]; and it is flagged unreachable,
    with index 0, when the nearest neighbour is not strictly below that
    radius, or the second is not. One of the two is always the case. *)
Theorem C3_scoring_rule (st st' : state) (pose : Frame)
    (reuleaux : ReuleauxReachability) (goal_pointcloud : list Point)
    (collision_pointcloud : option (list Point)) (id : Z)
    (data : reuleaux_data) (i : nat) (pt : Point) :
  get_reuleaux_index_by_base_pose pose reuleaux goal_pointcloud
    collision_pointcloud st = (st', Ok (id, data)) ->
  goal_pointcloud !! i = Some pt ->
  let d := KDTree_nearest_neighbors (sample_tree pose reuleaux) pt 2 in
  exists d0,
    d !! 0%nat = Some d0
    /\ ((dist_ltb (nn_dist d0) (radius reuleaux) = true
         /\ (exists d1, d !! 1%nat = Some d1
               /\ dist_ltb (nn_dist d1) (radius reuleaux) = true)
         /\ (exists l s, nn_label d0 = Some l
               /\ spheres reuleaux !! l = Some s
               /\ goal_reuleaux_index data !! i = Some (ri s))
         /\ reachable data !! i = Some true)
        \/ ((dist_ltb (nn_dist d0) (radius reuleaux) = false
             \/ exists d1, d !! 1%nat = Some d1
                  /\ dist_ltb (nn_dist d1) (radius reuleaux) = false)
            /\ goal_reuleaux_index data !! i = Some 0%Qc
            /\ reachable data !! i = Some false)).
Proof.
  intros H Hpt d.
  destruct (query_outcome st pose reuleaux goal_pointcloud
              collision_pointcloud)
    as [[e' E] | (st1 & id1 & data1 & m & E & _ & _ & _ & _ & Hgoal & _)];
    rewrite E in H; [discriminate|].
  injection H as <- <- <-.
  destruct (Hgoal i pt Hpt) as (q & b & Hs & Hq & Hb).
  destruct (score_goal_point_rule reuleaux d q b Hs)
    as (d0 & Hd0 & [(H0 & H1 & (l & s & Hl & Hsp & ->) & ->)
                   | (Hfar & -> & ->)]).
  - exists d0. split; [exact Hd0|]. left. eauto 10.
  - exists d0. split; [exact Hd0|]. right. auto.
Qed.

(** C4, amended: with a collision cloud, the aggregate that a query
    stores is the code's formula evaluated in floats: the rounded mean
    of the goal mean, taken once per goal point, and of the negated
    collision mean, taken once per collision point, both means rounded.
    It is the rounding of the reference (sum of goal indices - sum of
    collision indices) / (number of goal points + number of collision
    points) when the two means are computed exactly; in general it differs
    from the reference by the rounding of the means. Both clouds are
    non-empty when the query returns. *)
Theorem C4_aggregate_on_query (st st' : state) (pose : Frame)
    (reuleaux : ReuleauxReachability) (goal_pointcloud : list Point)
    (pts : list Point) (id : Z) (data : reuleaux_data) :
  get_reuleaux_index_by_base_pose pose reuleaux goal_pointcloud
    (Some pts) st = (st', Ok (id, data)) ->
  let G := goal_reuleaux_index data in
  let C := collision_reuleaux_index data in
  let g := fl (Qc_sum G / Qc_of_nat (length G))%Qc in
  let c := fmul (fl (Qc_sum C / Qc_of_nat (length C))%Qc) (qc (-1) 1) in
  (length G = length goal_pointcloud /\ goal_pointcloud <> [])
  /\ (length C = length pts /\ pts <> [])
  /\ exists attrs m,
       node st' !! id = Some attrs
       /\ attrs !! "mean_reuleaux_index" = Some (VNum m)
       /\ m = fl ((Qc_of_nat (length G) * g + Qc_of_nat (length C) * c)
                  / Qc_of_nat (length G + length C))%Qc
       /\ (g = (Qc_sum G / Qc_of_nat (length G))%Qc ->
           c = (- (Qc_sum C / Qc_of_nat (length C)))%Qc ->
           m = fl (ri_mean_reference G C)).
Proof.
  intros H G C g c.
  destruct (query_outcome st pose reuleaux goal_pointcloud (Some pts))
    as [[e' E] | (st1 & id1 & data1 & m & E & Hc & Hm & Hrec & _)];
    rewrite E in H; [discriminate|].
  injection H as <- <- <-.
  destruct Hc as [_ Hcp Hgl _ Hcl _ _ _]. cbn [default] in Hcl.
  fold G in Hgl, Hm. fold C in Hcl.
  unfold collision_indices in Hm. rewrite Hcp in Hm. fold C in Hm.
  assert (HG : G <> []).
  { intros HG. rewrite HG in Hm. discriminate. }
  assert (HC : C <> []).
  { intros HC. rewrite HC in Hm. unfold ri_mean in Hm.
    rewrite (mean_nonempty G HG) in Hm. discriminate. }
  split.
  { split; [exact Hgl|]. intros ->. destruct G; [congruence|discriminate]. }
  split.
  { split; [exact Hcl|]. intros ->. destruct C; [congruence|discriminate]. }
  destruct Hrec as [(attrs & Ha & _ & Hmean) _].
  exists attrs, m. split; [exact Ha|]. split; [exact Hmean|].
  assert (Em : m = fl ((Qc_of_nat (length G) * g + Qc_of_nat (length C) * c)
                       / Qc_of_nat (length G + length C))%Qc).
  { unfold ri_mean in Hm.
    rewrite (mean_nonempty G HG) in Hm. cbn [mbind result_bind] in Hm.
    rewrite (mean_nonempty C HC) in Hm. cbn [mbind result_bind] in Hm.
    fold g c in Hm.
    rewrite mean_nonempty in Hm.
    2:{ destruct G; [congruence|]. discriminate. }
    injection Hm as <-. f_equal.
    rewrite Qc_sum_app, !Qc_sum_replicate, length_app, !length_replicate.
    reflexivity. }
  split; [exact Em|].
  intros Hg Hcn. rewrite Em. f_equal. unfold ri_mean_reference.
  rewrite Hg, Hcn.
  assert (Hng : Qc_of_nat (length G) <> 0%Qc).
  { apply Qc_of_nat_pos. destruct G; [congruence|simpl; lia]. }
  assert (Hnc : Qc_of_nat (length C) <> 0%Qc).
  { apply Qc_of_nat_pos. destruct C; [congruence|simpl; lia]. }
  assert (Hn : Qc_of_nat (length G + length C) <> 0%Qc).
  { apply Qc_of_nat_pos. destruct G; [congruence|simpl; lia]. }
  rewrite Qc_of_nat_add in *.
  field. auto.
Qed.

End WithKernel.

(** *** The aggregate *)

Lemma Q_collision_bound (sg sc ng nc : Q) :
  (0 <= sg -> sc <= 0 -> 0 < ng -> 0 < nc ->
   (ng * sg + nc * sc) * / (ng + nc) <= sg)%Q.
Proof.
  intros Hsg Hsc Hng Hnc.
  assert (H2 : (0 < / (ng + nc))%Q) by (apply Qinv_lt_0_compat; lra).
  assert (H0 : ((ng + nc) * / (ng + nc) == 1)%Q) by (apply Qmult_inv_r; lra).
  assert (H3 : (0 <= sg * / (ng + nc))%Q) by nra.
  assert (H4 : (sc * / (ng + nc) <= 0)%Q) by nra.
  nra.
Qed.

Lemma Qc_collision_bound (sg sc ng nc : Qc) :
  (0 <= sg -> sc <= 0 -> 0 < ng -> 0 < nc ->
   (ng * sg + nc * sc) / (ng + nc) <= sg)%Qc.
Proof.
  unfold Qcle, Qclt, Qcdiv, Qcinv, Qcmult, Qcplus, Q2Qc.
  cbn [this]. rewrite !Qred_correct.
  apply Q_collision_bound.
Qed.

Lemma Qc_sum_nonneg (l : list Qc) :
  Forall (fun x => (0 <= x)%Qc) l -> (0 <= Qc_sum l)%Qc.
Proof.
  induction 1 as [|x l Hx _ IH]; [apply Qcle_refl|].
  unfold Qc_sum in *. simpl.
  replace 0%Qc with (0 + 0)%Qc by ring.
  by apply Qcplus_le_compat.
Qed.

Lemma Qc_of_nat_gt_0 (n : nat) : (0 < n)%nat -> (0 < Qc_of_nat n)%Qc.
Proof.
  intros Hn. unfold Qclt, Qc_of_nat, Q2Qc. cbn [this].
  rewrite !Qred_correct. change 0%Q with (inject_Z 0).
  rewrite <- Zlt_Qlt. lia.
Qed.

Lemma Qc_div_nonneg (x y : Qc) : (0 <= x)%Qc -> (0 < y)%Qc -> (0 <= x / y)%Qc.
Proof.
  unfold Qcle, Qclt, Qcdiv, Qcinv, Qcmult, Q2Qc.
  cbn [this]. rewrite !Qred_correct. intros Hx Hy.
  apply Qmult_le_0_compat; [exact Hx|].
  apply Qlt_le_weak. by apply Qinv_lt_0_compat.
Qed.

(** The aggregate with a collision cloud, as the floats compute it. *)
Lemma ri_mean_with_collisions `{Rd : Rounding} (goal coll : list Qc) :
  goal <> [] -> coll <> [] ->
  let g := fl (Qc_sum goal / Qc_of_nat (length goal))%Qc in
  let c := fmul (fl (Qc_sum coll / Qc_of_nat (length coll))%Qc) (qc (-1) 1) in
  ri_mean goal (Some coll)
  = Ok (fl ((Qc_of_nat (length goal) * g + Qc_of_nat (length coll) * c)
            / (Qc_of_nat (length goal) + Qc_of_nat (length coll)))%Qc).
Proof.
  intros Hg Hc g c. unfold ri_mean.
  rewrite (mean_nonempty goal Hg). cbn [mbind result_bind].
  rewrite (mean_nonempty coll Hc). cbn [mbind result_bind].
  fold g c.
  rewrite mean_nonempty.
  2:{ destruct goal; [congruence|]. discriminate. }
  rewrite Qc_sum_app, !Qc_sum_replicate, length_app, !length_replicate.
  rewrite Qc_of_nat_add. reflexivity.
Qed.

(** With collision points the aggregate is at most the one without,
    for every rounding that keeps the order, leaves a float as it is and
    has 0 as a float. *)
Lemma collision_points_weigh_down `{Rd : Rounding}
    (goal coll : list Qc) :
  correctly_rounded ->
  goal <> [] -> coll <> [] ->
  Forall (fun x => (0 <= x)%Qc) goal ->
  Forall (fun x => (0 <= x)%Qc) coll ->
  exists m mc,
    ri_mean goal None = Ok m /\ ri_mean goal (Some coll) = Ok mc
    /\ (mc <= m)%Qc.
Proof.
  intros [Hmono Hidem Hzero] Hg Hc Hgn Hcn.
  assert (Hng : (0 < Qc_of_nat (length goal))%Qc).
  { apply Qc_of_nat_gt_0. destruct goal; [congruence|simpl; lia]. }
  assert (Hnc : (0 < Qc_of_nat (length coll))%Qc).
  { apply Qc_of_nat_gt_0. destruct coll; [congruence|simpl; lia]. }
  eexists _, _. split; [|split].
  - unfold ri_mean. rewrite (mean_nonempty goal Hg). reflexivity.
  - by apply ri_mean_with_collisions.
  - set (g := fl (Qc_sum goal / Qc_of_nat (length goal))%Qc).
    set (c := fmul _ _).
    assert (Hfl0 : forall x, (0 <= x)%Qc -> (0 <= fl x)%Qc).
    { intros x Hx. apply Qcle_trans with (fl 0%Qc);
        [rewrite Hzero; apply Qcle_refl|by apply Hmono]. }
    assert (H0g : (0 <= g)%Qc).
    { subst g. apply Hfl0.
      apply Qc_div_nonneg; [by apply Qc_sum_nonneg|exact Hng]. }
    assert (Hc0 : (c <= 0)%Qc).
    { subst c. unfold fmul.
      apply Qcle_trans with (fl 0%Qc); [|rewrite Hzero; apply Qcle_refl].
      apply Hmono.
      assert (H0c : (0 <= fl (Qc_sum coll / Qc_of_nat (length coll)))%Qc).
      { apply Hfl0.
        apply Qc_div_nonneg; [by apply Qc_sum_nonneg|exact Hnc]. }
      revert H0c. generalize (fl (Qc_sum coll / Qc_of_nat (length coll))%Qc).
      intros x. unfold Qcle, qc, Qcmult, Q2Qc. cbn [this].
      rewrite !Qred_correct. intros Hx. nra. }
    apply Qcle_trans with (fl g); [|subst g; rewrite Hidem; apply Qcle_refl].
    apply Hmono. by apply Qc_collision_bound.
Qed.

(** X24. Collision points never raise a score. For non-empty lists of
    non-negative indices, the aggregate with the collision list is at
    most the aggregate of the goal list alone: every collision point
    weighs on the score, also one with index 0, which only adds to the
    number of points that the sum is divided by. The means are rounded
    to nearest, which keeps the order and leaves a float as it is. *)
Theorem ri_mean_collision_never_raises_score (goal coll : list Qc) :
  goal <> [] -> coll <> [] ->
  Forall (fun x => (0 <= x)%Qc) goal ->
  Forall (fun x => (0 <= x)%Qc) coll ->
  exists m mc,
    ri_mean (Rd := binary64) goal None = Ok m
    /\ ri_mean (Rd := binary64) goal (Some coll) = Ok mc
    /\ (mc <= m)%Qc.
Proof.
  apply (collision_points_weigh_down (Rd := binary64)).
  exact Binary64Facts.binary64_correctly_rounded.
Qed.

Lemma query_failure_leaves_map_witness :
  fst (get_reuleaux_index_by_base_pose (K := unit_kernel) tt two_spheres
         [] None known_pose_map) = known_pose_map.
Proof.
  apply (query_failure_leaves_map (K := unit_kernel) known_pose_map tt
           two_spheres [] None StatisticsError).
  reflexivity.
Defined.

Lemma query_data_consistent_witness :
  consistent (K := unit_kernel) two_spheres [tt] None example_query_data.
Proof.
  apply (query_data_consistent (K := unit_kernel) (mkState ∅ (-1))
           (fst example_query) tt two_spheres [tt] None 0
           example_query_data).
  vm_compute. reflexivity.
Defined.

Lemma query_far_pose_adds_entry_witness :
  0 = max_node (mkState (K := unit_kernel) ∅ (-1)) + 1
  /\ max_node (fst example_query) = 0
  /\ (exists attrs m,
        node (fst example_query) !! 0 = Some attrs
        /\ attrs !! "frame" = Some (VFrame (K := unit_kernel) tt)
        /\ attrs !! "reuleaux_data" = Some (VData example_query_data)
        /\ attrs !! "mean_reuleaux_index" = Some (VNum m)
        /\ ri_mean (goal_reuleaux_index example_query_data)
             (collision_indices example_query_data) = Ok m)
  /\ (forall k, k <> 0 ->
        node (fst example_query) !! k
        = node (mkState (K := unit_kernel) ∅ (-1)) !! k).
Proof.
  apply (query_far_pose_adds_entry (K := unit_kernel) (mkState ∅ (-1))
           (fst example_query) tt two_spheres [tt] None 0
           example_query_data).
  vm_compute. reflexivity.
Defined.

Lemma query_same_pose_adds_again_witness :
  1 = 0 + 1
  /\ node (fst example_requery) !! 0 = node (fst example_query) !! 0
  /\ (exists attrs1, node (fst example_requery) !! 0 = Some attrs1
        /\ attrs1 !! "frame" = Some (VFrame (K := unit_kernel) tt)
        /\ attrs1 !! "reuleaux_data" = Some (VData example_query_data))
  /\ (exists attrs2, node (fst example_requery) !! 1 = Some attrs2
        /\ attrs2 !! "frame" = Some (VFrame (K := unit_kernel) tt)
        /\ attrs2 !! "reuleaux_data" = Some (VData example_requery_data)).
Proof.
  apply (query_same_pose_adds_again (K := unit_kernel) (mkState ∅ (-1))
           (fst example_query) (fst example_requery) tt tt
           two_spheres two_spheres [tt] [tt] None (Some [tt]) 0 1
           example_query_data example_requery_data).
  - vm_compute. reflexivity.
  - vm_compute. reflexivity.
Defined.

Lemma query_empty_cloud_never_returns_witness :
  exists e,
    get_reuleaux_index_by_base_pose (K := unit_kernel) tt two_spheres
      [tt] (Some []) known_pose_map = (known_pose_map, Raise e).
Proof.
  apply (query_empty_cloud_never_returns (K := unit_kernel) known_pose_map
           tt two_spheres [tt] (Some [])).
  right. reflexivity.
Defined.

Lemma ri_mean_collision_never_raises_score_witness :
  exists m mc,
    ri_mean (Rd := binary64) [qc 4 1; qc 2 1] None = Ok m
    /\ ri_mean (Rd := binary64) [qc 4 1; qc 2 1] (Some [0%Qc]) = Ok mc
    /\ (mc <= m)%Qc.
Proof.
  apply (ri_mean_collision_never_raises_score [qc 4 1; qc 2 1] [0%Qc]).
  - discriminate.
  - discriminate.
  - repeat constructor; vm_compute; discriminate.
  - repeat constructor; vm_compute; discriminate.
Defined.

(** C3 as stated fails: resolution 1 and a goal point whose two nearest
    samples are both at the distance 1.4145. Both are farther than
    [resolution * sqrt 2] (1.4145^2 > 2), yet both are below
    [resolution*1.415]: the query marks the point reachable with the
    index 7 of the nearest sample, not unreachable with index 0. *)
Lemma C3_counterexample :
  KDTree_nearest_neighbors (Kernel := near_miss_kernel)
    (sample_tree (K := near_miss_kernel) tt near_miss_spheres) tt 2
  = [Nnbr (Some tt) (Some 0%nat) (Finite (binary64_round (qc 14145 10000)));
     Nnbr (Some tt) (Some 1%nat) (Finite (binary64_round (qc 14145 10000)))]
  /\ beyond_sqrt2 (Finite (binary64_round (qc 14145 10000)))
       (resolution near_miss_spheres) = true
  /\ exists st' id data q,
       get_reuleaux_index_by_base_pose (K := near_miss_kernel) tt
         near_miss_spheres [tt] None (mkState ∅ (-1)) = (st', Ok (id, data))
       /\ reachable data = [true]
       /\ goal_reuleaux_index data = [q] /\ this q = 7%Q.
Proof.
  split; [vm_compute; reflexivity|].
  split; [vm_compute; reflexivity|].
  eexists _, _, _, _. split; [vm_compute; reflexivity|].
  split; [reflexivity|]. split; reflexivity.
Qed.

Lemma C3_scoring_rule_witness :
  let d := KDTree_nearest_neighbors (Kernel := unit_kernel)
             (sample_tree (K := unit_kernel) tt two_spheres) tt 2 in
  exists d0,
    d !! 0%nat = Some d0
    /\ ((dist_ltb (nn_dist d0) (radius two_spheres) = true
         /\ (exists d1, d !! 1%nat = Some d1
               /\ dist_ltb (nn_dist d1) (radius two_spheres) = true)
         /\ (exists l s, nn_label d0 = Some l
               /\ spheres two_spheres !! l = Some s
               /\ goal_reuleaux_index example_query_data !! 0%nat
                  = Some (ri s))
         /\ reachable example_query_data !! 0%nat = Some true)
        \/ ((dist_ltb (nn_dist d0) (radius two_spheres) = false
             \/ exists d1, d !! 1%nat = Some d1
                  /\ dist_ltb (nn_dist d1) (radius two_spheres) = false)
            /\ goal_reuleaux_index example_query_data !! 0%nat = Some 0%Qc
            /\ reachable example_query_data !! 0%nat = Some false)).
Proof.
  apply (C3_scoring_rule (K := unit_kernel) (mkState ∅ (-1))
           (fst example_query) tt two_spheres [tt] None 0
           example_query_data 0%nat tt).
  - vm_compute. reflexivity.
  - reflexivity.
Defined.

(** C4 as stated fails twice. A collision cloud that is supplied but
    empty gives no aggregate: the query raises [StatisticsError]. And
    with indices 1, 0, 0 of three goal points and index 1 of one
    collision point, the reference is (1 - 1) / 4 = 0, while the query
    stores [-2^-56]: the goal mean 1/3 is rounded before it is taken three
    times. *)
Lemma C4_counterexample :
  get_reuleaux_index_by_base_pose (K := unit_kernel) tt two_spheres
    [tt] (Some []) (mkState ∅ (-1))
  = (mkState ∅ (-1), Raise StatisticsError)
  /\ exists st' id data attrs m,
       flag_query = (st', Ok (id, data))
       /\ goal_reuleaux_index data = [1%Qc; 0%Qc; 0%Qc]
       /\ collision_reuleaux_index data = [1%Qc]
       /\ node st' !! id = Some attrs
       /\ attrs !! "mean_reuleaux_index" = Some (VNum m)
       /\ this m = (-1 # 72057594037927936)%Q
       /\ ri_mean_reference [1%Qc; 0%Qc; 0%Qc] [1%Qc] = 0%Qc.
Proof.
  split; [reflexivity|].
  eexists _, _, _, _, _. split; [vm_compute; reflexivity|].
  split; [reflexivity|]. split; [reflexivity|].
  split; [vm_compute; reflexivity|].
  split; [vm_compute; reflexivity|].
  split; [reflexivity|]. apply Qc_is_canon. vm_compute. reflexivity.
Qed.

Lemma C4_aggregate_on_query_witness :
  let G := goal_reuleaux_index example_requery_data in
  let C := collision_reuleaux_index example_requery_data in
  let g := fl (Qc_sum G / Qc_of_nat (length G))%Qc in
  let c := fmul (fl (Qc_sum C / Qc_of_nat (length C))%Qc) (qc (-1) 1) in
  (length G = length [tt] /\ [tt] <> [])
  /\ (length C = length [tt] /\ [tt] <> [])
  /\ exists attrs m,
       node (fst example_requery) !! 1 = Some attrs
       /\ attrs !! "mean_reuleaux_index" = Some (VNum m)
       /\ m = fl ((Qc_of_nat (length G) * g + Qc_of_nat (length C) * c)
                  / Qc_of_nat (length G + length C))%Qc
       /\ (g = (Qc_sum G / Qc_of_nat (length G))%Qc ->
           c = (- (Qc_sum C / Qc_of_nat (length C)))%Qc ->
           m = fl (ri_mean_reference G C)).
Proof.
  apply (C4_aggregate_on_query (K := unit_kernel) (fst example_query)
           (fst example_requery) tt two_spheres [tt] [tt] 1
           example_requery_data).
  vm_compute. reflexivity.
Defined.

End QueryFacts.

(** ** The poses of the map and their k-d tree *)

Module PoseFacts.
Import BaseMap QuerySpec.
Import QueryFacts.

Section WithKernel.
Context `{K : Kernel} `{Rd : Rounding}.




End WithKernel.



End PoseFacts.

(** ** Datasets from messages *)

Module MessageFacts.
Import Ros Reachability.
Import QueryFacts PoseFacts.

Section WithKernel.
Context `{C : Codec}.

(** The loop of [update_from_message] over the items: the spheres that
    parse are appended, up to the first item that does not. *)
Lemma append_loop (items : list msg) (self : ReuleauxReachability) :
  match mapM Sphere.from_message items with
  | Ok ss =>
      for_each items (fun sphere =>
        s ← lift (Sphere.from_message sphere);
        modify (fun self =>
          mkReuleaux (header self) (spheres self ++ [s]) (resolution self)))
        self
      = (mkReuleaux (header self) (spheres self ++ ss) (resolution self),
         Ok tt)
  | Raise e =>
      exists n ss,
        (n < length items)%nat
        /\ mapM Sphere.from_message (take n items) = Ok ss
        /\ (exists item, items !! n = Some item
                         /\ Sphere.from_message item = Raise e)
        /\ for_each items (fun sphere =>
             s ← lift (Sphere.from_message sphere);
             modify (fun self =>
               mkReuleaux (header self) (spheres self ++ [s])
                          (resolution self)))
             self
           = (mkReuleaux (header self) (spheres self ++ ss)
                         (resolution self), Raise e)
  end.
Proof.
  revert self. induction items as [|item items IH]; intros self.
  - cbn [mapM mret result_ret for_each]. rewrite app_nil_r.
    by destruct self.
  - cbn [mapM for_each].
    destruct (Sphere.from_message item) as [s|e] eqn:Es;
      cbn [mbind result_bind].
    + erewrite st_bind_ok.
      2:{ erewrite st_bind_ok by reflexivity. reflexivity. }
      specialize (IH (mkReuleaux (header self) (spheres self ++ [s])
                                 (resolution self))).
      cbn [header spheres resolution] in IH.
      destruct (mapM Sphere.from_message items) as [ss|e];
        cbn [mbind result_bind mret result_ret].
      * rewrite IH. by rewrite <- app_assoc.
      * destruct IH as (n & ss & Hn & Hss & (it & Hit & Hfail) & E).
        exists (S n), (s :: ss). split; [simpl; lia|].
        split; [cbn [take mapM]; rewrite Es; cbn [mbind result_bind];
                rewrite Hss; reflexivity|].
        split; [exists it; auto|].
        rewrite E. by rewrite <- app_assoc.
    + exists 0%nat, []. split; [simpl; lia|]. split; [reflexivity|].
      split; [exists item; auto|].
      rewrite app_nil_r.
      erewrite st_bind_pure.
      2:{ erewrite st_bind_pure by reflexivity. reflexivity. }
      by destruct self.
Qed.

(** Every run of [update_from_message], next to [from_message] on the
    same message. *)
Lemma update_outcome (message : msg) (self : ReuleauxReachability) :
  match from_message message with
  | Ok r => update_from_message message self = (r, Ok tt)
  | Raise e =>
      exists self',
        update_from_message message self = (self', Raise e)
        /\ resolution self' = resolution self
        /\ match msg_getitem message "header" with
           | Raise _ => self' = self
           | Ok h =>
               header self' = h
               /\ match (m ← msg_getitem message "WsSpheres"; msg_iter m) with
                  | Raise _ => spheres self' = []
                  | Ok items =>
                      exists n, (n <= length items)%nat
                        /\ mapM Sphere.from_message (take n items)
                           = Ok (spheres self')
                  end
           end
  end.
Proof.
  unfold from_message, update_from_message.
  destruct (msg_getitem message "header") as [h|e] eqn:Eh;
    cbn [mbind result_bind].
  2:{ exists self. split; [reflexivity|]. auto. }
  erewrite st_bind_pure by reflexivity. cbn beta iota.
  erewrite st_bind_ok by reflexivity.
  erewrite st_bind_ok by reflexivity.
  cbn [header spheres resolution].
  erewrite st_bind_pure by reflexivity.
  destruct (m ← msg_getitem message "WsSpheres"; msg_iter m)
    as [items|e] eqn:Ei; cbn [mbind result_bind].
  2:{ eexists. split; [reflexivity|]. cbn [header spheres resolution]. auto. }
  pose proof (append_loop items (mkReuleaux h [] (resolution self))) as Hloop.
  cbn [header spheres resolution app] in Hloop.
  destruct (mapM Sphere.from_message items) as [ss|e] eqn:Es;
    cbn [mbind result_bind].
  - erewrite st_bind_ok by exact Hloop.
    erewrite st_bind_pure by reflexivity.
    destruct (msg_getitem message "resolution") as [res|e] eqn:Er;
      cbn [mbind result_bind].
    + reflexivity.
    + eexists. split; [reflexivity|]. cbn [header spheres resolution].
      split; [reflexivity|]. split; [reflexivity|].
      exists (length items). split; [lia|]. by rewrite firstn_all.
  - destruct Hloop as (n & ss & Hn & Hss & _ & E).
    eexists. split.
    { erewrite st_bind_raise by exact E. reflexivity. }
    cbn [header spheres resolution].
    split; [reflexivity|]. split; [reflexivity|].
    exists n. split; [lia|exact Hss].
Qed.

(** X27. [update_from_message] and [from_message] agree: a message
    parses to the dataset [r] exactly when updating any object with it
    returns and leaves the object equal to [r]; nothing of the old
    object survives a successful update. *)
Theorem update_from_message_agrees (message : msg)
    (self r : ReuleauxReachability) :
  from_message message = Ok r
  <-> update_from_message message self = (r, Ok tt).
Proof.
  pose proof (update_outcome message self) as H.
  destruct (from_message message) as [r'|e].
  - rewrite H. split; congruence.
  - destruct H as (self' & E & _). rewrite E. split; discriminate.
Qed.

(** X28. A failed update is not atomic. When the message does not parse,
    [update_from_message] raises the error of [from_message], and the
    object keeps its old resolution; but unless the failure is the
    lookup of the header itself, the header is already the one of the
    message and the spheres are already replaced, by the spheres parsed
    before the failure (none when the list of spheres could not be
    read). *)
Theorem update_from_message_not_atomic (message : msg)
    (self : ReuleauxReachability) (e : exn) :
  from_message message = Raise e ->
  exists self',
    update_from_message message self = (self', Raise e)
    /\ resolution self' = resolution self
    /\ (forall e', msg_getitem message "header" = Raise e' -> self' = self)
    /\ (forall h, msg_getitem message "header" = Ok h ->
          header self' = h
          /\ (forall e', (m ← msg_getitem message "WsSpheres"; msg_iter m)
                         = Raise e' -> spheres self' = [])
          /\ (forall items,
                (m ← msg_getitem message "WsSpheres"; msg_iter m) = Ok items ->
                exists n, (n <= length items)%nat
                  /\ mapM Sphere.from_message (take n items)
                     = Ok (spheres self'))).
Proof.
  intros Hfail.
  pose proof (update_outcome message self) as H. rewrite Hfail in H.
  destruct H as (self' & E & Hres & Hrest).
  exists self'. split; [exact E|]. split; [exact Hres|].
  destruct (msg_getitem message "header") as [h|e0].
  - split; [discriminate|]. intros h' [= <-].
    destruct Hrest as [Hh Hs]. split; [exact Hh|].
    destruct (m ← msg_getitem message "WsSpheres"; msg_iter m)
      as [items|e1].
    + split; [discriminate|]. intros items' [= <-]. exact Hs.
    + split; [intros; exact Hs|discriminate].
  - split; [intros; exact Hrest|discriminate].
Qed.

(** X29. The dict of [data] is no message: [from_message] reads the
    spheres under the key WsSpheres, and [data] writes them under the key
    spheres, so [from_message] on the [data] of any dataset raises
    [KeyError]. *)
Theorem from_message_rejects_data (r : ReuleauxReachability) :
  from_message (data r) = Raise KeyError.
Proof. reflexivity. Qed.

Lemma mapM_fmap_inverse {A B} (f : A -> B) (g : B -> result A) (l : list A) :
  (forall x, g (f x) = Ok x) -> mapM g (f <$> l) = Ok l.
Proof.
  intros H. induction l as [|x l IH]; [reflexivity|].
  cbn [fmap list_fmap mapM]. rewrite H. cbn [mbind result_bind].
  change (list_fmap A B f l) with (f <$> l). rewrite IH. reflexivity.
Qed.

Lemma sphere_round_trip (s : Sphere.WsSphere) :
  codec_round_trip -> Sphere.from_data (Sphere.data s) = Ok s.
Proof.
  intros [Hp Hf]. destruct s as [h p i ps].
  unfold Sphere.from_data, Sphere.data.
  cbn [Sphere.header Sphere.point Sphere.ri Sphere.poses].
  change (msg_getitem (MDict _) "header") with (Ok h : result msg).
  cbn [mbind result_bind].
  change (msg_getitem (MDict _) "point") with (Ok (Point_data p) : result msg).
  cbn [mbind result_bind]. rewrite Hp. cbn [mbind result_bind].
  change (msg_getitem (MDict _) "ri") with (Ok i : result msg).
  cbn [mbind result_bind].
  change (msg_getitem (MDict _) "poses")
    with (Ok (MList (Frame_data <$> ps)) : result msg).
  cbn [mbind result_bind msg_iter].
  rewrite (mapM_fmap_inverse Frame_data Frame_from_data ps Hf).
  reflexivity.
Qed.

(** X30. [from_data] reads back what [data] writes. When the
    serialisers of points and frames are inverted by their
    deserialisers, [from_data] on the [data] of a dataset returns an
    equal dataset: header, resolution and every sphere with its header,
    point, index and poses. *)
Theorem from_data_of_data (r : ReuleauxReachability) :
  codec_round_trip -> from_data (data r) = Ok r.
Proof.
  intros Hc. destruct r as [h ss res].
  unfold from_data, data. cbn [header spheres resolution].
  change (msg_getitem (MDict _) "header") with (Ok h : result msg).
  cbn [mbind result_bind].
  change (msg_getitem (MDict _) "spheres")
    with (Ok (MList (Sphere.data <$> ss)) : result msg).
  cbn [mbind result_bind msg_iter].
  rewrite (mapM_fmap_inverse Sphere.data Sphere.from_data ss
             (fun s => sphere_round_trip s Hc)).
  cbn [mbind result_bind].
  change (msg_getitem (MDict _) "resolution") with (Ok res : result msg).
  reflexivity.
Qed.

End WithKernel.

Lemma update_from_message_not_atomic_witness :
  exists self',
    update_from_message truncated_message new = (self', Raise KeyError)
    /\ resolution self' = resolution new
    /\ (forall e', msg_getitem truncated_message "header" = Raise e' ->
          self' = new)
    /\ (forall h, msg_getitem truncated_message "header" = Ok h ->
          header self' = h
          /\ (forall e',
                (m ← msg_getitem truncated_message "WsSpheres"; msg_iter m)
                = Raise e' -> spheres self' = [])
          /\ (forall items,
                (m ← msg_getitem truncated_message "WsSpheres"; msg_iter m)
                = Ok items ->
                exists n, (n <= length items)%nat
                  /\ mapM Sphere.from_message (take n items)
                     = Ok (spheres self'))).
Proof.
  apply (update_from_message_not_atomic truncated_message new KeyError).
  reflexivity.
Defined.

Lemma from_data_of_data_witness :
  from_data (data example_dataset) = Ok example_dataset.
Proof.
  apply (from_data_of_data example_dataset).
  split; intros []; reflexivity.
Defined.

(** A complete message parses, to a dataset of one sphere. *)
Example full_message_parses :
  exists r, from_message full_message = Ok r
            /\ length (spheres r) = 1%nat
            /\ resolution r = MNum (qc 1 10).
Proof. eexists. split; [vm_compute; reflexivity|]. split; reflexivity. Qed.

End MessageFacts.
